(** * Scalar field painter: grid, flood fill and marching squares

    A shallow embedding of [ScalarField], [FloodFill] and
    [MarchingSquares] (TypeScript), with the properties of their
    specification, and of [CoordConverter], [ScaledShapePainter],
    [HeightMap] and [Stock] around them.

    Numbers.  The source computes on JavaScript numbers.  Here a [float]
    is an exact rational ([Q]) and an [integer] is a [Z]: the properties
    below are those of the algorithms over exact arithmetic, rounding is
    not modelled.  A property that rests on comparisons and on the
    structure of the loops alone is one of the rounded program as well;
    a property whose statement names the value of a product, a sum, a
    difference or a quotient says that it is taken over exact
    arithmetic: the source computes the same expression with each
    operation rounded, and can differ in the last digit.

    A division by zero, which yields an infinity or [NaN] in the
    source, yields [0] in [Q]; the properties of a quotient are stated
    for a divisor that is not zero.  In [fillFrom] and in the merges
    the divisor is a squared distance of at least [2^-20].  In [unfillFrom]
    the divisor [thicknessSq] is zero only when the capping radius is
    zero as well, and the test against that radius discards the value.
    The crossing of an edge divides by the sum of two weights, which is
    zero only when both corners are at the threshold.  [Math.hypot],
    [Math.exp] and [Math.log] have no rational counterpart and are
    parameters of the functions that call them.

    Bounds.  [get] and [set] are the raw accesses [values[y][x]] of the
    source, which are left to the callers to guard; the flood guards each
    of them with [isInside], and the properties of the scan and of the
    merges are stated for cells of the grid. *)

From Stdlib Require Import ZArith QArith Qround Qminmax Qabs List Bool Lia Lqa FinFun.
Import ListNotations.

Open Scope Z_scope.

Definition integer := Z.
Definition float := Q.

(** ** Comparisons and loops *)

(** [a < b] on numbers, as a test. *)
Definition Qltb (a b : Q) : bool := negb (Qle_bool b a).

(** [for (let i = lo; i <= hi; i++)]: the values taken by [i]. *)
Definition zrange (lo hi : Z) : list Z :=
  map (fun k => lo + Z.of_nat k) (seq 0 (Z.to_nat (hi - lo + 1))).

(** [array[i] = v] for an index inside the array. *)
Fixpoint update {A : Type} (i : nat) (f : A -> A) (l : list A) : list A :=
  match l, i with
  | [], _ => []
  | a :: l', O => f a :: l'
  | a :: l', S i' => a :: update i' f l'
  end.

(** A grid cell, [(x, y)]. *)
Definition Cell : Type := Z * Z.

(** ** ScalarField *)

Module ScalarField.

(** [values: number[][]], a list of rows. *)
Definition t : Type := list (list Q).

(** [new ScalarField(dimX, dimY)]: [dimY] rows of [dimX] zeros. *)
Definition create (dimX dimY : nat) : t := repeat (repeat 0%Q dimX) dimY.

Definition dimY (f : t) : Z := Z.of_nat (length f).

Definition dimX (f : t) : Z :=
  match f with
  | [] => 0
  | firstColumn :: _ => Z.of_nat (length firstColumn)
  end.

(** [isInside(x, y)]; every caller below passes integer coordinates. *)
Definition isInside (f : t) (x y : Z) : bool :=
  (0 <=? x) && (x <=? dimX f - 1) && (0 <=? y) && (y <=? dimY f - 1).

(** [get(x, y)] is [values[y][x]].  The source leaves it to its callers to
    stay inside the grid; outside, this model reads [0]. *)
Definition get (f : t) (x y : Z) : Q :=
  nth (Z.to_nat x) (nth (Z.to_nat y) f []) 0%Q.

(** [set(x, y, value)] is [values[y][x] = value], for a cell of the
    grid (outside, this model leaves the grid as it is). *)
Definition set (f : t) (x y : Z) (value : Q) : t :=
  if isInside f x y
  then update (Z.to_nat y) (update (Z.to_nat x) (fun _ => value)) f
  else f.

(** The grids that the constructor builds and [set] maintains: every
    row has [dimX] entries. *)
Definition rect (f : t) : Prop :=
  Forall (fun row => Z.of_nat (length row) = dimX f) f.

(** The cells of the grid, row by row. *)
Definition cells (f : t) : list Cell :=
  flat_map (fun y => map (fun x => (x, y)) (zrange 0 (dimX f - 1)))
           (zrange 0 (dimY f - 1)).

(** [const minDistanceSq = 1 / 1024 / 1024], which keeps the values of
    the merges finite at the centre of a primitive. *)
Definition minDistanceSq : Q := (1 / 1024 / 1024)%Q.

(** [getDistanceSq] and [getDistanceSqToSegment], in exact arithmetic:
    the source rounds each difference, product, sum and quotient, so
    that its results can differ from these in the last digits. *)
Definition getDistanceSq (x1 y1 x2 y2 : Q) : Q :=
  let deltaX := (x2 - x1)%Q in
  let deltaY := (y2 - y1)%Q in
  (deltaX * deltaX + deltaY * deltaY)%Q.

Definition getDistanceSqToSegment (x y x1 y1 x2 y2 : Q) : Q :=
  let length2 := getDistanceSq x1 y1 x2 y2 in
  if Qeq_bool length2 0 then getDistanceSq x y x1 y1
  else
    let t :=
      Qmax 0 (Qmin 1 (((x - x1) * (x2 - x1) + (y - y1) * (y2 - y1)) / length2))%Q in
    getDistanceSq x y (x1 + t * (x2 - x1))%Q (y1 + t * (y2 - y1))%Q.

(** The two nested [for] loops of the merges, [y] outside and [x]
    inside, both bounds included; [body x y] is what is stored in
    [values[y][x]], computed from the grid as it is at that time. *)
Definition forEachCell (minX maxX minY maxY : Z)
           (body : Z -> Z -> t -> Q) (f : t) : t :=
  fold_left
    (fun f y => fold_left (fun f x => set f x y (body x y f)) (zrange minX maxX) f)
    (zrange minY maxY) f.

(** The cells that [forEachCell] visits, in the order of its loops. *)
Definition window (minX maxX minY maxY : Z) : list Cell :=
  flat_map (fun y => map (fun x => (x, y)) (zrange minX maxX)) (zrange minY maxY).

(** [mergeDisk], [mergeSegment] and [mergeHill] below.  The capping
    radius, the sides of the scan rectangle and the merged value are
    exact: the source rounds the product and the sums before
    [Math.floor] and [Math.ceil], and rounds the merged value. *)
Definition mergeDisk (f : t) (centerX centerY radius cappingRadiusRatio : Q)
           (operation : Q -> Q -> Q) : t :=
  let cappingRadius := (cappingRadiusRatio * radius)%Q in
  let minX := Z.max 0 (Qfloor (centerX - cappingRadius)%Q) in
  let minY := Z.max 0 (Qfloor (centerY - cappingRadius)%Q) in
  let maxX := Z.min (dimX f - 1) (Qceiling (centerX + cappingRadius)%Q) in
  let maxY := Z.min (dimY f - 1) (Qceiling (centerY + cappingRadius)%Q) in
  let radiusSq := (radius * radius)%Q in
  forEachCell minX maxX minY maxY
    (fun x y f =>
       let distanceSq :=
         Qmax minDistanceSq
              (getDistanceSq (inject_Z x) (inject_Z y) centerX centerY) in
       operation (get f x y) (radiusSq / distanceSq)%Q)
    f.

Definition mergeSegment (f : t) (startX startY endX endY : Q)
           (thickness cappingRadiusRatio : Q) (operation : Q -> Q -> Q) : t :=
  let cappingRadius := (cappingRadiusRatio * thickness)%Q in
  let minX := Z.max 0 (Qfloor (Qmin startX endX - cappingRadius)%Q) in
  let minY := Z.max 0 (Qfloor (Qmin startY endY - cappingRadius)%Q) in
  let maxX := Z.min (dimX f - 1) (Qceiling (Qmax startX endX + cappingRadius)%Q) in
  let maxY := Z.min (dimY f - 1) (Qceiling (Qmax startY endY + cappingRadius)%Q) in
  let thicknessSq := (thickness * thickness)%Q in
  forEachCell minX maxX minY maxY
    (fun x y f =>
       let distanceSq :=
         Qmax minDistanceSq
              (getDistanceSqToSegment (inject_Z x) (inject_Z y)
                                      startX startY endX endY) in
       operation (get f x y) (thicknessSq / distanceSq)%Q)
    f.

Section Extrapolate.

(** [Math.hypot], the Euclidean norm of [(dx, dy)]: a square root,
    which the rationals do not have, so that [extrapolate] takes it as
    a parameter. *)
Variable hypot : Q -> Q -> Q.

(** The body of the two loops over the four vertices of the cell: the
    value returned at once on a vertex, or the two sums, which are
    exact here and rounded in the source. *)
Definition extrapolateVertex (f : t) (x y : Q) (acc : Q + Q * Q) (vertex : Cell)
  : Q + Q * Q :=
  match acc with
  | inl value => inl value
  | inr (weighedValueSum, weightSum) =>
      let '(vertexX, vertexY) := vertex in
      let value := get f vertexX vertexY in
      let dx := (inject_Z vertexX - x)%Q in
      let dy := (inject_Z vertexY - y)%Q in
      if Qeq_bool dx 0 && Qeq_bool dy 0 then inl value
      else
        let distance := hypot dx dy in
        inr ((weighedValueSum + value / distance)%Q, (weightSum + 1 / distance)%Q)
  end.

Definition extrapolate (f : t) (x y : Q) : Q :=
  let squareX := Qfloor x in
  let squareY := Qfloor y in
  if (squareX <? 0) || (squareY <? 0)
     || (squareX >=? dimX f - 1) || (squareY >=? dimY f - 1)
  then 0%Q
  else
    match
      fold_left (extrapolateVertex f x y)
                (flat_map (fun vertexX => map (fun vertexY => (vertexX, vertexY))
                                              (zrange squareY (squareY + 1)))
                          (zrange squareX (squareX + 1)))
                (inr (0%Q, 0%Q))
    with
    | inl value => value
    | inr (weighedValueSum, weightSum) => (weighedValueSum / weightSum)%Q
    end.

End Extrapolate.

(** [clear(value)]: every entry of every row is overwritten. *)
Definition clear (f : t) (value : Q) : t :=
  map (map (fun _ => value)) f.

(** [clamp(min, max)]: [Math.min(Math.max(min, v), max)] on every
    entry. *)
Definition clamp (f : t) (min max : Q) : t :=
  map (map (fun v => Qmin (Qmax min v) max)) f.

(** [transform(a, b)]: [a * v + b] on every entry, in exact
    arithmetic. *)
Definition transform (f : t) (a b : Q) : t :=
  map (map (fun v => (a * v + b)%Q)) f.

(** [mergeField(scalarField, operation)], over the rows and columns that
    both grids have.  Each cell of [other] is read when the cell of the
    same place is written, not before, as in the source. *)
Definition mergeField (f other : t) (operation : Q -> Q -> Q) : t :=
  let dimX := Z.min (dimX f) (dimX other) in
  let dimY := Z.min (dimY f) (dimY other) in
  forEachCell 0 (dimX - 1) 0 (dimY - 1)
    (fun x y f => operation (get f x y) (get other x y))
    f.

Section Hill.

(** [Math.exp] and [Math.log], which the rationals do not have:
    [mergeHill] takes them as parameters.  With a radius of [0] the
    quotient [log height / (radius * radius)] is [0] here and an
    infinity or [NaN] in the source. *)
Variable exp : Q -> Q.
Variable log : Q -> Q.

Definition mergeHill (f : t) (centerX centerY height radius opacity : Q)
           (cappingRadiusRatio : Q) (operation : Q -> Q -> Q) : t :=
  let cappingRadius := (cappingRadiusRatio * radius)%Q in
  let minX := Z.max 0 (Qfloor (centerX - cappingRadius)%Q) in
  let minY := Z.max 0 (Qfloor (centerY - cappingRadius)%Q) in
  let maxX := Z.min (dimX f - 1) (Qceiling (centerX + cappingRadius)%Q) in
  let maxY := Z.min (dimY f - 1) (Qceiling (centerY + cappingRadius)%Q) in
  let logHeightDividedByRadiusSq := (log height / (radius * radius))%Q in
  let opacityMultipliedByHeight := (opacity * height)%Q in
  forEachCell minX maxX minY maxY
    (fun x y f =>
       let distanceSq :=
         Qmax minDistanceSq
              (getDistanceSq (inject_Z x) (inject_Z y) centerX centerY) in
       operation (get f x y)
                 (opacityMultipliedByHeight
                  * exp (- distanceSq * logHeightDividedByRadiusSq))%Q)
    f.

End Hill.

End ScalarField.

Import ScalarField.

(** ** FloodFill *)

Module FloodFill.

Definition deltas : list (Z * Z) := [(-1, 0); (1, 0); (0, -1); (0, 1)].

(** [type Node = { x, y }]. *)
Definition Node : Type := Cell.

(** A node of the wavefront.  Its origin is typed [float] in the source
    and is always a cell of the grid: the cell of the flood that the
    wavefront left from. *)
Record ContourNode : Type := mkContourNode {
  x : Z;
  y : Z;
  originX : Z;
  originY : Z;
  value : Q
}.

(** [(fieldValue, distanceSq) => number | null]. *)
Definition GetContourValue : Type := Q -> Q -> option Q.

(** [max(minDistanceSq, deltaX * deltaX + deltaY * deltaY)] between two
    cells. *)
Definition contourDistanceSq (nodeX nodeY originX originY : Z) : Q :=
  let deltaX := nodeX - originX in
  let deltaY := nodeY - originY in
  Qmax minDistanceSq (inject_Z (deltaX * deltaX + deltaY * deltaY)).

(** [checkAnAddContourNode] on the grid and [nextContourStack] (a stack is
    a list whose head is the top: [push] conses, [pop] takes the head). *)
Definition checkAnAddContourNode (getContourValue : GetContourValue)
           (f : t) (nextContourStack : list ContourNode)
           (nodeX nodeY originX originY : Z) : t * list ContourNode :=
  if negb (isInside f nodeX nodeY) then (f, nextContourStack)
  else
    let distanceSq := contourDistanceSq nodeX nodeY originX originY in
    match getContourValue (get f nodeX nodeY) distanceSq with
    | Some value =>
        (set f nodeX nodeY value,
         mkContourNode nodeX nodeY originX originY value :: nextContourStack)
    | None => (f, nextContourStack)
    end.

Section Flood.

Variable canFlood : Q -> bool.
Variable fillingValue : Q.
Variable getContourValue : GetContourValue.

(** One turn of [for (const delta of deltas)] in [floodFrom], around
    the cell [(x, y)] taken from the flood stack. *)
Definition floodNeighbor (x y : Z)
           (state : t * list Node * list ContourNode) (delta : Z * Z)
  : t * list Node * list ContourNode :=
  let '(f, floodStack, nextContourStack) := state in
  let neighborX := x + fst delta in
  let neighborY := y + snd delta in
  if negb (isInside f neighborX neighborY) then state
  else
    let fieldValue := get f neighborX neighborY in
    if canFlood fieldValue
    then (f, (neighborX, neighborY) :: floodStack, nextContourStack)
    else
      let '(f', nextContourStack') :=
        checkAnAddContourNode getContourValue f nextContourStack
                              neighborX neighborY x y in
      (f', floodStack, nextContourStack').

(** The body of [while (this.floodStack.length > 0)], after the
    [pop]. *)
Definition floodNode (f : t) (node : Node) (floodStack : list Node)
           (nextContourStack : list ContourNode)
  : t * list Node * list ContourNode :=
  let '(x, y) := node in
  fold_left (floodNeighbor x y) deltas
            (set f x y fillingValue, floodStack, nextContourStack).

(** [while (this.floodStack.length > 0)]: [None] when the loop is
    still running after [fuel] turns. *)
Fixpoint floodLoop (fuel : nat) (f : t) (floodStack : list Node)
         (nextContourStack : list ContourNode) : option (t * list ContourNode) :=
  match floodStack with
  | [] => Some (f, nextContourStack)
  | node :: floodStack' =>
      match fuel with
      | O => None
      | S fuel' =>
          let '(f', floodStack'', nextContourStack') :=
            floodNode f node floodStack' nextContourStack in
          floodLoop fuel' f' floodStack'' nextContourStack'
      end
  end.

(** [Math.round]: the nearest integer, a half going up. *)
Definition round (a : Q) : Z := Qfloor (a + (1 # 2))%Q.

(** [floodFrom]: the three stacks are emptied first; the result is the
    grid and [nextContourStack]. *)
Definition floodFrom (fuel : nat) (f : t) (originX originY : Q)
  : option (t * list ContourNode) :=
  let x := round originX in
  let y := round originY in
  if negb (isInside f x y) then Some (f, [])
  else
    let fieldValue := get f x y in
    floodLoop fuel f (if canFlood fieldValue then [(x, y)] else []) [].

(** One turn of [for (const delta of deltas)] in [shadeContour],
    around [node]. *)
Definition shadeNeighbor (node : ContourNode)
           (state : t * list ContourNode) (delta : Z * Z)
  : t * list ContourNode :=
  let '(f, nextContourStack) := state in
  let neighborX := x node + fst delta in
  let neighborY := y node + snd delta in
  checkAnAddContourNode getContourValue f nextContourStack
                        neighborX neighborY (originX node) (originY node).

(** The body of the inner [while] of [shadeContour], after the
    [pop]. *)
Definition shadeNode (state : t * list ContourNode) (node : ContourNode)
  : t * list ContourNode :=
  let '(f, nextContourStack) := state in
  if Qltb (value node) (get f (x node) (y node)) then state
  else fold_left (shadeNeighbor node) deltas state.

(** The outer [while] of [shadeContour]: the inner one empties
    [contourStack] from its top into a [nextContourStack] that starts
    empty, and the two are swapped. *)
Fixpoint shadeLoop (fuel : nat) (f : t) (contourStack : list ContourNode)
  : option t :=
  match contourStack with
  | [] => Some f
  | _ :: _ =>
      match fuel with
      | O => None
      | S fuel' =>
          let '(f', nextContourStack) :=
            fold_left shadeNode contourStack (f, []) in
          shadeLoop fuel' f' nextContourStack
      end
  end.

(** [shadeContour], called with [contourStack] empty, as [floodFrom]
    leaves it: the first swap brings [nextContourStack] in its place. *)
Definition shadeContour (fuel : nat) (f : t) (nextContourStack : list ContourNode)
  : option t :=
  shadeLoop fuel f nextContourStack.

(** [floodFrom] then [shadeContour], as [fillFrom] and [unfillFrom]
    chain them. *)
Definition floodAndShade (fuel : nat) (f : t) (originX originY : Q) : option t :=
  match floodFrom fuel f originX originY with
  | Some (f', nextContourStack) => shadeContour fuel f' nextContourStack
  | None => None
  end.

End Flood.

Definition fillFillingValue (valueMax thickness : Q) : Q :=
  let thicknessSq := (thickness * thickness)%Q in
  Qmax valueMax (thicknessSq * 1024 * 1024)%Q.

(** The closure [getContourValue] of [fillFrom]; [thicknessSq],
    [cappingRadiusSq] and the quotient are exact here and rounded in the
    source. *)
Definition fillContourValue (thickness cappingRadiusRatio : Q) : GetContourValue :=
  let thicknessSq := (thickness * thickness)%Q in
  let cappingRadius := (cappingRadiusRatio * thickness)%Q in
  let cappingRadiusSq := (cappingRadius * cappingRadius)%Q in
  fun fieldValue distanceSq =>
    let value := (thicknessSq / distanceSq)%Q in
    if Qltb fieldValue value && Qltb distanceSq cappingRadiusSq
    then Some value else None.

Definition fillFrom (fuel : nat) (f : t)
           (originX originY valueMax thickness cappingRadiusRatio : Q) : option t :=
  floodAndShade (fun fieldValue => Qltb fieldValue valueMax)
                (fillFillingValue valueMax thickness)
                (fillContourValue thickness cappingRadiusRatio)
                fuel f originX originY.

(** The closure [getContourValue] of [unfillFrom], likewise. *)
Definition unfillContourValue (thickness cappingRadiusRatio : Q) : GetContourValue :=
  let thicknessSq := (thickness * thickness)%Q in
  let cappingRadius := (cappingRadiusRatio * thickness)%Q in
  let cappingRadiusSq := (cappingRadius * cappingRadius)%Q in
  fun fieldValue distanceSq =>
    let value := (distanceSq / thicknessSq)%Q in
    if Qltb value fieldValue && Qltb distanceSq cappingRadiusSq
    then Some value else None.

Definition unfillFrom (fuel : nat) (f : t)
           (originX originY valueMin thickness cappingRadiusRatio : Q) : option t :=
  floodAndShade (fun fieldValue => Qltb valueMin fieldValue)
                0%Q
                (unfillContourValue thickness cappingRadiusRatio)
                fuel f originX originY.

End FloodFill.

Import FloodFill.

(** ** The flood: regions, writes and measures *)

Definition getCell (f : t) (c : Cell) : Q := get f (fst c) (snd c).

Definition insideCell (f : t) (c : Cell) : bool := isInside f (fst c) (snd c).

(** The cell next to [c] in the direction [delta]. *)
Definition neighbor (c : Cell) (delta : Z * Z) : Cell :=
  (fst c + fst delta, snd c + snd delta).

(** The cells of the grid that are 4-connected to [origin] through cells
    that can be flooded, [origin] included. *)
Inductive reachable (canFlood : Q -> bool) (f : t) (origin : Cell) : Cell -> Prop :=
| reachable_origin :
    insideCell f origin = true -> canFlood (getCell f origin) = true ->
    reachable canFlood f origin origin
| reachable_step c delta :
    reachable canFlood f origin c -> In delta deltas ->
    insideCell f (neighbor c delta) = true ->
    canFlood (getCell f (neighbor c delta)) = true ->
    reachable canFlood f origin (neighbor c delta).

(** [shaded getContourValue P f f']: the grid [f'] comes from [f] by
    writes of [checkAnAddContourNode], each on a cell of the grid whose
    value satisfied [P] and was accepted by [getContourValue]. *)
Inductive shaded (getContourValue : GetContourValue) (P : Q -> Prop) : t -> t -> Prop :=
| shaded_refl f : shaded getContourValue P f f
| shaded_step f x y originX originY value f' :
    isInside f x y = true -> P (get f x y) ->
    getContourValue (get f x y) (contourDistanceSq x y originX originY) = Some value ->
    shaded getContourValue P (set f x y value) f' ->
    shaded getContourValue P f f'.

(** The number of cells that can be flooded. *)
Definition floodable (canFlood : Q -> bool) (f : t) : nat :=
  length (filter (fun c => canFlood (getCell f c)) (cells f)).

(** Whether the top of the flood stack is a cell that cannot be flooded
    any more. *)
Definition staleTop (canFlood : Q -> bool) (f : t) (floodStack : list Node) : nat :=
  match floodStack with
  | [] => 0
  | c :: _ => if canFlood (getCell f c) then 0 else 1
  end.

(** The variant of the flood loop. *)
Definition floodMeasure (canFlood : Q -> bool) (f : t) (floodStack : list Node) : nat :=
  8 * floodable canFlood f + 4 * staleTop canFlood f floodStack + length floodStack.

(** Whether the cell [fst p] would accept a contour value from the seed
    [snd p]. *)
Definition admits (getContourValue : GetContourValue) (f : t) (p : Cell * Cell) : bool :=
  match getContourValue (getCell f (fst p))
                        (contourDistanceSq (fst (fst p)) (snd (fst p))
                                           (fst (snd p)) (snd (snd p))) with
  | Some _ => true
  | None => false
  end.

(** The variant of the shading: the number of pairs of a cell and a seed
    that the cell would accept. *)
Definition admissible (getContourValue : GetContourValue) (f : t) : nat :=
  length (filter (admits getContourValue f) (list_prod (cells f) (cells f))).

(** A number of turns that is enough for both loops of [fillFrom]. *)
Definition fuelFor (f : t) : nat :=
  let n := length (cells f) in 8 * n + 5 + n * n.

(** The seed of a node of the wavefront is a cell of the grid. *)
Definition originInside (f : t) (node : ContourNode) : Prop :=
  isInside f (originX node) (originY node) = true.

(** The state of the flood loop is well formed with respect to the
    grid [f0] it started from: the grid has kept its shape, the flood
    stack holds cells of the grid and the wavefront holds nodes whose
    seed is a cell of the grid. *)
Definition floodState (f0 f : t) (floodStack : list Node) (stack : list ContourNode)
  : Prop :=
  rect f /\ dimX f = dimX f0 /\ dimY f = dimY f0
  /\ Forall (fun c => insideCell f c = true) floodStack
  /\ Forall (originInside f) stack.

(** ** MarchingSquares *)

Module MarchingSquares.

Definition South : Z := 0.
Definition East : Z := 1.
Definition North : Z := 2.
Definition West : Z := 3.
Definition SouthWest : Z := 4.
Definition SouthEast : Z := 5.
Definition NorthEast : Z := 6.
Definition NorthWest : Z := 7.

Definition SouthWestMask : Z := 1.
Definition SouthEastMask : Z := 2.
Definition NorthEastMask : Z := 4.
Definition NorthWestMask : Z := 8.

Definition marchingSquaresFillVertices : list (list Z) :=
  [ [];
    [South; West; SouthWest];
    [East; South; SouthEast];
    [East; West; SouthWest; SouthEast];

    [North; East; NorthEast];
    [South; SouthWest; West; North; NorthEast; East];
    [South; North; NorthEast; SouthEast];
    [West; North; NorthEast; SouthEast; SouthWest];

    [West; North; NorthWest];
    [North; South; SouthWest; NorthWest];
    [South; West; NorthWest; North; East; SouthEast];
    [North; East; SouthEast; SouthWest; NorthWest];

    [East; West; NorthWest; NorthEast];
    [East; South; SouthWest; NorthWest; NorthEast];
    [South; West; NorthWest; NorthEast; SouthEast];
    [] ].

(** The calls received by the [ShapePainter], in the order they are
    made. *)
Inductive PainterCall : Type :=
| drawRectangle (left top right bottom : Q)
| beginPath (x y : Q)
| lineTo (x y : Q)
| closePath
| endPath (squareX squareY : Z)
| onFilledSquareChange (squareX squareY : Z).

Definition getSquareIndex (f : t) (x y : Z) (threshold : Q) : Z :=
  let squareIndex := 0 in
  let squareIndex :=
    if Qltb threshold (get f x (y + 1))
    then Z.lor squareIndex SouthWestMask else squareIndex in
  let squareIndex :=
    if Qltb threshold (get f (x + 1) (y + 1))
    then Z.lor squareIndex SouthEastMask else squareIndex in
  let squareIndex :=
    if Qltb threshold (get f (x + 1) y)
    then Z.lor squareIndex NorthEastMask else squareIndex in
  let squareIndex :=
    if Qltb threshold (get f x y)
    then Z.lor squareIndex NorthWestMask else squareIndex in
  squareIndex.

(** [betweenX] and [betweenY]: the mean of the two corners, each
    weighted by the distance of the other one to the threshold, in exact
    arithmetic; the quotient of the source is rounded. *)
Definition betweenX (f : t) (indexX1 indexY1 indexX2 indexY2 : Z) (threshold : Q) : Q :=
  let value1 := get f indexX1 indexY1 in
  let value2 := get f indexX2 indexY2 in
  let weight1 := Qabs (value1 - threshold) in
  let weight2 := Qabs (value2 - threshold) in
  ((weight2 * inject_Z indexX1 + weight1 * inject_Z indexX2) / (weight1 + weight2))%Q.

Definition betweenY (f : t) (indexX1 indexY1 indexX2 indexY2 : Z) (threshold : Q) : Q :=
  let value1 := get f indexX1 indexY1 in
  let value2 := get f indexX2 indexY2 in
  let weight1 := Qabs (value1 - threshold) in
  let weight2 := Qabs (value2 - threshold) in
  ((weight2 * inject_Z indexY1 + weight1 * inject_Z indexY2) / (weight1 + weight2))%Q.

(** [calcPoint]; the result is the point written in [point].  A [side]
    that is none of the eight markers leaves [(0, 0)]. *)
Definition calcPoint (f : t) (side indexX indexY : Z) (threshold : Q) : Q * Q :=
  if side =? South then
    let gridY := indexY + 1 in
    (betweenX f indexX gridY (indexX + 1) gridY threshold, inject_Z gridY)
  else if side =? East then
    let gridX := indexX + 1 in
    (inject_Z gridX, betweenY f gridX indexY gridX (indexY + 1) threshold)
  else if side =? North then
    let gridY := indexY in
    (betweenX f indexX gridY (indexX + 1) gridY threshold, inject_Z gridY)
  else if side =? West then
    let gridX := indexX in
    (inject_Z gridX, betweenY f gridX indexY gridX (indexY + 1) threshold)
  else if side =? SouthWest then (inject_Z indexX, inject_Z (indexY + 1))
  else if side =? SouthEast then (inject_Z (indexX + 1), inject_Z (indexY + 1))
  else if side =? NorthEast then (inject_Z (indexX + 1), inject_Z indexY)
  else if side =? NorthWest then (inject_Z indexX, inject_Z indexY)
  else (0%Q, 0%Q).

(** The polygon of a square: [beginPath] at the first vertex ([-1]
    stands for the [undefined] that an empty list gives), [lineTo] the
    others, [closePath], [endPath]. *)
Definition fillPolygon (f : t) (squareX squareY : Z) (threshold : Q)
           (fillVertices : list Z) : list PainterCall :=
  let point := calcPoint f (nth 0 fillVertices (-1)) squareX squareY threshold in
  beginPath (fst point) (snd point)
  :: map (fun side =>
            let point := calcPoint f side squareX squareY threshold in
            lineTo (fst point) (snd point))
         (tl fillVertices)
  ++ [closePath; endPath squareX squareY].

Section Scan.

(** [this.getSquareIndex], a method of the object: the scan is written
    over it, and [fillContour] below is the scan of a
    [MarchingSquares] whose method is [getSquareIndex]. *)
Variable classify : Z -> Z -> Q -> Z.

(** The case of a square as the scan uses it: the index of the
    square, taken from [15] when [drawUnder] is set. *)
Definition squareCaseWith (squareX squareY : Z) (threshold : Q)
           (drawUnder : bool) : Z :=
  let squareIndex := classify squareX squareY threshold in
  if drawUnder then 15 - squareIndex else squareIndex.

(** The body of the loop on [squareX] in [fillContour]; the state is
    [first15SquareX] and the calls made so far. *)
Definition fillSquareWith (f : t) (squareY maxX : Z) (threshold : Q)
           (drawUnder : bool)
           (state : Z * list PainterCall) (squareX : Z) : Z * list PainterCall :=
  let '(first15SquareX, calls) := state in
  let calls := calls ++ [onFilledSquareChange squareX squareY] in
  let squareIndex := classify squareX squareY threshold in
  let squareIndex := if drawUnder then 15 - squareIndex else squareIndex in
  let first15SquareX :=
    if (first15SquareX =? -1) && (squareIndex =? 15)
    then squareX else first15SquareX in
  let '(first15SquareX, calls) :=
    if negb (first15SquareX =? -1) then
      if negb (squareIndex =? 15) then
        (-1,
         calls ++ [drawRectangle (inject_Z first15SquareX) (inject_Z squareY)
                                 (inject_Z squareX) (inject_Z (squareY + 1))])
      else if squareX =? maxX - 2 then
        (-1,
         calls ++ [drawRectangle (inject_Z first15SquareX) (inject_Z squareY)
                                 (inject_Z (squareX + 1)) (inject_Z (squareY + 1))])
      else (first15SquareX, calls)
    else (first15SquareX, calls) in
  let calls :=
    if negb (squareIndex =? 0) && negb (squareIndex =? 15) then
      let fillVertices :=
        nth (Z.to_nat squareIndex) marchingSquaresFillVertices [] in
      calls ++ fillPolygon f squareX squareY threshold fillVertices
    else calls in
  (first15SquareX, calls).

(** One row of [fillContour]: [first15SquareX] starts at [-1]. *)
Definition fillRowWith (f : t) (minX maxX : Z) (threshold : Q) (drawUnder : bool)
           (squareY : Z) : list PainterCall :=
  snd (fold_left (fillSquareWith f squareY maxX threshold drawUnder)
                 (zrange minX (maxX - 2)) (-1, [])).

Definition fillContourWith (f : t) (minX minY maxX maxY : Z) (threshold : Q)
           (drawUnder : bool) : list PainterCall :=
  flat_map (fillRowWith f minX maxX threshold drawUnder) (zrange minY (maxY - 2)).

End Scan.

Definition squareCase (f : t) : Z -> Z -> Q -> bool -> Z :=
  squareCaseWith (getSquareIndex f).

Definition fillContour (f : t) (minX minY maxX maxY : Z) (threshold : Q)
           (drawUnder : bool) : list PainterCall :=
  fillContourWith (getSquareIndex f) f minX minY maxX maxY threshold drawUnder.

Definition marchingSquaresOutlineVertices : list (list (list Z)) :=
  [ [ [] ];
    [ [South; West] ];
    [ [East; South] ];
    [ [East; West] ];

    [ [North; East] ];
    [ [East; South]; [West; North] ];
    [ [South; North] ];
    [ [West; North] ];

    [ [West; North] ];
    [ [North; South] ];
    [ [South; West]; [North; East] ];
    [ [North; East] ];

    [ [East; West] ];
    [ [East; South] ];
    [ [South; West] ];
    [ [] ] ].

(** One line of a square in [outlineContour]: [beginPath] at the first
    vertex, [lineTo] the others, [endPath]; the path is left open. *)
Definition outlinePath (f : t) (squareX squareY : Z) (threshold : Q)
           (outlineVertices : list Z) : list PainterCall :=
  let point := calcPoint f (nth 0 outlineVertices (-1)) squareX squareY threshold in
  beginPath (fst point) (snd point)
  :: map (fun side =>
            let point := calcPoint f side squareX squareY threshold in
            lineTo (fst point) (snd point))
         (tl outlineVertices)
  ++ [endPath squareX squareY].

(** The body of the loop on [squareX] in [outlineContour]. *)
Definition outlineSquare (f : t) (threshold : Q) (drawUnder : bool)
           (squareY squareX : Z) : list PainterCall :=
  let squareIndex := getSquareIndex f squareX squareY threshold in
  let squareIndex := if drawUnder then 15 - squareIndex else squareIndex in
  if negb (squareIndex =? 0) && negb (squareIndex =? 15) then
    flat_map (outlinePath f squareX squareY threshold)
             (nth (Z.to_nat squareIndex) marchingSquaresOutlineVertices [])
  else [].

Definition outlineContour (f : t) (minX minY maxX maxY : Z) (threshold : Q)
           (drawUnder : bool) : list PainterCall :=
  flat_map (fun squareY =>
              flat_map (outlineSquare f threshold drawUnder squareY)
                       (zrange minX (maxX - 2)))
           (zrange minY (maxY - 2)).

(** The calls that draw: all but the notifications
    [onFilledSquareChange]. *)
Definition isGeometry (call : PainterCall) : bool :=
  match call with
  | onFilledSquareChange _ _ => false
  | _ => true
  end.

(** Whether a call stays within the vertices [minX .. maxX - 1] by
    [minY .. maxY - 1] of a scan: the points of the paths and the
    corners of the rectangles are among them, a rectangle is not
    flat, and the squares that are named are squares of the scan. *)
Definition insideScan (minX minY maxX maxY : Z) (call : PainterCall) : Prop :=
  match call with
  | drawRectangle x1 y1 x2 y2 =>
      (inject_Z minX <= x1)%Q /\ (x1 < x2)%Q /\ (x2 <= inject_Z (maxX - 1))%Q
      /\ (inject_Z minY <= y1)%Q /\ (y1 < y2)%Q /\ (y2 <= inject_Z (maxY - 1))%Q
  | beginPath x y | lineTo x y =>
      (inject_Z minX <= x)%Q /\ (x <= inject_Z (maxX - 1))%Q
      /\ (inject_Z minY <= y)%Q /\ (y <= inject_Z (maxY - 1))%Q
  | closePath => True
  | endPath squareX squareY | onFilledSquareChange squareX squareY =>
      minX <= squareX <= maxX - 2 /\ minY <= squareY <= maxY - 2
  end.

(** Whether a point is in the square [(squareX, squareY)], sides
    included. *)
Definition insideSquare (squareX squareY : Z) (point : Q * Q) : Prop :=
  (inject_Z squareX <= fst point)%Q /\ (fst point <= inject_Z (squareX + 1))%Q
  /\ (inject_Z squareY <= snd point)%Q /\ (snd point <= inject_Z (squareY + 1))%Q.

(** Whether the threshold passes between the two corners of a side of
    the square [(x, y)], for the four sides; the corners themselves
    have no such condition. *)
Definition crossed (f : t) (x y : Z) (threshold : Q) (side : Z) : Prop :=
  (side = South ->
   Qltb threshold (get f x (y + 1)) <> Qltb threshold (get f (x + 1) (y + 1)))
  /\ (side = East ->
      Qltb threshold (get f (x + 1) y) <> Qltb threshold (get f (x + 1) (y + 1)))
  /\ (side = North ->
      Qltb threshold (get f x y) <> Qltb threshold (get f (x + 1) y))
  /\ (side = West ->
      Qltb threshold (get f x y) <> Qltb threshold (get f x (y + 1))).

(** Whether a call draws a rectangle that contains the square
    [(squareX, squareY)]. *)
Definition coversSquare (squareX squareY : Z) (call : PainterCall) : Prop :=
  match call with
  | drawRectangle x1 y1 x2 y2 =>
      (x1 <= inject_Z squareX)%Q /\ (inject_Z (squareX + 1) <= x2)%Q
      /\ (y1 <= inject_Z squareY)%Q /\ (inject_Z (squareY + 1) <= y2)%Q
  | _ => False
  end.

(** The state of the loop on [squareX] in [fillContour], before the
    square [k] of the row [squareY]: a run that is open started in the
    row and holds squares of case 15 only, no run is left open after
    the last square, and the rectangles drawn contain the squares of
    case 15 before [k] but those of the open run, and no other
    square. *)
Definition coverState (f : t) (threshold : Q) (drawUnder : bool)
           (minX maxX squareY k : Z) (state : Z * list PainterCall) : Prop :=
  let first15SquareX := fst state in
  (first15SquareX = -1 \/ minX <= first15SquareX < k)
  /\ (minX < k -> k = maxX - 1 -> first15SquareX = -1)
  /\ (forall x, first15SquareX <> -1 -> first15SquareX <= x < k ->
                squareCase f x squareY threshold drawUnder = 15)
  /\ (forall x y,
         Exists (coversSquare x y) (snd state)
         <-> y = squareY /\ minX <= x < k
             /\ squareCase f x squareY threshold drawUnder = 15
             /\ (first15SquareX = -1 \/ x < first15SquareX)).


(** The calls of an outline: [beginPath], [lineTo] and [endPath]. *)
Definition isOutlineCall (call : PainterCall) : bool :=
  match call with
  | beginPath _ _ | lineTo _ _ | endPath _ _ => true
  | _ => false
  end.

End MarchingSquares.

Import MarchingSquares.

(** ** CoordConverter *)

Module CoordConverter.

(** The converter between a surface and a grid; the sizes of a cell are
    typed [integer]. *)
Record t : Type := mk {
  cellWidth : Z;
  cellHeight : Z;
  left : Q;
  top : Q;
  right : Q;
  bottom : Q
}.

(** The five conversions, in exact arithmetic: the source rounds the
    difference and the quotient, the product and the sum.  With a cell
    size of [0] the quotients are [0] here and an infinity or [NaN] in
    the source. *)
Definition convertToGridBasisX (c : t) (x : Q) : Q :=
  ((x - left c) / inject_Z (cellWidth c))%Q.

Definition convertToGridBasisY (c : t) (y : Q) : Q :=
  ((y - top c) / inject_Z (cellHeight c))%Q.

Definition convertFromGridBasisX (c : t) (x : Q) : Q :=
  (x * inject_Z (cellWidth c) + left c)%Q.

Definition convertFromGridBasisY (c : t) (y : Q) : Q :=
  (y * inject_Z (cellHeight c) + top c)%Q.

Definition convertToGridBasisDistance (c : t) (distance : Q) : Q :=
  (distance / inject_Z (cellWidth c))%Q.

End CoordConverter.

(** ** ScaledShapePainter *)

Module ScaledShapePainter.

(** The call that a [ScaledShapePainter] makes on its [shapePainter]
    for a call it receives: the points go from the grid basis to the
    scene basis, the squares are passed as they are. *)
Definition forwarded (coordConverter : CoordConverter.t) (call : PainterCall)
  : PainterCall :=
  match call with
  | drawRectangle x1 y1 x2 y2 =>
      drawRectangle (CoordConverter.convertFromGridBasisX coordConverter x1)
                    (CoordConverter.convertFromGridBasisY coordConverter y1)
                    (CoordConverter.convertFromGridBasisX coordConverter x2)
                    (CoordConverter.convertFromGridBasisY coordConverter y2)
  | beginPath x y =>
      beginPath (CoordConverter.convertFromGridBasisX coordConverter x)
                (CoordConverter.convertFromGridBasisY coordConverter y)
  | lineTo x y =>
      lineTo (CoordConverter.convertFromGridBasisX coordConverter x)
             (CoordConverter.convertFromGridBasisY coordConverter y)
  | closePath => closePath
  | endPath squareX squareY => endPath squareX squareY
  | onFilledSquareChange squareX squareY => onFilledSquareChange squareX squareY
  end.

(** Whether what a call draws is within the rectangle from [(x1, y1)]
    to [(x2, y2)] of the scene; a rectangle that is drawn is not
    flat. *)
Definition insideRectangle (x1 y1 x2 y2 : Q) (call : PainterCall) : Prop :=
  match call with
  | drawRectangle rx1 ry1 rx2 ry2 =>
      (x1 <= rx1)%Q /\ (rx1 < rx2)%Q /\ (rx2 <= x2)%Q
      /\ (y1 <= ry1)%Q /\ (ry1 < ry2)%Q /\ (ry2 <= y2)%Q
  | beginPath x y | lineTo x y =>
      (x1 <= x)%Q /\ (x <= x2)%Q /\ (y1 <= y)%Q /\ (y <= y2)%Q
  | _ => True
  end.

End ScaledShapePainter.

(** ** HeightMap *)

Module HeightMap.

Record t : Type := mk {
  scalarField : ScalarField.t;
  coordConverter : CoordConverter.t
}.

Section Height.

Variable hypot : Q -> Q -> Q.

(** [getHeight(pointX, pointY)], a point of the terrain. *)
Definition getHeight (h : t) (pointX pointY : Q) : Q :=
  let x := CoordConverter.convertToGridBasisX (coordConverter h) pointX in
  let y := CoordConverter.convertToGridBasisY (coordConverter h) pointY in
  extrapolate hypot (scalarField h) x y.

(** [Math.hypot] with three arguments. *)
Variable hypot3 : Q -> Q -> Q -> Q.

(** [[float, float, float]], the array that receives a normal. *)
Definition Normal : Type := Q * Q * Q.

(** [addNormal]: the cross product of [u] and [v] is added to
    [normal]. *)
Definition addNormal (uX uY uZ vX vY vZ : Q) (normal : Normal) : Normal :=
  let '(normal0, normal1, normal2) := normal in
  ((normal0 + (uY * vZ - uZ * vY))%Q,
   (normal1 + (uZ * vX - uX * vZ))%Q,
   (normal2 + (uX * vY - uY * vX))%Q).

(** [addGridPointNormal(x, y, normal)]; the result is the array
    [normal] after the call. *)
Definition addGridPointNormal (h : t) (x y : Z) (normal : Normal) : Normal :=
  let z := get (scalarField h) x y in

  let rightX := 1%Q in
  let rightY := 0%Q in
  let rightZ := (get (scalarField h) (x + 1) y - z)%Q in
  let rightLength := hypot rightX rightZ in
  let rightX := (rightX / rightLength)%Q in
  let rightZ := (rightZ / rightLength)%Q in

  let leftX := (-1)%Q in
  let leftY := 0%Q in
  let leftZ := (get (scalarField h) (x - 1) y - z)%Q in
  let leftLength := hypot leftX leftZ in
  let leftX := (leftX / leftLength)%Q in
  let leftZ := (leftZ / leftLength)%Q in

  let bottomX := 0%Q in
  let bottomY := 1%Q in
  let bottomZ := (get (scalarField h) x (y + 1) - z)%Q in
  let bottomLength := hypot bottomY bottomZ in
  let bottomY := (bottomY / bottomLength)%Q in
  let bottomZ := (bottomZ / bottomLength)%Q in

  let topX := 0%Q in
  let topY := (-1)%Q in
  let topZ := (get (scalarField h) x (y - 1) - z)%Q in
  let topLength := hypot topY topZ in
  let topY := (topY / topLength)%Q in
  let topZ := (topZ / topLength)%Q in

  let normal := addNormal topX topY topZ rightX rightY rightZ normal in
  let normal := addNormal rightX rightY rightZ bottomX bottomY bottomZ normal in
  let normal := addNormal bottomX bottomY bottomZ leftX leftY leftZ normal in
  addNormal leftX leftY leftZ topX topY topZ normal.

(** The state of the two loops of [getFieldNormal]: the array [normal],
    the three weighted sums, and whether the loops were left by the
    double break. *)
Definition NormalState : Type := Normal * (Q * Q * Q) * bool.

(** The body of the loops of [getFieldNormal] at one vertex: [normal]
    is reset and receives the normal at the vertex; on the point
    itself both counters are pushed past their bounds, and otherwise the
    sums receive the weighted normal. *)
Definition fieldNormalVertex (h : t) (x y : Q) (state : NormalState)
           (vertex : Cell) : NormalState :=
  let '(normal, (weighedValueSumX, weighedValueSumY, weighedValueSumZ), broken) :=
    state in
  if broken then state
  else
    let '(vertexX, vertexY) := vertex in
    let normal := addGridPointNormal h vertexX vertexY (0%Q, 0%Q, 0%Q) in
    let dx := (inject_Z vertexX - x)%Q in
    let dy := (inject_Z vertexY - y)%Q in
    if Qeq_bool dx 0 && Qeq_bool dy 0 then
      (normal, (weighedValueSumX, weighedValueSumY, weighedValueSumZ), true)
    else
      let distance := hypot dx dy in
      let '(normal0, normal1, normal2) := normal in
      (normal,
       ((weighedValueSumX + normal0 / distance)%Q,
        (weighedValueSumY + normal1 / distance)%Q,
        (weighedValueSumZ + normal2 / distance)%Q),
       false).

(** [getFieldNormal(pointX, pointY, normal)]: [None] is [null].  The
    array [normal] is reset at the first vertex, so that what it held
    does not matter; the sums are not read after the loops. *)
Definition getFieldNormal (h : t) (pointX pointY : Q) : option Normal :=
  let x := CoordConverter.convertToGridBasisX (coordConverter h) pointX in
  let y := CoordConverter.convertToGridBasisY (coordConverter h) pointY in
  let squareX := Qfloor x in
  let squareY := Qfloor y in
  if (squareX <? 0) || (squareY <? 0)
     || (squareX >=? dimX (scalarField h)) || (squareY >=? dimY (scalarField h))
  then None
  else
    let '(squareX, x) :=
      if squareX <? 1 then (1, inject_Z 1) else (squareX, x) in
    let '(squareX, x) :=
      if squareX >? dimX (scalarField h) - 3
      then (dimX (scalarField h) - 3, inject_Z (dimX (scalarField h) - 3))
      else (squareX, x) in
    let '(squareY, y) :=
      if squareY <? 1 then (1, inject_Z 1) else (squareY, y) in
    let '(squareY, y) :=
      if squareY >? dimY (scalarField h) - 3
      then (dimY (scalarField h) - 3, inject_Z (dimY (scalarField h) - 3))
      else (squareY, y) in
    let '(normal, _, _) :=
      fold_left (fieldNormalVertex h x y)
                (flat_map (fun vertexX => map (fun vertexY => (vertexX, vertexY))
                                              (zrange squareY (squareY + 1)))
                          (zrange squareX (squareX + 1)))
                ((0%Q, 0%Q, 0%Q), (0%Q, 0%Q, 0%Q), false) in
    let '(normal0, normal1, normal2) := normal in
    let length := hypot3 normal0 normal1 normal2 in
    Some ((normal0 / length)%Q, (normal1 / length)%Q, (normal2 / length)%Q).

End Height.

End HeightMap.

(** ** Stock *)

Module Stock.

Section Stock.

Variable T : Type.

(** Whether an element is truthy, for the [||] of [getOrCreate]. *)
Variable truthy : T -> bool.

(** [elements], the last one stocked first. *)
Definition t : Type := list T.

(** [getOrCreate(create)] is [this.elements.pop() || create()]: the
    element returned and the stock that is left.  [create] stands for the
    element that [create()] makes. *)
Definition getOrCreate (s : t) (create : T) : T * t :=
  match s with
  | [] => (create, [])
  | element :: s' => (if truthy element then element else create, s')
  end.

Definition stock (s : t) (element : T) : t := element :: s.

Definition flush (s : t) : t := [].

(** A caller that stocks the elements of a list one after the other. *)
Definition stockAll (s : t) (elements : list T) : t :=
  fold_left stock elements s.

(** A caller that makes [n] calls of [getOrCreate]: the elements
    returned, in the order of the calls, and the stock that is left. *)
Fixpoint getOrCreateMany (n : nat) (s : t) (create : T) : list T * t :=
  match n with
  | O => ([], s)
  | S n =>
      let (element, s) := getOrCreate s create in
      let (elements, s) := getOrCreateMany n s create in
      (element :: elements, s)
  end.

End Stock.

End Stock.

(** ** Test grids *)

(** The grid of the test "can fill a square". *)
Definition squareField : t :=
  [ [0; 0; 0; 0; 0; 0; 0; 0];
    [0; 0; 1; 1; 1; 1; 0; 0];
    [0; 1; 0; 0; 0; 0; 1; 0];
    [0; 1; 0; 0; 0; 0; 1; 0];
    [0; 1; 0; 0; 0; 0; 1; 0];
    [0; 1; 0; 0; 0; 0; 1; 0];
    [0; 0; 1; 1; 1; 1; 0; 0];
    [0; 0; 0; 0; 0; 0; 0; 0] ]%Q.

Definition squareFieldFilled : t :=
  [ [0; 0; 0; 0; 0; 0; 0; 0];
    [0; 0; 1; 1; 1; 1; 0; 0];
    [0; 1; 1; 1; 1; 1; 1; 0];
    [0; 1; 1; 1; 1; 1; 1; 0];
    [0; 1; 1; 1; 1; 1; 1; 0];
    [0; 1; 1; 1; 1; 1; 1; 0];
    [0; 0; 1; 1; 1; 1; 0; 0];
    [0; 0; 0; 0; 0; 0; 0; 0] ]%Q.

(** The crossing of an edge by linear interpolation, as the
    specification words it: [c1 + (threshold - v1) / (v2 - v1) * (c2 - c1)]. *)
Definition linearCrossing (c1 c2 v1 v2 threshold : Q) : Q :=
  (c1 + (threshold - v1) / (v2 - v1) * (c2 - c1))%Q.

(** A single square whose four corners are above a threshold of [0]. *)
Definition fullField : t := [ [1; 1]; [1; 1] ]%Q.


(** The scan rectangle of a primitive of capping radius [cappingRadius]
    around [(centerX, centerY)], before it is cut to the grid. *)
Definition inScanRectangle (centerX centerY cappingRadius : Q) (x y : Z) : bool :=
  (Qfloor (centerX - cappingRadius) <=? x) && (x <=? Qceiling (centerX + cappingRadius))
  && (Qfloor (centerY - cappingRadius) <=? y) && (y <=? Qceiling (centerY + cappingRadius)).

(** A row of two cells at [0], to be unfilled down to [-1]. *)
Definition hangField : t := [ [0; 0] ]%Q.

(** A row of two cells, both above a threshold of [0]. *)
Definition edgeField : t := [ [1; 2] ]%Q.

(** A row of three cells around a wavefront node at [(1, 0)] that left
    from [(0, 0)] with a thickness of [2]. *)
Definition shadeField : t := [ [10000000; 4; 0] ]%Q.
Definition shadeFieldNode : ContourNode := mkContourNode 1 0 0 0 4.

(** ** Lists, ranges and updates *)

Lemma Qltb_lt a b : Qltb a b = true <-> (a < b)%Q.
Proof.
  unfold Qltb. rewrite negb_true_iff. split; intros H.
  - apply Qnot_le_lt. intros Hle. apply Qle_bool_iff in Hle. congruence.
  - destruct (Qle_bool b a) eqn:E; trivial.
    apply Qle_bool_iff in E. exfalso. exact (Qlt_not_le _ _ H E).
Qed.

Lemma Qltb_ge a b : Qltb a b = false <-> (b <= a)%Q.
Proof.
  unfold Qltb. rewrite negb_false_iff. apply Qle_bool_iff.
Qed.

Lemma in_zrange lo hi i : In i (zrange lo hi) <-> lo <= i <= hi.
Proof.
  unfold zrange. rewrite in_map_iff. split.
  - intros (k & <- & Hk). apply in_seq in Hk. lia.
  - intros H. exists (Z.to_nat (i - lo)). split; [lia|].
    apply in_seq. lia.
Qed.

Lemma NoDup_zrange lo hi : NoDup (zrange lo hi).
Proof.
  unfold zrange. generalize (Z.to_nat (hi - lo + 1)) as n. intros n.
  generalize 0%nat as s. induction n as [|n IH]; intros s; simpl.
  - constructor.
  - constructor; [|apply IH].
    rewrite in_map_iff. intros (k & Hk & Hin). apply in_seq in Hin. lia.
Qed.

Lemma zrange_cons lo hi : lo <= hi -> zrange lo hi = lo :: zrange (lo + 1) hi.
Proof.
  intros H. unfold zrange.
  replace (Z.to_nat (hi - lo + 1)) with (S (Z.to_nat (hi - (lo + 1) + 1))) by lia.
  simpl. f_equal; [lia|].
  rewrite <- seq_shift, map_map. apply map_ext. intros k. lia.
Qed.

Lemma zrange_nil lo hi : hi < lo -> zrange lo hi = [].
Proof.
  intros H. unfold zrange. replace (Z.to_nat (hi - lo + 1)) with 0%nat by lia.
  reflexivity.
Qed.


Lemma update_length {A} i (f : A -> A) l : length (update i f l) = length l.
Proof.
  revert i. induction l as [|a l IH]; intros [|i]; simpl; auto.
Qed.

Lemma nth_update_same {A} i (f : A -> A) l d :
  (i < length l)%nat -> nth i (update i f l) d = f (nth i l d).
Proof.
  revert i. induction l as [|a l IH]; intros [|i]; simpl; intros H;
    try lia; auto. apply IH. lia.
Qed.

Lemma nth_update_other {A} i j (f : A -> A) l d :
  i <> j -> nth j (update i f l) d = nth j l d.
Proof.
  revert i j. induction l as [|a l IH]; intros [|i] [|j]; simpl; intros H;
    try congruence; auto.
Qed.

Lemma filter_length_le {A} (p q : A -> bool) l :
  (forall a, In a l -> q a = true -> p a = true) ->
  (length (filter q l) <= length (filter p l))%nat.
Proof.
  induction l as [|a l IH]; simpl; intros H; [lia|].
  assert (IH' := IH (fun b Hb => H b (or_intror Hb))).
  destruct (q a) eqn:Eq.
  - rewrite (H a (or_introl eq_refl) Eq). simpl. lia.
  - destruct (p a); simpl; lia.
Qed.

Lemma filter_length_lt {A} (p q : A -> bool) l a0 :
  (forall a, In a l -> q a = true -> p a = true) ->
  In a0 l -> p a0 = true -> q a0 = false ->
  (length (filter q l) < length (filter p l))%nat.
Proof.
  induction l as [|a l IH]; simpl; intros H Hin Hp Hq; [contradiction|].
  assert (Hle := filter_length_le p q l (fun b Hb => H b (or_intror Hb))).
  destruct Hin as [->|Hin].
  - rewrite Hp, Hq. simpl. lia.
  - assert (IH' := IH (fun b Hb => H b (or_intror Hb)) Hin Hp Hq).
    destruct (q a) eqn:Eq.
    + rewrite (H a (or_introl eq_refl) Eq). simpl. lia.
    + destruct (p a); simpl; lia.
Qed.

Lemma filter_length_bound {A} (p : A -> bool) l :
  (length (filter p l) <= length l)%nat.
Proof.
  induction l as [|a l IH]; simpl; [lia|]. destruct (p a); simpl; lia.
Qed.

(** ** The grid: dimensions, reads and writes *)

Lemma isInside_iff f x y :
  isInside f x y = true <-> 0 <= x <= dimX f - 1 /\ 0 <= y <= dimY f - 1.
Proof.
  unfold isInside. rewrite !andb_true_iff, !Z.leb_le. tauto.
Qed.

Lemma in_cells f x y : In (x, y) (cells f) <-> isInside f x y = true.
Proof.
  unfold cells. rewrite in_flat_map, isInside_iff. split.
  - intros (y' & Hy & Hin). apply in_map_iff in Hin.
    destruct Hin as (x' & Heq & Hx). inversion Heq; subst.
    apply in_zrange in Hy, Hx. lia.
  - intros [Hx Hy]. exists y. split; [apply in_zrange; lia|].
    apply in_map_iff. exists x. split; [reflexivity|apply in_zrange; lia].
Qed.

Lemma set_dimY f x y v : dimY (set f x y v) = dimY f.
Proof.
  unfold set, dimY. destruct (isInside f x y); trivial.
  now rewrite update_length.
Qed.

Lemma set_dimX f x y v : dimX (set f x y v) = dimX f.
Proof.
  unfold set. destruct (isInside f x y); trivial.
  destruct f as [|row f]; [destruct (Z.to_nat y); reflexivity|].
  destruct (Z.to_nat y); simpl; trivial.
  now rewrite update_length.
Qed.

Lemma set_isInside f x y v x' y' :
  isInside (set f x y v) x' y' = isInside f x' y'.
Proof.
  unfold isInside. now rewrite set_dimX, set_dimY.
Qed.

Lemma set_cells f x y v : cells (set f x y v) = cells f.
Proof.
  unfold cells. now rewrite set_dimX, set_dimY.
Qed.

Lemma update_Forall {A} (P : A -> Prop) i (f : A -> A) l :
  Forall P l -> (forall a, P a -> P (f a)) -> Forall P (update i f l).
Proof.
  intros H Hf. revert i. induction H as [|a l Ha Hl IH]; intros [|i]; simpl;
    constructor; auto.
Qed.

Lemma set_rect f x y v : rect f -> rect (set f x y v).
Proof.
  intros H. unfold rect. rewrite set_dimX.
  unfold set. destruct (isInside f x y); trivial.
  apply update_Forall; trivial.
  intros row Hrow. now rewrite update_length.
Qed.

Lemma rect_row_length f y :
  rect f -> 0 <= y <= dimY f - 1 ->
  Z.of_nat (length (nth (Z.to_nat y) f [])) = dimX f.
Proof.
  intros H Hy. unfold rect in H. rewrite Forall_forall in H.
  apply H. apply nth_In. unfold dimY in Hy. lia.
Qed.

Lemma get_set_same f x y v :
  rect f -> isInside f x y = true -> get (set f x y v) x y = v.
Proof.
  intros Hr Hin. unfold set, get. rewrite Hin.
  apply isInside_iff in Hin. destruct Hin as [Hx Hy].
  rewrite nth_update_same by (unfold dimY in Hy; lia).
  rewrite nth_update_same; trivial.
  assert (Hl := rect_row_length f y Hr Hy). lia.
Qed.

Lemma get_set_other f x y v x' y' :
  isInside f x' y' = true -> (x, y) <> (x', y') ->
  get (set f x y v) x' y' = get f x' y'.
Proof.
  intros Hin' Hne. unfold set. destruct (isInside f x y) eqn:Hin; trivial.
  apply isInside_iff in Hin, Hin'. unfold get.
  destruct (Z.eq_dec y y') as [->|Hy].
  - rewrite nth_update_same by (unfold dimY in Hin; lia).
    apply nth_update_other. intros E. apply Hne. f_equal. lia.
  - rewrite nth_update_other; trivial. lia.
Qed.

Lemma create_rect dimX dimY : rect (create dimX dimY).
Proof.
  unfold rect, create. apply Forall_forall. intros row Hrow.
  destruct dimY as [|dimY]; [contradiction|].
  apply repeat_spec in Hrow. subst row.
  reflexivity.
Qed.

(** ** ScalarField.extrapolate *)

(** C9.  A query point whose enclosing cell [(floor x, floor y)] is not in
    [[0, width - 2] x [0, height - 2]] gets the default [0] from
    [extrapolate], whatever the grid holds. *)
Theorem extrapolate_outside_is_zero (hypot : Q -> Q -> Q) (f : t) (x y : Q) :
  ~ (0 <= Qfloor x <= dimX f - 2 /\ 0 <= Qfloor y <= dimY f - 2) ->
  extrapolate hypot f x y = 0%Q.
Proof.
  intros H. unfold extrapolate.
  destruct ((Qfloor x <? 0) || (Qfloor y <? 0)
            || (Qfloor x >=? dimX f - 1) || (Qfloor y >=? dimY f - 1)) eqn:E;
    [reflexivity|].
  exfalso. apply H.
  rewrite !orb_false_iff in E. destruct E as [[[E1 E2] E3] E4].
  apply Z.ltb_ge in E1, E2. rewrite Z.geb_leb in E3, E4.
  apply Z.leb_gt in E3, E4. lia.
Qed.

Lemma extrapolate_outside_is_zero_witness :
  ~ (0 <= Qfloor (5 # 2) <= dimX (create 2 2) - 2
     /\ 0 <= Qfloor 0 <= dimY (create 2 2) - 2)
  /\ extrapolate (fun dx dy => Qabs dx + Qabs dy)%Q (create 2 2) (5 # 2) 0 = 0%Q.
Proof.
  assert (H : ~ (0 <= Qfloor (5 # 2) <= dimX (create 2 2) - 2
                 /\ 0 <= Qfloor 0 <= dimY (create 2 2) - 2)).
  { vm_compute. intros [[_ H] _]. apply H. reflexivity. }
  split; [exact H|].
  exact (extrapolate_outside_is_zero (fun dx dy => Qabs dx + Qabs dy)%Q
                                     (create 2 2) (5 # 2) 0 H).
Defined.

(** ** MarchingSquares: the crossing point of an edge *)

(** C8, as the specification states it, fails: with both corners above
    the threshold the weighted mean lies between the corners, and the
    linear interpolation does not. *)
Lemma between_not_linear_same_side :
  ~ (forall (f : t) (x1 y1 x2 y2 : Z) (threshold : Q),
        isInside f x1 y1 = true -> isInside f x2 y2 = true ->
        ~ (get f x1 y1 == threshold)%Q ->
        ~ (get f x2 y2 == threshold)%Q ->
        (betweenX f x1 y1 x2 y2 threshold ==
         linearCrossing (inject_Z x1) (inject_Z x2)
                        (get f x1 y1) (get f x2 y2) threshold)%Q).
Proof.
  intros H. specialize (H edgeField 0 0 1 0 0%Q eq_refl eq_refl).
  assert (H1 : ~ (get edgeField 0 0 == 0)%Q) by (vm_compute; discriminate).
  assert (H2 : ~ (get edgeField 1 0 == 0)%Q) by (vm_compute; discriminate).
  specialize (H H1 H2). vm_compute in H. discriminate.
Qed.

(** C8, amended.  For two corners of the grid whose values lie strictly
    on opposite sides of the threshold, [betweenX] and [betweenY] are the
    linear interpolation of the crossing, over the rationals. *)
Theorem between_is_linear_crossing (f : t) (x1 y1 x2 y2 : Z) (threshold : Q) :
  let v1 := get f x1 y1 in
  let v2 := get f x2 y2 in
  isInside f x1 y1 = true -> isInside f x2 y2 = true ->
  ((v1 < threshold /\ threshold < v2) \/ (v2 < threshold /\ threshold < v1))%Q ->
  (betweenX f x1 y1 x2 y2 threshold ==
   linearCrossing (inject_Z x1) (inject_Z x2) v1 v2 threshold)%Q
  /\ (betweenY f x1 y1 x2 y2 threshold ==
      linearCrossing (inject_Z y1) (inject_Z y2) v1 v2 threshold)%Q.
Proof.
  intros v1 v2 _ _ H. unfold betweenX, betweenY, linearCrossing.
  fold v1 v2.
  destruct H as [[H1 H2]|[H1 H2]].
  - assert (E1 : (Qabs (v1 - threshold) == threshold - v1)%Q).
    { rewrite Qabs_neg by lra. ring. }
    assert (E2 : (Qabs (v2 - threshold) == v2 - threshold)%Q).
    { rewrite Qabs_pos by lra. ring. }
    rewrite E1, E2. split; field; lra.
  - assert (E1 : (Qabs (v1 - threshold) == v1 - threshold)%Q).
    { rewrite Qabs_pos by lra. ring. }
    assert (E2 : (Qabs (v2 - threshold) == threshold - v2)%Q).
    { rewrite Qabs_neg by lra. ring. }
    rewrite E1, E2. split; field; lra.
Qed.

Lemma between_is_linear_crossing_witness :
  (betweenX [ [0; 3] ]%Q 0 0 1 0 1 ==
   linearCrossing (inject_Z 0) (inject_Z 1) 0 3 1)%Q
  /\ (betweenY [ [0; 3] ]%Q 0 0 1 0 1 ==
      linearCrossing (inject_Z 0) (inject_Z 0) 0 3 1)%Q.
Proof.
  apply (between_is_linear_crossing [ [0; 3] ]%Q 0 0 1 0 1).
  - reflexivity.
  - reflexivity.
  - left. split; reflexivity.
Defined.

(** ** FloodFill: a node of the wavefront *)

(** C3, as the specification states it, fails: a node whose recorded
    value is the one the grid still holds is expanded, not discarded. *)
Lemma shadeNode_expands_current_node :
  isInside shadeField (x shadeFieldNode) (y shadeFieldNode) = true
  /\ (get shadeField (x shadeFieldNode) (y shadeFieldNode) <= value shadeFieldNode)%Q
  /\ shadeNode (fillContourValue 2 2) (shadeField, []) shadeFieldNode
     <> (shadeField, []).
Proof.
  split; [reflexivity|]. split; [vm_compute; discriminate|].
  vm_compute. discriminate.
Qed.

(** C3, amended.  A node of the grid taken from the current layer is discarded without
    expansion exactly when the grid holds more than the node's recorded
    value; otherwise [checkAnAddContourNode] is run on its four neighbours,
    left, right, up and down, with the node's own seed. *)
Theorem shadeNode_discards_when_grid_above (getContourValue : GetContourValue)
        (f : t) (nextContourStack : list ContourNode) (node : ContourNode) :
  isInside f (x node) (y node) = true ->
  ((value node < get f (x node) (y node))%Q ->
   shadeNode getContourValue (f, nextContourStack) node = (f, nextContourStack))
  /\ ((get f (x node) (y node) <= value node)%Q ->
      shadeNode getContourValue (f, nextContourStack) node =
      let check '(f, stack) neighborX neighborY :=
        checkAnAddContourNode getContourValue f stack neighborX neighborY
                              (originX node) (originY node) in
      check (check (check (check (f, nextContourStack)
                                 (x node - 1) (y node))
                          (x node + 1) (y node))
                   (x node) (y node - 1))
            (x node) (y node + 1)).
Proof.
  intros _. unfold shadeNode. split; intros H.
  - apply Qltb_lt in H. now rewrite H.
  - apply Qltb_ge in H. rewrite H.
    unfold deltas, fold_left, shadeNeighbor, fst, snd.
    replace (x node + -1) with (x node - 1) by lia.
    replace (y node + -1) with (y node - 1) by lia.
    rewrite !Z.add_0_r.
    destruct (checkAnAddContourNode getContourValue f nextContourStack
                (x node - 1) (y node) (originX node) (originY node)) as [f1 s1].
    destruct (checkAnAddContourNode getContourValue f1 s1
                (x node + 1) (y node) (originX node) (originY node)) as [f2 s2].
    destruct (checkAnAddContourNode getContourValue f2 s2
                (x node) (y node - 1) (originX node) (originY node)) as [f3 s3].
    reflexivity.
Qed.

Lemma shadeNode_discards_when_grid_above_witness :
  shadeNode (fillContourValue 2 2) ([ [10000000; 5; 0] ]%Q, []) shadeFieldNode
  = ([ [10000000; 5; 0] ]%Q, []).
Proof.
  apply (proj1 (shadeNode_discards_when_grid_above
                  (fillContourValue 2 2) [ [10000000; 5; 0] ]%Q [] shadeFieldNode
                  eq_refl)).
  reflexivity.
Defined.

(** ** MarchingSquares.fillContour *)

Lemma zrange_one a : zrange a a = [a].
Proof.
  rewrite zrange_cons by lia. rewrite zrange_nil by lia. reflexivity.
Qed.

Lemma zrange_six a :
  zrange a (a + 5) = [a; a + 1; a + 2; a + 3; a + 4; a + 5].
Proof.
  unfold zrange. replace (Z.to_nat (a + 5 - a + 1)) with 6%nat by lia.
  simpl. repeat (f_equal; try lia).
Qed.

Section ScanLemmas.

Variable classify : Z -> Z -> Q -> Z.

(** A square of case 15 starts or continues a run; the run is drawn at
    once when the square is the last of its row. *)
Lemma fillSquare_full f squareY maxX threshold drawUnder first15SquareX calls squareX :
  squareCaseWith classify squareX squareY threshold drawUnder = 15 ->
  0 <= squareX -> first15SquareX = -1 \/ 0 <= first15SquareX ->
  fillSquareWith classify f squareY maxX threshold drawUnder
                 (first15SquareX, calls) squareX =
  let start := if first15SquareX =? -1 then squareX else first15SquareX in
  if squareX =? maxX - 2
  then (-1, (calls ++ [onFilledSquareChange squareX squareY])
            ++ [drawRectangle (inject_Z start) (inject_Z squareY)
                              (inject_Z (squareX + 1)) (inject_Z (squareY + 1))])
  else (start, calls ++ [onFilledSquareChange squareX squareY]).
Proof.
  intros Hcase Hx Hfirst. unfold squareCaseWith in Hcase. unfold fillSquareWith.
  rewrite Hcase. cbn [Z.eqb Pos.eqb andb negb]. rewrite andb_true_r.
  assert (E : ((if first15SquareX =? -1 then squareX else first15SquareX) =? -1)
              = false).
  { destruct (first15SquareX =? -1) eqn:E1; apply Z.eqb_neq; [lia|].
    apply Z.eqb_neq in E1. lia. }
  rewrite E. cbn [negb]. destruct (squareX =? maxX - 2); reflexivity.
Qed.

(** A square of another case ends the run, if there is one, and, unless
    its case is 0, draws its own polygon. *)
Lemma fillSquare_partial f squareY maxX threshold drawUnder first15SquareX calls squareX :
  squareCaseWith classify squareX squareY threshold drawUnder <> 15 ->
  fillSquareWith classify f squareY maxX threshold drawUnder
                 (first15SquareX, calls) squareX =
  let squareIndex := squareCaseWith classify squareX squareY threshold drawUnder in
  let calls := calls ++ [onFilledSquareChange squareX squareY] in
  let calls :=
    if first15SquareX =? -1 then calls
    else calls ++ [drawRectangle (inject_Z first15SquareX) (inject_Z squareY)
                                 (inject_Z squareX) (inject_Z (squareY + 1))] in
  (-1,
   if squareIndex =? 0 then calls
   else calls ++ fillPolygon f squareX squareY threshold
                             (nth (Z.to_nat squareIndex) marchingSquaresFillVertices [])).
Proof.
  intros Hcase. unfold fillSquareWith.
  fold (squareCaseWith classify squareX squareY threshold drawUnder).
  apply Z.eqb_neq in Hcase. rewrite Hcase. rewrite andb_false_r. cbn [negb].
  rewrite andb_true_r.
  destruct (first15SquareX =? -1) eqn:E1; cbn [negb].
  - apply Z.eqb_eq in E1. subst.
    destruct (squareCaseWith classify squareX squareY threshold drawUnder =? 0);
      reflexivity.
  - destruct (squareCaseWith classify squareX squareY threshold drawUnder =? 0);
      reflexivity.
Qed.

End ScanLemmas.

(** C6, as the specification states it, fails: the single square of case
    15 is drawn, as a rectangle. *)
Lemma fillContour_full_square_draws_rectangle :
  dimX fullField = 2 /\ dimY fullField = 2
  /\ squareCase fullField 0 0 0 false = 15
  /\ filter isGeometry (fillContour fullField 0 0 2 2 0 false)
     = [drawRectangle 0 0 1 1].
Proof. repeat split; reflexivity. Qed.

(** C6, amended.  With a single scanned square of the grid, [fillContour] draws no
    polygon when the case of the square is 0 or 15: for case 0 it draws
    nothing at all, and for case 15 it draws one rectangle, the square
    itself.  The notification [onFilledSquareChange] is sent in both
    cases. *)
Theorem fillContour_single_square (f : t) (squareX squareY : Z) (threshold : Q)
        (drawUnder : bool) :
  0 <= squareX -> 0 <= squareY ->
  squareX + 2 <= dimX f -> squareY + 2 <= dimY f ->
  (squareCase f squareX squareY threshold drawUnder = 0 ->
   fillContour f squareX squareY (squareX + 2) (squareY + 2) threshold drawUnder
   = [onFilledSquareChange squareX squareY])
  /\ (squareCase f squareX squareY threshold drawUnder = 15 ->
      fillContour f squareX squareY (squareX + 2) (squareY + 2) threshold drawUnder
      = [onFilledSquareChange squareX squareY;
         drawRectangle (inject_Z squareX) (inject_Z squareY)
                       (inject_Z (squareX + 1)) (inject_Z (squareY + 1))]).
Proof.
  intros Hx _ _ _.
  assert (E : fillContour f squareX squareY (squareX + 2) (squareY + 2)
                          threshold drawUnder
              = snd (fillSquareWith (getSquareIndex f) f squareY (squareX + 2)
                                    threshold drawUnder (-1, []) squareX)).
  { unfold fillContour, fillContourWith, fillRowWith.
    replace (squareY + 2 - 2) with squareY by lia.
    replace (squareX + 2 - 2) with squareX by lia.
    rewrite !zrange_one. cbn [flat_map fold_left]. apply app_nil_r. }
  rewrite E. clear E. unfold squareCase. split; intros Hcase.
  - rewrite fillSquare_partial by lia. rewrite Hcase. reflexivity.
  - rewrite fillSquare_full by (trivial; lia).
    cbn zeta. rewrite (proj2 (Z.eqb_eq squareX _)) by lia. reflexivity.
Qed.

Lemma fillContour_single_square_witness :
  fillContour fullField 0 0 (0 + 2) (0 + 2) 0 false
  = [onFilledSquareChange 0 0;
     drawRectangle (inject_Z 0) (inject_Z 0) (inject_Z (0 + 1)) (inject_Z (0 + 1))].
Proof.
  apply (proj2 (fillContour_single_square fullField 0 0 0 false
                                          (Z.le_refl 0) (Z.le_refl 0)
                                          (Z.le_refl 2) (Z.le_refl 2))).
  reflexivity.
Defined.







(** ** ScalarField: the merges *)

Lemma fold_left_ext {A B} (g h : A -> B -> A) l a :
  (forall a b, g a b = h a b) -> fold_left g l a = fold_left h l a.
Proof.
  intros H. revert a. induction l as [|b l IH]; intros a; simpl; [reflexivity|].
  now rewrite H, IH.
Qed.

Lemma fold_left_flat_map {A B C} (g : A -> C -> A) (k : B -> list C) l a :
  fold_left g (flat_map k l) a = fold_left (fun a b => fold_left g (k b) a) l a.
Proof.
  revert a. induction l as [|b l IH]; intros a; simpl; [reflexivity|].
  now rewrite fold_left_app, IH.
Qed.

Lemma forEachCell_ext minX maxX minY maxY body body' f :
  (forall x y f, body x y f = body' x y f) ->
  forEachCell minX maxX minY maxY body f = forEachCell minX maxX minY maxY body' f.
Proof.
  intros H. unfold forEachCell. apply fold_left_ext. intros g y.
  apply fold_left_ext. intros g' x. now rewrite H.
Qed.

Lemma forEachCell_window minX maxX minY maxY body f :
  forEachCell minX maxX minY maxY body f =
  fold_left (fun f c => set f (fst c) (snd c) (body (fst c) (snd c) f))
            (window minX maxX minY maxY) f.
Proof.
  unfold forEachCell, window. rewrite fold_left_flat_map.
  apply fold_left_ext. intros g y.
  generalize (zrange minX maxX) as xs. intros xs. revert g.
  induction xs as [|x xs IH]; intros g; simpl; [reflexivity|]. apply IH.
Qed.

Lemma in_window minX maxX minY maxY x y :
  In (x, y) (window minX maxX minY maxY) <-> minX <= x <= maxX /\ minY <= y <= maxY.
Proof.
  unfold window. rewrite in_flat_map. split.
  - intros (y' & Hy & Hin). apply in_map_iff in Hin.
    destruct Hin as (x' & Heq & Hx'). inversion Heq; subst.
    apply in_zrange in Hy, Hx'. lia.
  - intros [Hx Hy]. exists y. split; [now apply in_zrange|].
    apply in_map_iff. exists x. split; [reflexivity|now apply in_zrange].
Qed.

Lemma NoDup_window minX maxX minY maxY : NoDup (window minX maxX minY maxY).
Proof.
  unfold window. generalize (NoDup_zrange minY maxY).
  generalize (zrange minY maxY) as ys. intros ys.
  induction ys as [|y ys IH]; intros Hnd; simpl; [constructor|].
  inversion Hnd as [|? ? Hy Hys]; subst.
  apply NoDup_app.
  - apply Injective_map_NoDup; [|apply NoDup_zrange].
    intros a b E. now inversion E.
  - now apply IH.
  - intros [x' y'] Hin1 Hin2. apply in_map_iff in Hin1.
    destruct Hin1 as (x'' & Heq & _). inversion Heq; subst.
    apply in_flat_map in Hin2. destruct Hin2 as (y'' & Hy'' & Hin2).
    apply in_map_iff in Hin2. destruct Hin2 as (? & Heq2 & _).
    inversion Heq2; subst. contradiction.
Qed.

(** Painting a list of distinct cells of the grid, each with a value
    computed from its own current value: the painted cells hold their
    new value, the others are as they were. *)
Lemma paint_cells (F : Z -> Z -> Q -> Q) cs f x y :
  rect f -> NoDup cs ->
  (forall c, In c cs -> isInside f (fst c) (snd c) = true) ->
  isInside f x y = true ->
  let f' := fold_left (fun f c => set f (fst c) (snd c)
                                      (F (fst c) (snd c) (get f (fst c) (snd c))))
                      cs f in
  (In (x, y) cs -> get f' x y = F x y (get f x y))
  /\ (~ In (x, y) cs -> get f' x y = get f x y).
Proof.
  intros Hr Hnd Hin Hxy. revert f Hr Hin Hxy.
  induction Hnd as [|c cs Hc Hnd IH]; intros f Hr Hin Hxy; cbn zeta.
  { split; [contradiction|reflexivity]. }
  cbn [fold_left]. destruct c as [cx cy]. cbn [fst snd].
  destruct (IH (set f cx cy (F cx cy (get f cx cy)))) as [IH1 IH2].
  - now apply set_rect.
  - intros c' Hc'. rewrite set_isInside. apply Hin. now right.
  - now rewrite set_isInside.
  - cbn zeta in IH1, IH2. split.
    + intros [E|H].
      * inversion E; subst. rewrite IH2 by assumption.
        rewrite get_set_same; trivial.
      * rewrite IH1 by assumption. rewrite get_set_other; trivial.
        intros E. inversion E; subst. contradiction.
    + intros H. rewrite IH2 by (intros H'; apply H; now right).
      rewrite get_set_other; trivial. intros E. apply H. now left.
Qed.




Lemma Qmin_same a : Qmin a a = a.
Proof. unfold Qmin, GenericMinMax.gmin. now destruct (a ?= a)%Q. Qed.

Lemma Qmax_same a : Qmax a a = a.
Proof. unfold Qmax, GenericMinMax.gmax. now destruct (a ?= a)%Q. Qed.

Lemma getDistanceSqToSegment_point x y x1 y1 :
  getDistanceSqToSegment x y x1 y1 x1 y1 = getDistanceSq x y x1 y1.
Proof.
  unfold getDistanceSqToSegment.
  assert (E : Qeq_bool (getDistanceSq x1 y1 x1 y1) 0 = true).
  { apply Qeq_bool_iff. unfold getDistanceSq. ring. }
  now rewrite E.
Qed.

(** C7.  A segment whose two ends are the same point is merged as the
    disk at that point, of radius the thickness: [mergeSegment] and
    [mergeDisk] leave the same grid. *)
Theorem mergeSegment_degenerate_is_mergeDisk (f : t) (x1 y1 thickness cappingRadiusRatio : Q)
        (operation : Q -> Q -> Q) :
  mergeSegment f x1 y1 x1 y1 thickness cappingRadiusRatio operation
  = mergeDisk f x1 y1 thickness cappingRadiusRatio operation.
Proof.
  unfold mergeSegment, mergeDisk. rewrite !Qmin_same, !Qmax_same.
  apply forEachCell_ext. intros x y g.
  now rewrite getDistanceSqToSegment_point.
Qed.

(** ** FloodFill: the writes of the contour *)

Lemma checkAnAddContourNode_cases getContourValue f stack nodeX nodeY originX originY :
  checkAnAddContourNode getContourValue f stack nodeX nodeY originX originY = (f, stack)
  \/ exists value,
      isInside f nodeX nodeY = true
      /\ getContourValue (get f nodeX nodeY)
                         (contourDistanceSq nodeX nodeY originX originY) = Some value
      /\ checkAnAddContourNode getContourValue f stack nodeX nodeY originX originY
         = (set f nodeX nodeY value,
            mkContourNode nodeX nodeY originX originY value :: stack).
Proof.
  unfold checkAnAddContourNode.
  destruct (isInside f nodeX nodeY) eqn:Hin; cbn [negb]; [|now left].
  destruct (getContourValue (get f nodeX nodeY)
                            (contourDistanceSq nodeX nodeY originX originY))
    as [value|] eqn:Hv; [|now left].
  right. exists value. auto.
Qed.

Lemma contourDistanceSq_min x y originX originY :
  (minDistanceSq <= contourDistanceSq x y originX originY)%Q.
Proof. unfold contourDistanceSq. apply Q.le_max_l. Qed.

Lemma minDistanceSq_pos : (0 < minDistanceSq)%Q.
Proof. reflexivity. Qed.

Section Shaded.

Variable getContourValue : GetContourValue.
Variable P : Q -> Prop.

Lemma shaded_trans f1 f2 f3 :
  shaded getContourValue P f1 f2 -> shaded getContourValue P f2 f3 ->
  shaded getContourValue P f1 f3.
Proof.
  intros H12 H23. induction H12 as [|f x y ox oy v f' Hin HP Hv H IH]; trivial.
  eapply shaded_step; eauto.
Qed.

Lemma shaded_one f x y originX originY value :
  isInside f x y = true -> P (get f x y) ->
  getContourValue (get f x y) (contourDistanceSq x y originX originY) = Some value ->
  shaded getContourValue P f (set f x y value).
Proof.
  intros. eapply shaded_step; eauto. apply shaded_refl.
Qed.

Lemma shaded_dims f f' :
  shaded getContourValue P f f' ->
  dimX f' = dimX f /\ dimY f' = dimY f /\ (rect f -> rect f').
Proof.
  intros H. induction H as [|f x y ox oy v f' Hin HP Hv H IH].
  - auto.
  - destruct IH as (IH1 & IH2 & IH3).
    rewrite set_dimX in IH1. rewrite set_dimY in IH2.
    repeat split; trivial. intros Hr. apply IH3. now apply set_rect.
Qed.

Lemma shaded_isInside f f' x y :
  shaded getContourValue P f f' -> isInside f' x y = isInside f x y.
Proof.
  intros H. destruct (shaded_dims f f' H) as (H1 & H2 & _).
  unfold isInside. now rewrite H1, H2.
Qed.

Lemma shaded_cells f f' : shaded getContourValue P f f' -> cells f' = cells f.
Proof.
  intros H. destruct (shaded_dims f f' H) as (H1 & H2 & _).
  unfold cells. now rewrite H1, H2.
Qed.

(** What every write preserves, the whole sequence preserves. *)
Lemma shaded_preserves (R : Q -> Q -> Prop) f f' :
  (forall v, R v v) -> (forall u v w, R u v -> R v w -> R u w) ->
  (forall v d v', P v -> (minDistanceSq <= d)%Q ->
                  getContourValue v d = Some v' -> R v v') ->
  rect f -> shaded getContourValue P f f' ->
  forall x y, isInside f x y = true -> R (get f x y) (get f' x y).
Proof.
  intros Hrefl Htrans Hstep Hr H.
  induction H as [|f x0 y0 ox oy v f' Hin HP Hv H IH]; intros x y Hxy.
  - apply Hrefl.
  - specialize (IH (set_rect f x0 y0 v Hr) x y).
    rewrite set_isInside in IH. specialize (IH Hxy).
    apply Htrans with (2 := IH).
    destruct (Z.eq_dec x0 x) as [->|Hx]; [destruct (Z.eq_dec y0 y) as [->|Hy]|].
    + rewrite get_set_same by assumption.
      eapply Hstep; eauto. apply contourDistanceSq_min.
    + rewrite get_set_other; trivial. congruence.
    + rewrite get_set_other; trivial. congruence.
Qed.

(** When no value is ever accepted, nothing is written. *)
Lemma shaded_none f f' :
  (forall v d, P v -> (minDistanceSq <= d)%Q -> getContourValue v d = None) ->
  shaded getContourValue P f f' -> f' = f.
Proof.
  intros Hnone H. induction H as [|f x y ox oy v f' Hin HP Hv H IH]; trivial.
  rewrite Hnone in Hv; [discriminate|assumption|apply contourDistanceSq_min].
Qed.

End Shaded.

(** ** FloodFill: one turn of the flood loop *)

Section FloodBody.

Variable canFlood : Q -> bool.
Variable fillingValue : Q.
Variable getContourValue : GetContourValue.

(** A contour value written over a cell that cannot be flooded leaves
    it so: this holds of [fillFrom], which raises values that are at
    least [valueMax], and of [unfillFrom], which lowers values that are
    at most [valueMin]. *)
Hypothesis contour_keeps_dry :
  forall v d v', canFlood v = false -> getContourValue v d = Some v' ->
                 canFlood v' = false.

Let dry (v : Q) : Prop := canFlood v = false.

Lemma shaded_floodable f f' x y :
  rect f -> shaded getContourValue dry f f' -> isInside f x y = true ->
  canFlood (get f' x y) = canFlood (get f x y).
Proof.
  intros Hr H Hxy.
  apply (shaded_preserves getContourValue dry
           (fun v v' => canFlood v' = canFlood v)) with (f := f); trivial.
  - intros u v w H1 H2. congruence.
  - intros v d v' Hv _ Hd. unfold dry in Hv. rewrite Hv.
    eapply contour_keeps_dry; eauto.
Qed.

Lemma floodNeighbor_spec x y f floodStack stack delta f' floodStack' stack' :
  floodNeighbor canFlood getContourValue x y (f, floodStack, stack) delta
  = (f', floodStack', stack') ->
  let n := neighbor (x, y) delta in
  shaded getContourValue dry f f'
  /\ ((insideCell f n = true /\ canFlood (getCell f n) = true
       /\ floodStack' = n :: floodStack /\ stack' = stack)
      \/ ((insideCell f n = false \/ canFlood (getCell f n) = false)
          /\ floodStack' = floodStack
          /\ (stack' = stack
              \/ exists v, stack' = mkContourNode (fst n) (snd n) x y v :: stack))).
Proof.
  unfold floodNeighbor, neighbor, insideCell, getCell. cbn [fst snd].
  set (nx := x + fst delta). set (ny := y + snd delta).
  destruct (isInside f nx ny) eqn:Hin; cbn [negb].
  2:{ intros E. inversion E; subst. split; [apply shaded_refl|].
      right. auto. }
  destruct (canFlood (get f nx ny)) eqn:Hc.
  { intros E. inversion E; subst. split; [apply shaded_refl|]. left. auto. }
  destruct (checkAnAddContourNode_cases getContourValue f stack nx ny x y)
    as [E|(v & _ & Hv & E)]; rewrite E; intros E'; inversion E'; subst.
  - split; [apply shaded_refl|]. right. auto.
  - split; [now apply shaded_one with (originX := x) (originY := y)|].
    right. repeat split; auto. right. now exists v.
Qed.

Lemma floodNeighbors_spec x y ds :
  forall f floodStack stack f' floodStack' stack',
    rect f ->
    fold_left (floodNeighbor canFlood getContourValue x y) ds (f, floodStack, stack)
    = (f', floodStack', stack') ->
    shaded getContourValue dry f f'
    /\ exists pushed new,
        floodStack' = pushed ++ floodStack /\ stack' = new ++ stack
        /\ (length pushed <= length ds)%nat
        /\ Forall (fun n => insideCell f n = true /\ canFlood (getCell f n) = true
                            /\ exists delta, In delta ds /\ n = neighbor (x, y) delta)
                  pushed
        /\ (forall delta, In delta ds ->
                          insideCell f (neighbor (x, y) delta) = true ->
                          canFlood (getCell f (neighbor (x, y) delta)) = true ->
                          In (neighbor (x, y) delta) pushed)
        /\ Forall (fun node => originX node = x /\ originY node = y) new.
Proof.
  induction ds as [|delta ds IH]; intros f floodStack stack f' floodStack' stack' Hr.
  - cbn [fold_left]. intros E. inversion E; subst.
    split; [apply shaded_refl|]. exists [], [].
    repeat split; auto; try constructor.
  - cbn [fold_left].
    destruct (floodNeighbor canFlood getContourValue x y (f, floodStack, stack) delta)
      as [[f1 floodStack1] stack1] eqn:E1.
    intros E. apply floodNeighbor_spec in E1. cbn zeta in E1.
    destruct E1 as [Hs1 Hcase].
    assert (Hr1 : rect f1) by (now apply (shaded_dims _ _ _ _ Hs1)).
    destruct (IH _ _ _ _ _ _ Hr1 E)
      as (Hs & pushed & new & Hfs & Hst & Hlen & Hpushed & Hall & Hnew).
    assert (Hsame : forall n, insideCell f1 n = insideCell f n
                              /\ (insideCell f n = true ->
                                  canFlood (getCell f1 n) = canFlood (getCell f n))).
    { intros n. unfold insideCell, getCell. split.
      - apply (shaded_isInside _ _ _ _ _ _ Hs1).
      - intros Hn. now apply shaded_floodable. }
    split; [eapply shaded_trans; eauto|].
    assert (Hpushed' :
              Forall (fun n => insideCell f n = true /\ canFlood (getCell f n) = true
                               /\ exists delta0, In delta0 (delta :: ds)
                                                 /\ n = neighbor (x, y) delta0)
                     pushed).
    { eapply Forall_impl; [|exact Hpushed]. intros n (Hn1 & Hn2 & d & Hd & Hn3).
      destruct (Hsame n) as [Ha Hb]. rewrite Ha in Hn1.
      rewrite (Hb Hn1) in Hn2. repeat split; trivial.
      exists d. split; [now right|assumption]. }
    assert (Hall' : forall d, In d ds -> insideCell f (neighbor (x, y) d) = true ->
                              canFlood (getCell f (neighbor (x, y) d)) = true ->
                              In (neighbor (x, y) d) pushed).
    { intros d Hd Hi Hc. destruct (Hsame (neighbor (x, y) d)) as [Ha Hb].
      apply Hall; trivial; [congruence|]. rewrite (Hb Hi). exact Hc. }
    destruct Hcase as [(Hi & Hc & -> & ->)|(Hdry & -> & Hstack)].
    + exists (pushed ++ [neighbor (x, y) delta]), new.
      rewrite <- app_assoc. repeat split; trivial.
      * rewrite length_app. cbn [length]. lia.
      * apply Forall_app. split; trivial. constructor; [|constructor].
        repeat split; trivial. exists delta. split; [now left|reflexivity].
      * intros d [->|Hd] Hi' Hc'; apply in_or_app; [right; now left|left; auto].
    + assert (Hnot : forall d, d = delta ->
                               insideCell f (neighbor (x, y) d) = true ->
                               canFlood (getCell f (neighbor (x, y) d)) = true -> False).
      { intros d -> Hi Hc. destruct Hdry; congruence. }
      destruct Hstack as [->|(v & ->)].
      * exists pushed, new. repeat split; trivial.
        -- cbn [length]. lia.
        -- intros d [Hd|Hd] Hi' Hc'; [exfalso; eapply Hnot; eauto|auto].
      * exists pushed, (new ++ [mkContourNode (fst (neighbor (x, y) delta))
                                              (snd (neighbor (x, y) delta)) x y v]).
        rewrite <- app_assoc. repeat split; trivial.
        -- cbn [length]. lia.
        -- intros d [Hd|Hd] Hi' Hc'; [exfalso; eapply Hnot; eauto|auto].
        -- apply Forall_app. split; trivial. constructor; [|constructor]. auto.
Qed.

End FloodBody.

(** ** FloodFill: the flood loop ends *)

Section FloodLoop.

Variable canFlood : Q -> bool.
Variable fillingValue : Q.
Variable getContourValue : GetContourValue.

Hypothesis contour_keeps_dry :
  forall v d v', canFlood v = false -> getContourValue v d = Some v' ->
                 canFlood v' = false.

Let dry (v : Q) : Prop := canFlood v = false.

Lemma floodNode_spec f x y floodStack stack f' floodStack' stack' :
  rect f ->
  floodNode canFlood fillingValue getContourValue f (x, y) floodStack stack
  = (f', floodStack', stack') ->
  let f1 := set f x y fillingValue in
  shaded getContourValue dry f1 f'
  /\ exists pushed new,
      floodStack' = pushed ++ floodStack /\ stack' = new ++ stack
      /\ (length pushed <= 4)%nat
      /\ Forall (fun n => insideCell f1 n = true /\ canFlood (getCell f1 n) = true
                          /\ exists delta, In delta deltas /\ n = neighbor (x, y) delta)
                pushed
      /\ (forall delta, In delta deltas ->
                        insideCell f1 (neighbor (x, y) delta) = true ->
                        canFlood (getCell f1 (neighbor (x, y) delta)) = true ->
                        In (neighbor (x, y) delta) pushed)
      /\ Forall (fun node => originX node = x /\ originY node = y) new.
Proof.
  intros Hr E. unfold floodNode in E.
  apply (floodNeighbors_spec canFlood getContourValue contour_keeps_dry) in E;
    [exact E|now apply set_rect].
Qed.

(** The filling value is not one that can be flooded: so it is for
    [fillFrom], whose filling value is at least [valueMax]. *)
Hypothesis filling_is_dry : canFlood fillingValue = false.

Lemma floodable_set_le f x y :
  rect f ->
  (floodable canFlood (set f x y fillingValue) <= floodable canFlood f)%nat.
Proof.
  intros Hr. unfold floodable. rewrite set_cells. apply filter_length_le.
  intros [cx cy] Hc. apply in_cells in Hc. unfold getCell. cbn [fst snd].
  destruct (Z.eq_dec x cx) as [->|Hx]; [destruct (Z.eq_dec y cy) as [->|Hy]|].
  - rewrite get_set_same by assumption. congruence.
  - rewrite get_set_other; trivial. congruence.
  - rewrite get_set_other; trivial. congruence.
Qed.

Lemma floodable_set_lt f x y :
  rect f -> isInside f x y = true -> canFlood (get f x y) = true ->
  (floodable canFlood (set f x y fillingValue) < floodable canFlood f)%nat.
Proof.
  intros Hr Hin Hc. unfold floodable. rewrite set_cells.
  apply filter_length_lt with (a0 := (x, y)).
  - intros [cx cy] Hc'. apply in_cells in Hc'. unfold getCell. cbn [fst snd].
    destruct (Z.eq_dec x cx) as [->|Hx]; [destruct (Z.eq_dec y cy) as [->|Hy]|].
    + rewrite get_set_same by assumption. congruence.
    + rewrite get_set_other; trivial. congruence.
    + rewrite get_set_other; trivial. congruence.
  - now apply in_cells.
  - exact Hc.
  - unfold getCell. cbn [fst snd]. now rewrite get_set_same.
Qed.

Lemma floodable_shaded f f' :
  rect f -> shaded getContourValue dry f f' ->
  floodable canFlood f' = floodable canFlood f.
Proof.
  intros Hr H. unfold floodable. rewrite (shaded_cells _ _ _ _ H).
  f_equal. apply filter_ext_in. intros [cx cy] Hc. apply in_cells in Hc.
  unfold getCell. cbn [fst snd].
  now apply (shaded_floodable canFlood getContourValue contour_keeps_dry).
Qed.

Lemma floodable_bound f : (floodable canFlood f <= length (cells f))%nat.
Proof. apply filter_length_bound. Qed.

(** One turn of the loop keeps the stack inside the grid and lowers the
    variant. *)
Lemma floodNode_decreases f c floodStack stack f' floodStack' stack' :
  rect f -> Forall (fun c => insideCell f c = true) (c :: floodStack) ->
  floodNode canFlood fillingValue getContourValue f c floodStack stack
  = (f', floodStack', stack') ->
  rect f'
  /\ Forall (fun c => insideCell f' c = true) floodStack'
  /\ (floodMeasure canFlood f' floodStack' < floodMeasure canFlood f (c :: floodStack))%nat.
Proof.
  intros Hr Hstack E. destruct c as [x y].
  inversion Hstack as [|? ? Hc Hrest]; subst. unfold insideCell in Hc.
  cbn [fst snd] in Hc.
  destruct (floodNode_spec _ _ _ _ _ _ _ _ Hr E)
    as (Hs & pushed & new & -> & -> & Hlen & Hpushed & _ & _).
  cbn zeta in Hs, Hpushed.
  set (f1 := set f x y fillingValue) in *.
  assert (Hr1 : rect f1) by (now apply set_rect).
  assert (Hin' : forall n, insideCell f' n = insideCell f n).
  { intros n. unfold insideCell. rewrite (shaded_isInside _ _ _ _ _ _ Hs).
    apply set_isInside. }
  assert (HU : floodable canFlood f' = floodable canFlood f1)
    by (now apply floodable_shaded).
  split; [now apply (shaded_dims _ _ _ _ Hs)|]. split.
  { apply Forall_app. split.
    - eapply Forall_impl; [|exact Hpushed]. intros n (Hn & _).
      rewrite Hin'. unfold insideCell, f1 in *. now rewrite set_isInside in Hn.
    - eapply Forall_impl; [|exact Hrest]. intros n Hn. now rewrite Hin'. }
  assert (Htop : pushed <> [] -> staleTop canFlood f' (pushed ++ floodStack) = 0%nat).
  { destruct pushed as [|n pushed]; [congruence|]. intros _.
    inversion Hpushed as [|? ? (Hn1 & Hn2 & _) _]; subst.
    cbn [staleTop app]. unfold getCell, insideCell in *.
    now rewrite (shaded_floodable canFlood getContourValue contour_keeps_dry
                                  f1 f' _ _ Hr1 Hs Hn1), Hn2. }
  assert (Hflag : (staleTop canFlood f' (pushed ++ floodStack) <= 1)%nat).
  { unfold staleTop. destruct (pushed ++ floodStack) as [|n ?]; [lia|].
    destruct (canFlood (getCell f' n)); lia. }
  unfold floodMeasure. rewrite HU, length_app. cbn [length staleTop].
  unfold getCell. cbn [fst snd].
  destruct (canFlood (get f x y)) eqn:Hfresh.
  - assert (Hlt := floodable_set_lt f x y Hr Hc Hfresh). fold f1 in Hlt. lia.
  - assert (Hle := floodable_set_le f x y Hr). fold f1 in Hle.
    destruct pushed as [|n pushed].
    + cbn [length app] in *. lia.
    + rewrite Htop by congruence. lia.
Qed.

Lemma floodLoop_terminates fuel :
  forall f floodStack stack,
    rect f -> Forall (fun c => insideCell f c = true) floodStack ->
    (floodMeasure canFlood f floodStack <= fuel)%nat ->
    exists result,
      floodLoop canFlood fillingValue getContourValue fuel f floodStack stack
      = Some result.
Proof.
  induction fuel as [|fuel IH]; intros f floodStack stack Hr Hstack Hm.
  - destruct floodStack as [|c floodStack]; [eexists; reflexivity|].
    unfold floodMeasure in Hm. cbn [length] in Hm. lia.
  - destruct floodStack as [|c floodStack]; [eexists; reflexivity|].
    cbn [floodLoop].
    destruct (floodNode canFlood fillingValue getContourValue f c floodStack stack)
      as [[f' floodStack'] stack'] eqn:E.
    destruct (floodNode_decreases _ _ _ _ _ _ _ Hr Hstack E) as (Hr' & Hstack' & Hlt).
    apply IH; trivial. lia.
Qed.

End FloodLoop.

(** An invariant of the turns of the flood loop holds of its result. *)
Lemma floodLoop_invariant canFlood fillingValue getContourValue
      (Inv : t -> list Node -> list ContourNode -> Prop) :
  (forall f c floodStack stack f' floodStack' stack',
      Inv f (c :: floodStack) stack ->
      floodNode canFlood fillingValue getContourValue f c floodStack stack
      = (f', floodStack', stack') ->
      Inv f' floodStack' stack') ->
  forall fuel f floodStack stack f' stack',
    Inv f floodStack stack ->
    floodLoop canFlood fillingValue getContourValue fuel f floodStack stack
    = Some (f', stack') ->
    Inv f' [] stack'.
Proof.
  intros Hstep. induction fuel as [|fuel IH]; intros f floodStack stack f' stack' HI E.
  - destruct floodStack; [|discriminate]. inversion E; subst. exact HI.
  - destruct floodStack as [|c floodStack]; [inversion E; subst; exact HI|].
    cbn [floodLoop] in E.
    destruct (floodNode canFlood fillingValue getContourValue f c floodStack stack)
      as [[f1 floodStack1] stack1] eqn:E1.
    eapply IH; [|exact E]. eapply Hstep; eauto.
Qed.

(** ** FloodFill: the shading ends *)

Section Shading.

Variable getContourValue : GetContourValue.

Let any (v : Q) : Prop := True.

(** A value that a cell accepted from a seed is not accepted twice, and
    a cell accepts, after a write, only what it would have accepted
    before: the writes of [fillFrom] raise the value of the cell and
    those of [unfillFrom] lower it. *)
Hypothesis accepted_once :
  forall v d v', getContourValue v d = Some v' -> getContourValue v' d = None.
Hypothesis accepted_before :
  forall v d v' d', getContourValue v d = Some v' ->
                    getContourValue v' d' <> None -> getContourValue v d' <> None.

Lemma admissible_set_lt f x y originX originY v :
  rect f -> isInside f x y = true -> isInside f originX originY = true ->
  getContourValue (get f x y) (contourDistanceSq x y originX originY) = Some v ->
  (admissible getContourValue (set f x y v) < admissible getContourValue f)%nat.
Proof.
  intros Hr Hin Ho Hv. unfold admissible. rewrite set_cells.
  apply filter_length_lt with (a0 := ((x, y), (originX, originY))).
  - intros [[cx cy] [ox oy]] Hp. apply in_prod_iff in Hp. destruct Hp as [Hc _].
    apply in_cells in Hc. unfold admits, getCell. cbn [fst snd].
    destruct (Z.eq_dec x cx) as [->|Hx]; [destruct (Z.eq_dec y cy) as [->|Hy]|].
    + rewrite get_set_same by assumption. intros H.
      destruct (getContourValue (get f cx cy) (contourDistanceSq cx cy ox oy))
        eqn:E; trivial.
      exfalso. apply (accepted_before _ _ _ (contourDistanceSq cx cy ox oy) Hv);
        trivial.
      destruct (getContourValue v (contourDistanceSq cx cy ox oy)); congruence.
    + rewrite get_set_other; trivial. congruence.
    + rewrite get_set_other; trivial. congruence.
  - apply in_prod; now apply in_cells.
  - unfold admits, getCell. cbn [fst snd]. now rewrite Hv.
  - unfold admits, getCell. cbn [fst snd]. rewrite get_set_same by assumption.
    now rewrite (accepted_once _ _ _ Hv).
Qed.

(** What a call of [checkAnAddContourNode] with a seed of the grid does
    to the state of the shading, and so do the loops made of such
    calls: the grid is [shaded], every node added to the stack is paid
    by the variant, and the seeds stay in the grid. *)
Let progress (f : t) (stack : list ContourNode) (f' : t) (stack' : list ContourNode)
  : Prop :=
  shaded getContourValue any f f'
  /\ (admissible getContourValue f' + length stack'
      <= admissible getContourValue f + length stack)%nat
  /\ (Forall (originInside f) stack -> Forall (originInside f') stack').

Lemma progress_refl f stack : progress f stack f stack.
Proof. split; [apply shaded_refl|]. split; [lia|trivial]. Qed.

Lemma progress_trans f1 s1 f2 s2 f3 s3 :
  progress f1 s1 f2 s2 -> progress f2 s2 f3 s3 -> progress f1 s1 f3 s3.
Proof.
  intros (Ha & Hb & Hc) (Ha' & Hb' & Hc').
  split; [eapply shaded_trans; eauto|]. split; [lia|auto].
Qed.

Lemma checkAnAddContourNode_progress f stack nodeX nodeY originX originY f' stack' :
  rect f -> isInside f originX originY = true ->
  checkAnAddContourNode getContourValue f stack nodeX nodeY originX originY
  = (f', stack') ->
  progress f stack f' stack'.
Proof.
  intros Hr Ho E.
  destruct (checkAnAddContourNode_cases getContourValue f stack
                                        nodeX nodeY originX originY)
    as [E'|(v & Hin & Hv & E')]; rewrite E' in E; inversion E; subst.
  - apply progress_refl.
  - split; [now apply shaded_one with (originX := originX) (originY := originY)|].
    split.
    + assert (Hlt := admissible_set_lt f nodeX nodeY originX originY v Hr Hin Ho Hv).
      cbn [length]. lia.
    + intros Hs. constructor.
      * unfold originInside. cbn [FloodFill.originX FloodFill.originY].
        now rewrite set_isInside.
      * eapply Forall_impl; [|exact Hs]. intros node Hn.
        unfold originInside in *. now rewrite set_isInside.
Qed.

Lemma shadeNeighbors_progress node ds :
  forall f stack f' stack',
    rect f -> originInside f node ->
    fold_left (shadeNeighbor getContourValue node) ds (f, stack) = (f', stack') ->
    progress f stack f' stack'.
Proof.
  induction ds as [|delta ds IH]; intros f stack f' stack' Hr Ho E.
  - cbn [fold_left] in E. inversion E; subst. apply progress_refl.
  - cbn [fold_left] in E.
    destruct (shadeNeighbor getContourValue node (f, stack) delta)
      as [f1 stack1] eqn:E1.
    unfold shadeNeighbor in E1.
    apply checkAnAddContourNode_progress in E1; trivial.
    apply progress_trans with (1 := E1).
    destruct E1 as (Hs & _). apply IH; trivial.
    + now apply (shaded_dims _ _ _ _ Hs).
    + unfold originInside in *. now rewrite (shaded_isInside _ _ _ _ _ _ Hs).
Qed.

Lemma shadeNode_progress node f stack f' stack' :
  rect f -> originInside f node ->
  shadeNode getContourValue (f, stack) node = (f', stack') ->
  progress f stack f' stack'.
Proof.
  intros Hr Ho E. unfold shadeNode in E.
  destruct (Qltb (value node) (get f (x node) (y node))).
  - inversion E; subst. apply progress_refl.
  - eapply shadeNeighbors_progress; eauto.
Qed.

Lemma shadeNodes_progress nodes :
  forall f stack f' stack',
    rect f -> Forall (originInside f) nodes ->
    fold_left (shadeNode getContourValue) nodes (f, stack) = (f', stack') ->
    progress f stack f' stack'.
Proof.
  induction nodes as [|node nodes IH]; intros f stack f' stack' Hr Ho E.
  - cbn [fold_left] in E. inversion E; subst. apply progress_refl.
  - cbn [fold_left] in E.
    destruct (shadeNode getContourValue (f, stack) node) as [f1 stack1] eqn:E1.
    inversion Ho as [|? ? Hnode Hnodes]; subst.
    apply shadeNode_progress in E1; trivial.
    apply progress_trans with (1 := E1).
    destruct E1 as (Hs & _). apply IH; trivial.
    + now apply (shaded_dims _ _ _ _ Hs).
    + eapply Forall_impl; [|exact Hnodes]. intros n Hn.
      unfold originInside in *. now rewrite (shaded_isInside _ _ _ _ _ _ Hs).
Qed.

Lemma shadeLoop_terminates fuel :
  forall f contourStack,
    rect f -> Forall (originInside f) contourStack ->
    (admissible getContourValue f + 1 <= fuel)%nat ->
    exists f', shadeLoop getContourValue fuel f contourStack = Some f'
               /\ shaded getContourValue any f f'.
Proof.
  induction fuel as [|fuel IH]; intros f contourStack Hr Ho Hfuel; [lia|].
  destruct contourStack as [|node contourStack].
  { exists f. split; [reflexivity|apply shaded_refl]. }
  cbn [shadeLoop].
  destruct (fold_left (shadeNode getContourValue) (node :: contourStack) (f, []))
    as [f1 next] eqn:E.
  apply shadeNodes_progress in E; trivial.
  destruct E as (Hs & Hpot & Hnext).
  assert (Hr1 : rect f1) by (now apply (shaded_dims _ _ _ _ Hs)).
  destruct next as [|node1 next].
  { exists f1. split; [destruct fuel; reflexivity|exact Hs]. }
  destruct (IH f1 (node1 :: next) Hr1 (Hnext (Forall_nil _))) as (f' & E' & Hs').
  { cbn [length] in Hpot. lia. }
  exists f'. split; [exact E'|]. eapply shaded_trans; eauto.
Qed.

Lemma admissible_bound f :
  (admissible getContourValue f <= length (cells f) * length (cells f))%nat.
Proof.
  unfold admissible. rewrite <- length_prod. apply filter_length_bound.
Qed.

End Shading.

(** ** FloodFill: the flood and the shading, chained *)

Lemma isInside_dims f f' x y :
  dimX f' = dimX f -> dimY f' = dimY f -> isInside f' x y = isInside f x y.
Proof. intros H1 H2. unfold isInside. now rewrite H1, H2. Qed.

Lemma cells_dims f f' : dimX f' = dimX f -> dimY f' = dimY f -> cells f' = cells f.
Proof. intros H1 H2. unfold cells. now rewrite H1, H2. Qed.

Section FloodAndShade.

Variable canFlood : Q -> bool.
Variable fillingValue : Q.
Variable getContourValue : GetContourValue.

Hypothesis contour_keeps_dry :
  forall v d v', canFlood v = false -> getContourValue v d = Some v' ->
                 canFlood v' = false.

Lemma floodNode_floodState f0 f c floodStack stack f' floodStack' stack' :
  floodState f0 f (c :: floodStack) stack ->
  floodNode canFlood fillingValue getContourValue f c floodStack stack
  = (f', floodStack', stack') ->
  floodState f0 f' floodStack' stack'.
Proof.
  intros (Hr & HX & HY & Hfs & Hst) E. destruct c as [x y].
  inversion Hfs as [|? ? Hc Hrest]; subst.
  destruct (floodNode_spec canFlood fillingValue getContourValue contour_keeps_dry
                           _ _ _ _ _ _ _ _ Hr E)
    as (Hs & pushed & new & -> & -> & _ & Hpushed & _ & Hnew).
  cbn zeta in Hs, Hpushed.
  destruct (shaded_dims _ _ _ _ Hs) as (HX' & HY' & Hr').
  rewrite set_dimX in HX'. rewrite set_dimY in HY'.
  assert (Hin : forall a b, isInside f' a b = isInside f a b)
    by (intros; now apply isInside_dims).
  split; [apply Hr'; now apply set_rect|].
  split; [congruence|]. split; [congruence|]. split.
  - apply Forall_app. split.
    + eapply Forall_impl; [|exact Hpushed]. intros n (Hn & _).
      unfold insideCell in *. rewrite Hin. now rewrite set_isInside in Hn.
    + eapply Forall_impl; [|exact Hrest]. intros n Hn.
      unfold insideCell in *. now rewrite Hin.
  - apply Forall_app. split.
    + eapply Forall_impl; [|exact Hnew]. intros node [Hox Hoy].
      unfold originInside. rewrite Hox, Hoy, Hin. exact Hc.
    + eapply Forall_impl; [|exact Hst]. intros node Hn.
      unfold originInside in *. now rewrite Hin.
Qed.

(** An invariant of the flood loop that holds of the stacks that
    [floodFrom] starts from holds of its result. *)
Lemma floodFrom_invariant (Inv : t -> list Node -> list ContourNode -> Prop)
      fuel f originX originY f' stack' :
  (forall f c floodStack stack f' floodStack' stack',
      Inv f (c :: floodStack) stack ->
      floodNode canFlood fillingValue getContourValue f c floodStack stack
      = (f', floodStack', stack') ->
      Inv f' floodStack' stack') ->
  Inv f [] [] ->
  (isInside f (round originX) (round originY) = true ->
   canFlood (get f (round originX) (round originY)) = true ->
   Inv f [(round originX, round originY)] []) ->
  floodFrom canFlood fillingValue getContourValue fuel f originX originY
  = Some (f', stack') ->
  Inv f' [] stack'.
Proof.
  intros Hstep Hnil Hone E. unfold floodFrom in E.
  destruct (isInside f (round originX) (round originY)) eqn:Hin; cbn [negb] in E.
  - eapply floodLoop_invariant; [exact Hstep| |exact E].
    destruct (canFlood (get f (round originX) (round originY))); auto.
  - inversion E; subst. exact Hnil.
Qed.

Hypothesis filling_is_dry : canFlood fillingValue = false.

Lemma floodFrom_terminates fuel f originX originY :
  rect f -> (fuelFor f <= fuel)%nat ->
  exists f1 stack,
    floodFrom canFlood fillingValue getContourValue fuel f originX originY
    = Some (f1, stack)
    /\ floodState f f1 [] stack.
Proof.
  intros Hr Hfuel.
  assert (Hstate0 : floodState f f [] []).
  { repeat split; trivial; constructor. }
  assert (Hex : exists result,
             floodFrom canFlood fillingValue getContourValue fuel f originX originY
             = Some result).
  { unfold floodFrom.
    destruct (isInside f (round originX) (round originY)) eqn:Hin; cbn [negb];
      [|eexists; reflexivity].
    apply (floodLoop_terminates canFlood fillingValue getContourValue
                                contour_keeps_dry filling_is_dry); trivial.
    - destruct (canFlood (get f (round originX) (round originY)));
        repeat constructor. exact Hin.
    - assert (HU := floodable_bound canFlood f).
      unfold fuelFor in Hfuel. cbv zeta in Hfuel. unfold floodMeasure.
      assert (Hflag : forall l, (staleTop canFlood f l <= 1)%nat).
      { intros [|c l]; cbn [staleTop]; [lia|].
        destruct (canFlood (getCell f c)); lia. }
      destruct (canFlood (get f (round originX) (round originY)));
        [specialize (Hflag [(round originX, round originY)])|specialize (Hflag [])];
        cbn [length]; lia. }
  destruct Hex as ([f1 stack] & E). exists f1, stack. split; [exact E|].
  apply (floodFrom_invariant (floodState f) fuel f originX originY f1 stack);
    trivial.
  - intros. eapply floodNode_floodState; eauto.
  - intros Hin _. repeat split; trivial; repeat constructor. exact Hin.
Qed.

Hypothesis accepted_once :
  forall v d v', getContourValue v d = Some v' -> getContourValue v' d = None.
Hypothesis accepted_before :
  forall v d v' d', getContourValue v d = Some v' ->
                    getContourValue v' d' <> None -> getContourValue v d' <> None.

(** With enough fuel, the flood and then the shading end. *)
Lemma floodAndShade_terminates fuel f originX originY :
  rect f -> (fuelFor f <= fuel)%nat ->
  exists f1 stack f',
    floodFrom canFlood fillingValue getContourValue fuel f originX originY
    = Some (f1, stack)
    /\ floodAndShade canFlood fillingValue getContourValue fuel f originX originY
       = Some f'
    /\ floodState f f1 [] stack
    /\ shaded getContourValue (fun _ => True) f1 f'.
Proof.
  intros Hr Hfuel.
  destruct (floodFrom_terminates fuel f originX originY Hr Hfuel)
    as (f1 & stack & E & Hstate).
  destruct Hstate as (Hr1 & HX & HY & Hfs & Hst).
  destruct (shadeLoop_terminates getContourValue accepted_once accepted_before
                                 fuel f1 stack Hr1 Hst) as (f' & E' & Hs).
  { assert (Hb := admissible_bound getContourValue f1).
    rewrite (cells_dims f f1 HX HY) in Hb. unfold fuelFor in Hfuel.
    cbv zeta in Hfuel. lia. }
  exists f1, stack, f'. unfold floodAndShade, shadeContour. rewrite E.
  repeat split; trivial.
Qed.

End FloodAndShade.

(** ** FloodFill: [fillFrom] and [unfillFrom] *)

Lemma fillContourValue_some thickness cappingRadiusRatio v d v' :
  fillContourValue thickness cappingRadiusRatio v d = Some v' <->
  v' = (thickness * thickness / d)%Q
  /\ (v < v')%Q
  /\ (d < cappingRadiusRatio * thickness * (cappingRadiusRatio * thickness))%Q.
Proof.
  unfold fillContourValue. split.
  - destruct (Qltb v (thickness * thickness / d)) eqn:E1; [|discriminate].
    destruct (Qltb d (cappingRadiusRatio * thickness * (cappingRadiusRatio * thickness)))
      eqn:E2; [|discriminate].
    cbn [andb]. intros E. inversion E; subst.
    apply Qltb_lt in E1, E2. auto.
  - intros (-> & H1 & H2). apply Qltb_lt in H1, H2. now rewrite H1, H2.
Qed.

Lemma unfillContourValue_some thickness cappingRadiusRatio v d v' :
  unfillContourValue thickness cappingRadiusRatio v d = Some v' <->
  v' = (d / (thickness * thickness))%Q
  /\ (v' < v)%Q
  /\ (d < cappingRadiusRatio * thickness * (cappingRadiusRatio * thickness))%Q.
Proof.
  unfold unfillContourValue. split.
  - destruct (Qltb (d / (thickness * thickness)) v) eqn:E1; [|discriminate].
    destruct (Qltb d (cappingRadiusRatio * thickness * (cappingRadiusRatio * thickness)))
      eqn:E2; [|discriminate].
    cbn [andb]. intros E. inversion E; subst.
    apply Qltb_lt in E1, E2. auto.
  - intros (-> & H1 & H2). apply Qltb_lt in H1, H2. now rewrite H1, H2.
Qed.

Lemma option_not_none {A} (o : option A) : o <> None -> exists a, o = Some a.
Proof. destruct o; [eauto|congruence]. Qed.

Section FillFrom.

Variables valueMax thickness cappingRadiusRatio : Q.

Let canFlood (fieldValue : Q) : bool := Qltb fieldValue valueMax.
Let fillingValue : Q := fillFillingValue valueMax thickness.
Let getContourValue : GetContourValue := fillContourValue thickness cappingRadiusRatio.

Lemma fill_contour_keeps_dry v d v' :
  canFlood v = false -> getContourValue v d = Some v' -> canFlood v' = false.
Proof.
  unfold canFlood. intros H1 H2. apply Qltb_ge in H1. apply Qltb_ge.
  apply fillContourValue_some in H2. destruct H2 as (_ & H2 & _). lra.
Qed.

Lemma fill_filling_is_dry : canFlood fillingValue = false.
Proof. apply Qltb_ge. apply Q.le_max_l. Qed.

Lemma fill_accepted_once v d v' :
  getContourValue v d = Some v' -> getContourValue v' d = None.
Proof.
  intros H. apply fillContourValue_some in H. destruct H as (-> & _ & _).
  unfold getContourValue, fillContourValue.
  assert (E : Qltb (thickness * thickness / d) (thickness * thickness / d) = false).
  { apply Qltb_ge. apply Qle_refl. }
  now rewrite E.
Qed.

Lemma fill_accepted_before v d v' d' :
  getContourValue v d = Some v' ->
  getContourValue v' d' <> None -> getContourValue v d' <> None.
Proof.
  intros H H'. apply fillContourValue_some in H. destruct H as (_ & H & _).
  apply option_not_none in H'. destruct H' as (w & H').
  apply fillContourValue_some in H'. destruct H' as (-> & H1 & H2).
  assert (E : getContourValue v d' = Some (thickness * thickness / d')%Q).
  { apply fillContourValue_some. repeat split; trivial. lra. }
  congruence.
Qed.

(** The filling value is above every contour value: a distance is at
    least [2^-20]. *)
Lemma fill_contour_below_filling v d v' :
  (minDistanceSq <= d)%Q -> getContourValue v d = Some v' -> (v' <= fillingValue)%Q.
Proof.
  intros Hd H. apply fillContourValue_some in H. destruct H as (-> & _ & _).
  unfold fillingValue, fillFillingValue.
  apply Qle_trans with (2 := Q.le_max_r _ _).
  assert (Hpos : (0 < d)%Q).
  { apply Qlt_le_trans with (2 := Hd). exact minDistanceSq_pos. }
  apply Qle_shift_div_r; trivial.
  assert (E : (minDistanceSq == 1 # 1048576)%Q) by reflexivity.
  rewrite E in Hd.
  assert (H1 : (1 <= 1024 * 1024 * d)%Q) by lra.
  assert (H2 : (0 <= thickness * thickness)%Q) by nra.
  nra.
Qed.

End FillFrom.

Lemma fill_shaded_le thickness cappingRadiusRatio (P : Q -> Prop) f f' x y :
  rect f -> shaded (fillContourValue thickness cappingRadiusRatio) P f f' ->
  isInside f x y = true -> (get f x y <= get f' x y)%Q.
Proof.
  intros Hr Hs.
  apply (shaded_preserves (fillContourValue thickness cappingRadiusRatio) P Qle);
    trivial.
  - apply Qle_refl.
  - apply Qle_trans.
  - intros v d v' _ _ H. apply fillContourValue_some in H. apply Qlt_le_weak, H.
Qed.

Lemma fill_shaded_below valueMax thickness cappingRadiusRatio (P : Q -> Prop) f f' x y :
  rect f -> shaded (fillContourValue thickness cappingRadiusRatio) P f f' ->
  isInside f x y = true ->
  (get f x y <= fillFillingValue valueMax thickness)%Q ->
  (get f' x y <= fillFillingValue valueMax thickness)%Q.
Proof.
  intros Hr Hs.
  apply (shaded_preserves
           (fillContourValue thickness cappingRadiusRatio) P
           (fun v v' => (v <= fillFillingValue valueMax thickness)%Q ->
                        (v' <= fillFillingValue valueMax thickness)%Q));
    auto.
  intros v d v' _ Hd H _.
  eapply fill_contour_below_filling; eauto.
Qed.

(** C10.  [fillFrom] returns, and raises the field pointwise: on every
    grid, for every origin, [valueMax], thickness and capping ratio,
    every cell holds after the call at least the value it held before.
    The grid keeps its dimensions. *)
Theorem fillFrom_raises_every_cell (fuel : nat) (f : t)
        (originX originY valueMax thickness cappingRadiusRatio : Q) :
  rect f -> (fuelFor f <= fuel)%nat ->
  exists f',
    fillFrom fuel f originX originY valueMax thickness cappingRadiusRatio = Some f'
    /\ dimX f' = dimX f /\ dimY f' = dimY f
    /\ forall x y, isInside f x y = true -> (get f x y <= get f' x y)%Q.
Proof.
  intros Hr Hfuel.
  set (canFlood := fun fieldValue : Q => Qltb fieldValue valueMax).
  set (fillingValue := fillFillingValue valueMax thickness).
  set (getContourValue := fillContourValue thickness cappingRadiusRatio).
  assert (Hdry : forall v d v', canFlood v = false -> getContourValue v d = Some v' ->
                                canFlood v' = false)
    by (apply fill_contour_keeps_dry).
  destruct (floodAndShade_terminates
              canFlood fillingValue getContourValue Hdry
              (fill_filling_is_dry valueMax thickness)
              (fill_accepted_once thickness cappingRadiusRatio)
              (fill_accepted_before thickness cappingRadiusRatio)
              fuel f originX originY Hr Hfuel)
    as (f1 & stack & f' & E1 & E2 & Hstate & Hs).
  exists f'. split; [exact E2|].
  destruct Hstate as (Hr1 & HX1 & HY1 & _ & _).
  destruct (shaded_dims _ _ _ _ Hs) as (HX' & HY' & _).
  split; [congruence|]. split; [congruence|].
  set (Inv := fun (g : t) (floodStack : list Node) (stack : list ContourNode) =>
                floodState f g floodStack stack
                /\ (forall x y, isInside f x y = true -> (get f x y <= get g x y)%Q)
                /\ Forall (fun c => (getCell g c <= fillingValue)%Q) floodStack).
  assert (HInv : Inv f1 [] stack).
  { apply (floodFrom_invariant canFlood fillingValue getContourValue Inv
                               fuel f originX originY f1 stack); trivial.
    - clear. intros g [x y] floodStack stack g' floodStack' stack'
                    (Hstate & Hle & Hbelow) E.
      split; [eapply floodNode_floodState; eauto; apply fill_contour_keeps_dry|].
      destruct Hstate as (Hr & HX & HY & Hfs & _).
      inversion Hfs as [|? ? Hc _]; subst. unfold insideCell in Hc. cbn [fst snd] in Hc.
      inversion Hbelow as [|? ? Hcb Hrestb]; subst. unfold getCell in Hcb.
      cbn [fst snd] in Hcb.
      destruct (floodNode_spec canFlood fillingValue getContourValue
                               (fill_contour_keeps_dry valueMax thickness
                                                       cappingRadiusRatio)
                               _ _ _ _ _ _ _ _ Hr E)
        as (Hs & pushed & new & -> & _ & _ & Hpushed & _ & _).
      cbn zeta in Hs, Hpushed.
      assert (Hr1 : rect (set g x y fillingValue)) by (now apply set_rect).
      assert (Hin : forall a b, isInside (set g x y fillingValue) a b = isInside f a b).
      { intros. rewrite set_isInside. now apply isInside_dims. }
      assert (Hset : forall a b, isInside f a b = true ->
                                 (get g a b <= fillingValue)%Q ->
                                 (get (set g x y fillingValue) a b <= fillingValue)%Q).
      { intros a b Hab Hv.
        destruct (Z.eq_dec x a) as [->|Hx]; [destruct (Z.eq_dec y b) as [->|Hy]|].
        - rewrite get_set_same; trivial. apply Qle_refl.
        - rewrite get_set_other; trivial; [|congruence].
          now rewrite (isInside_dims f g) by assumption.
        - rewrite get_set_other; trivial; [|congruence].
          now rewrite (isInside_dims f g) by assumption. }
      split.
      + intros a b Hab. apply Qle_trans with (get (set g x y fillingValue) a b).
        * destruct (Z.eq_dec x a) as [->|Hx]; [destruct (Z.eq_dec y b) as [->|Hy]|].
          -- rewrite get_set_same; trivial.
             apply Qle_trans with (2 := Hcb). now apply Hle.
          -- rewrite get_set_other; [now apply Hle| |congruence].
             now rewrite (isInside_dims f g) by assumption.
          -- rewrite get_set_other; [now apply Hle| |congruence].
             now rewrite (isInside_dims f g) by assumption.
        * apply (fill_shaded_le _ _ _ _ _ _ _ Hr1 Hs). now rewrite Hin.
      + apply Forall_app. split.
        * eapply Forall_impl; [|exact Hpushed]. intros [a b] (Hn1 & Hn2 & _).
          unfold insideCell, getCell in *. cbn [fst snd] in *.
          apply (fill_shaded_below _ _ _ _ _ _ _ _ Hr1 Hs Hn1).
          unfold canFlood in Hn2. apply Qltb_lt in Hn2.
          apply Qle_trans with valueMax; [now apply Qlt_le_weak|apply Q.le_max_l].
        * rewrite Forall_forall in Hrestb, Hfs |- *. intros [a b] Hn.
          assert (Hab : isInside f a b = true).
          { rewrite <- (isInside_dims f g) by assumption.
            apply (Hfs (a, b)). now right. }
          unfold getCell. cbn [fst snd].
          apply (fill_shaded_below _ _ _ _ _ _ _ _ Hr1 Hs); [now rewrite Hin|].
          apply Hset; trivial. apply (Hrestb (a, b) Hn).
    - split; [repeat split; trivial; constructor|].
      split; [intros; apply Qle_refl|constructor].
    - intros Hin Hc. split; [repeat split; trivial; repeat constructor; exact Hin|].
      split; [intros; apply Qle_refl|].
      repeat constructor. unfold getCell. cbn [fst snd].
      unfold canFlood in Hc. apply Qltb_lt in Hc.
      apply Qle_trans with valueMax; [now apply Qlt_le_weak|apply Q.le_max_l]. }
  destruct HInv as (_ & Hle & _).
  intros x y Hxy. apply Qle_trans with (get f1 x y); [now apply Hle|].
  apply (fill_shaded_le _ _ _ _ _ _ _ Hr1 Hs).
  now rewrite (isInside_dims f f1).
Qed.

Lemma fillFrom_raises_every_cell_witness :
  exists f',
    fillFrom (fuelFor squareField) squareField 4 4 1 2 2 = Some f'
    /\ dimX f' = dimX squareField /\ dimY f' = dimY squareField
    /\ forall x y, isInside squareField x y = true ->
                   (get squareField x y <= get f' x y)%Q.
Proof.
  apply (fillFrom_raises_every_cell (fuelFor squareField) squareField 4 4 1 2 2).
  - unfold rect. repeat constructor.
  - apply Nat.le_refl.
Defined.

(** ** FloodFill: the flooded region *)

Lemma neighbor_other c delta : In delta deltas -> neighbor c delta <> c.
Proof.
  destruct c as [x y]. unfold neighbor, deltas. cbn [fst snd In].
  intros [<-|[<-|[<-|[<-|[]]]]] E; inversion E; lia.
Qed.

Lemma reachable_floodable canFlood f origin c :
  reachable canFlood f origin c ->
  insideCell f c = true /\ canFlood (getCell f c) = true.
Proof. intros H. destruct H; auto. Qed.

Section FloodRegion.

Variable canFlood : Q -> bool.
Variable fillingValue : Q.
Variable getContourValue : GetContourValue.

Hypothesis contour_keeps_dry :
  forall v d v', canFlood v = false -> getContourValue v d = Some v' ->
                 canFlood v' = false.
Hypothesis filling_is_dry : canFlood fillingValue = false.

(** No contour value is ever accepted: so it is with a thickness
    of [0]. *)
Hypothesis never_accepts :
  forall v d, (minDistanceSq <= d)%Q -> getContourValue v d = None.

Variable f : t.
Variable origin : Cell.

Hypothesis origin_inside : insideCell f origin = true.

(** The invariant of the flood: a cell holds its first value or, if it
    was reached, the filling value; the stack holds reached cells; the
    neighbours of a filled cell that could be flooded are filled or on
    the stack, and so is the origin. *)
Let region (g : t) (floodStack : list Node) (stack : list ContourNode) : Prop :=
  floodState f g floodStack stack
  /\ (forall c, insideCell f c = true ->
                getCell g c = getCell f c
                \/ (getCell g c = fillingValue /\ reachable canFlood f origin c))
  /\ Forall (reachable canFlood f origin) floodStack
  /\ (forall c delta,
         reachable canFlood f origin c -> getCell g c = fillingValue ->
         In delta deltas ->
         insideCell f (neighbor c delta) = true ->
         canFlood (getCell f (neighbor c delta)) = true ->
         getCell g (neighbor c delta) = fillingValue
         \/ In (neighbor c delta) floodStack)
  /\ (getCell g origin = fillingValue \/ In origin floodStack).

Lemma region_floodNode g c floodStack stack g' floodStack' stack' :
  region g (c :: floodStack) stack ->
  floodNode canFlood fillingValue getContourValue g c floodStack stack
  = (g', floodStack', stack') ->
  region g' floodStack' stack'.
Proof.
  intros (Hstate & Hcells & Hstack & Hclosed & Horigin) E.
  split; [eapply floodNode_floodState; eauto|].
  destruct Hstate as (Hr & HX & HY & Hfs & _).
  destruct c as [x y].
  inversion Hfs as [|? ? Hc _]; subst. unfold insideCell in Hc. cbn [fst snd] in Hc.
  inversion Hstack as [|? ? Hreach Hrest]; subst.
  destruct (floodNode_spec canFlood fillingValue getContourValue contour_keeps_dry
                           _ _ _ _ _ _ _ _ Hr E)
    as (Hs & pushed & new & -> & _ & _ & Hpushed & Hall & _).
  cbn zeta in Hs, Hpushed, Hall.
  apply shaded_none in Hs; [|intros; now apply never_accepts]. subst g'.
  assert (Hin : forall n, insideCell (set g x y fillingValue) n = insideCell f n).
  { intros n. unfold insideCell. rewrite set_isInside. now apply isInside_dims. }
  assert (Hing : forall n, insideCell g n = insideCell f n).
  { intros n. unfold insideCell. now apply isInside_dims. }
  assert (Hsame : getCell (set g x y fillingValue) (x, y) = fillingValue).
  { unfold getCell. cbn [fst snd]. now apply get_set_same. }
  assert (Hother : forall n, insideCell f n = true -> n <> (x, y) ->
                             getCell (set g x y fillingValue) n = getCell g n).
  { intros [a b] Hn Hne. unfold getCell. cbn [fst snd].
    apply get_set_other; [|congruence].
    rewrite <- Hing in Hn. exact Hn. }
  assert (Hkeep : forall n, insideCell f n = true -> getCell g n = fillingValue ->
                            getCell (set g x y fillingValue) n = fillingValue).
  { intros n Hn Hv. destruct (Z.eq_dec (fst n) x) as [Ex|Ex];
      [destruct (Z.eq_dec (snd n) y) as [Ey|Ey]|].
    - destruct n; cbn [fst snd] in *; subst. exact Hsame.
    - rewrite Hother; trivial. intros ->. now apply Ey.
    - rewrite Hother; trivial. intros ->. now apply Ex. }
  assert (Hfresh : forall n, insideCell f n = true -> n <> (x, y) ->
                             canFlood (getCell f n) = true ->
                             getCell g n = fillingValue
                             \/ canFlood (getCell (set g x y fillingValue) n) = true).
  { intros n Hn Hne Hc'. destruct (Hcells n Hn) as [Hv|[Hv _]]; [|now left].
    right. rewrite Hother; trivial. now rewrite Hv. }
  split; [|split; [|split]].
  - intros n Hn. destruct (Z.eq_dec (fst n) x) as [Ex|Ex];
      [destruct (Z.eq_dec (snd n) y) as [Ey|Ey]|].
    + destruct n; cbn [fst snd] in *; subst. right. split; assumption.
    + rewrite Hother; [auto|trivial|]. intros ->. now apply Ey.
    + rewrite Hother; [auto|trivial|]. intros ->. now apply Ex.
  - apply Forall_app. split; trivial.
    eapply Forall_impl; [|exact Hpushed]. intros n (Hn1 & Hn2 & delta & Hd & ->).
    rewrite Hin in Hn1.
    apply reachable_step; trivial.
    destruct (Hcells _ Hn1) as [Hv|[Hv _]].
    + rewrite <- Hv. rewrite <- (Hother _ Hn1); trivial. now apply neighbor_other.
    + rewrite (Hkeep _ Hn1 Hv) in Hn2. congruence.
  - intros c delta Hc' Hv Hd Hn Hfl.
    destruct (Z.eq_dec (fst c) x) as [Ex|Ex];
      [destruct (Z.eq_dec (snd c) y) as [Ey|Ey]|].
    + destruct c; cbn [fst snd] in *; subst.
      destruct (Hfresh _ Hn (neighbor_other _ _ Hd) Hfl) as [Hfilled|Hcan].
      * left. now apply Hkeep.
      * right. apply in_or_app. left. apply Hall; trivial. now rewrite Hin.
    + assert (Hne : c <> (x, y)) by (intros ->; now apply Ey).
      rewrite Hother in Hv; trivial; [|apply (reachable_floodable _ _ _ _ Hc')].
      destruct (Hclosed c delta Hc' Hv Hd Hn Hfl) as [Hfilled|[<-|Hin']].
      * left. now apply Hkeep.
      * left. exact Hsame.
      * right. apply in_or_app. now right.
    + assert (Hne : c <> (x, y)) by (intros ->; now apply Ex).
      rewrite Hother in Hv; trivial; [|apply (reachable_floodable _ _ _ _ Hc')].
      destruct (Hclosed c delta Hc' Hv Hd Hn Hfl) as [Hfilled|[<-|Hin']].
      * left. now apply Hkeep.
      * left. exact Hsame.
      * right. apply in_or_app. now right.
  - destruct Horigin as [Hv|[<-|Hin']].
    + left. now apply Hkeep.
    + left. exact Hsame.
    + right. apply in_or_app. now right.
Qed.

Lemma region_result g stack :
  region g [] stack ->
  forall c, insideCell f c = true ->
            (reachable canFlood f origin c -> getCell g c = fillingValue)
            /\ (~ reachable canFlood f origin c -> getCell g c = getCell f c).
Proof.
  intros (_ & Hcells & _ & Hclosed & Horigin) c Hc. split.
  - intros Hreach. clear Hc.
    induction Hreach as [Hin Hfl|c delta Hreach IH Hd Hin Hfl].
    + destruct Horigin as [Hv|[]]. exact Hv.
    + destruct (Hclosed c delta Hreach IH Hd Hin Hfl) as [Hv|[]]. exact Hv.
  - intros Hnot. destruct (Hcells c Hc) as [Hv|[_ Hreach]]; [exact Hv|].
    contradiction.
Qed.

Lemma floodLoop_region fuel f1 stack :
  rect f -> canFlood (getCell f origin) = true ->
  floodLoop canFlood fillingValue getContourValue fuel f [origin] []
  = Some (f1, stack) ->
  forall c, insideCell f c = true ->
            (reachable canFlood f origin c -> getCell f1 c = fillingValue)
            /\ (~ reachable canFlood f origin c -> getCell f1 c = getCell f c).
Proof.
  intros Hr Hfl E. apply region_result with (stack := stack).
  apply (floodLoop_invariant canFlood fillingValue getContourValue region
                             region_floodNode _ _ _ _ _ _) with (2 := E).
  assert (Hreach : reachable canFlood f origin origin)
    by (now apply reachable_origin).
  split; [repeat split; trivial; repeat constructor; exact origin_inside|].
  split; [intros; now left|].
  split; [constructor; [exact Hreach|constructor]|].
  split; [|right; now left].
  intros c delta Hc' Hv _ _ _. exfalso.
  destruct (reachable_floodable _ _ _ _ Hc') as [_ Hfl'].
  rewrite Hv in Hfl'. congruence.
Qed.

End FloodRegion.

Lemma fill_never_accepts cappingRadiusRatio v d :
  (minDistanceSq <= d)%Q -> fillContourValue 0 cappingRadiusRatio v d = None.
Proof.
  intros Hd.
  destruct (fillContourValue 0 cappingRadiusRatio v d) as [v'|] eqn:E; trivial.
  apply fillContourValue_some in E. destruct E as (_ & _ & H).
  assert (Hpos := minDistanceSq_pos). exfalso. nra.
Qed.

(** C1.  On every grid, [fillFrom originX originY 1 0 1] whose rounded
    origin is a cell of the grid that holds less than [1] returns, with
    every cell that is 4-connected to the rounded origin through cells
    holding less than [1] set to the filling value
    [max valueMax (thickness^2 * 2^20)], here [1], and every other cell
    left with the value it had. *)
Theorem fillFrom_floods_region (fuel : nat) (f : t) (originX originY : Q) :
  let origin := (round originX, round originY) in
  let canFlood := fun fieldValue : Q => Qltb fieldValue 1 in
  rect f -> isInside f (round originX) (round originY) = true ->
  (get f (round originX) (round originY) < 1)%Q ->
  (fuelFor f <= fuel)%nat ->
  exists f',
    fillFrom fuel f originX originY 1 0 1 = Some f'
    /\ dimX f' = dimX f /\ dimY f' = dimY f
    /\ forall x y,
        isInside f x y = true ->
        (reachable canFlood f origin (x, y) -> get f' x y = fillFillingValue 1 0)
        /\ (~ reachable canFlood f origin (x, y) -> get f' x y = get f x y).
Proof.
  intros origin canFlood Hr Hin Hlt Hfuel.
  destruct (floodAndShade_terminates
              canFlood (fillFillingValue 1 0) (fillContourValue 0 1)
              (fill_contour_keeps_dry 1 0 1) (fill_filling_is_dry 1 0)
              (fill_accepted_once 0 1) (fill_accepted_before 0 1)
              fuel f originX originY Hr Hfuel)
    as (f1 & stack & f' & E1 & E2 & Hstate & Hs).
  apply shaded_none in Hs; [|intros; now apply fill_never_accepts]. subst f'.
  exists f1. split; [exact E2|].
  destruct Hstate as (_ & HX & HY & _).
  split; [exact HX|]. split; [exact HY|].
  assert (Hfl : canFlood (getCell f origin) = true) by (now apply Qltb_lt).
  unfold floodFrom in E1. rewrite Hin in E1. cbn [negb] in E1.
  unfold getCell, origin in Hfl. cbn [fst snd] in Hfl. rewrite Hfl in E1.
  intros x y Hxy.
  apply (floodLoop_region canFlood (fillFillingValue 1 0) (fillContourValue 0 1)
                          (fill_contour_keeps_dry 1 0 1) (fill_filling_is_dry 1 0)
                          (fun v d Hd => fill_never_accepts 1 v d Hd)
                          f origin Hin fuel f1 stack Hr Hfl E1 (x, y) Hxy).
Qed.

Lemma fillFrom_floods_region_witness :
  exists f',
    fillFrom (fuelFor squareField) squareField 4 4 1 0 1 = Some f'
    /\ dimX f' = dimX squareField /\ dimY f' = dimY squareField
    /\ forall x y,
        isInside squareField x y = true ->
        (reachable (fun fieldValue : Q => Qltb fieldValue 1) squareField
                   (round 4, round 4) (x, y) ->
         get f' x y = fillFillingValue 1 0)
        /\ (~ reachable (fun fieldValue : Q => Qltb fieldValue 1) squareField
                        (round 4, round 4) (x, y) ->
            get f' x y = get squareField x y).
Proof.
  apply (fillFrom_floods_region (fuelFor squareField) squareField 4 4).
  - unfold rect. repeat constructor.
  - reflexivity.
  - reflexivity.
  - apply Nat.le_refl.
Defined.

(** The test "can fill a square": the sixteen cells inside the square
    of ones are set to [1], the filling value, and the ones and the zeros
    outside are as they were. *)
Example fillFrom_squareField :
  fillFrom 100 squareField 4 4 1 0 1 = Some squareFieldFilled.
Proof. vm_compute. reflexivity. Qed.

(** ** FloodFill: termination *)

(** [fillFrom] returns on every grid and for all arguments. *)
Lemma fillFrom_terminates (fuel : nat) (f : t)
      (originX originY valueMax thickness cappingRadiusRatio : Q) :
  rect f -> (fuelFor f <= fuel)%nat ->
  exists f',
    fillFrom fuel f originX originY valueMax thickness cappingRadiusRatio = Some f'.
Proof.
  intros Hr Hfuel.
  destruct (floodAndShade_terminates
              (fun fieldValue : Q => Qltb fieldValue valueMax)
              (fillFillingValue valueMax thickness)
              (fillContourValue thickness cappingRadiusRatio)
              (fill_contour_keeps_dry valueMax thickness cappingRadiusRatio)
              (fill_filling_is_dry valueMax thickness)
              (fill_accepted_once thickness cappingRadiusRatio)
              (fill_accepted_before thickness cappingRadiusRatio)
              fuel f originX originY Hr Hfuel)
    as (f1 & stack & f' & _ & E & _).
  now exists f'.
Qed.

Section UnfillFrom.

Variables valueMin thickness cappingRadiusRatio : Q.

Let canFlood (fieldValue : Q) : bool := Qltb valueMin fieldValue.
Let getContourValue : GetContourValue := unfillContourValue thickness cappingRadiusRatio.

Lemma unfill_contour_keeps_dry v d v' :
  canFlood v = false -> getContourValue v d = Some v' -> canFlood v' = false.
Proof.
  unfold canFlood. intros H1 H2. apply Qltb_ge in H1. apply Qltb_ge.
  apply unfillContourValue_some in H2. destruct H2 as (_ & H2 & _). lra.
Qed.

Lemma unfill_accepted_once v d v' :
  getContourValue v d = Some v' -> getContourValue v' d = None.
Proof.
  intros H. apply unfillContourValue_some in H. destruct H as (-> & _ & _).
  unfold getContourValue, unfillContourValue.
  assert (E : Qltb (d / (thickness * thickness)) (d / (thickness * thickness)) = false).
  { apply Qltb_ge. apply Qle_refl. }
  now rewrite E.
Qed.

Lemma unfill_accepted_before v d v' d' :
  getContourValue v d = Some v' ->
  getContourValue v' d' <> None -> getContourValue v d' <> None.
Proof.
  intros H H'. apply unfillContourValue_some in H. destruct H as (_ & H & _).
  apply option_not_none in H'. destruct H' as (w & H').
  apply unfillContourValue_some in H'. destruct H' as (-> & H1 & H2).
  assert (E : getContourValue v d' = Some (d' / (thickness * thickness))%Q).
  { apply unfillContourValue_some. repeat split; trivial. lra. }
  congruence.
Qed.

(** [unfillFrom] returns when [valueMin] is not negative: the cells it
    has set to [0] cannot be flooded again. *)
Lemma unfillFrom_terminates (fuel : nat) (f : t) (originX originY : Q) :
  (0 <= valueMin)%Q -> rect f -> (fuelFor f <= fuel)%nat ->
  exists f',
    unfillFrom fuel f originX originY valueMin thickness cappingRadiusRatio = Some f'.
Proof.
  intros Hmin Hr Hfuel.
  assert (Hdry : canFlood 0 = false) by (now apply Qltb_ge).
  destruct (floodAndShade_terminates
              canFlood 0%Q getContourValue unfill_contour_keeps_dry Hdry
              unfill_accepted_once unfill_accepted_before
              fuel f originX originY Hr Hfuel)
    as (f1 & stack & f' & _ & E & _).
  now exists f'.
Qed.

End UnfillFrom.

(** On [hangField], with a [valueMin] of [-1], a cell set to [0] can be
    flooded again: each of the two cells puts the other one back on the
    flood stack, for ever. *)
Lemma unfill_flood_spins (fuel : nat) :
  forall floodStack,
    floodLoop (fun fieldValue => Qltb (-1) fieldValue) 0 (unfillContourValue 1 1)
              fuel hangField ((0, 0) :: floodStack) [] = None
    /\ floodLoop (fun fieldValue => Qltb (-1) fieldValue) 0 (unfillContourValue 1 1)
                 fuel hangField ((1, 0) :: floodStack) [] = None.
Proof.
  induction fuel as [|fuel IH]; intros floodStack; [split; reflexivity|].
  cbn [floodLoop].
  assert (E0 : floodNode (fun fieldValue => Qltb (-1) fieldValue) 0
                         (unfillContourValue 1 1) hangField (0, 0) floodStack []
               = (hangField, (1, 0) :: floodStack, [])) by reflexivity.
  assert (E1 : floodNode (fun fieldValue => Qltb (-1) fieldValue) 0
                         (unfillContourValue 1 1) hangField (1, 0) floodStack []
               = (hangField, (0, 0) :: floodStack, [])) by reflexivity.
  rewrite E0, E1. split; apply IH.
Qed.

(** C2 fails for [unfillFrom]: on a row of two cells at [0], the call
    [unfillFrom 0 0 (-1) 1 1] has not returned after any number of turns
    of its flood loop. *)
Theorem unfillFrom_negative_valueMin_never_returns (fuel : nat) :
  unfillFrom fuel hangField 0 0 (-1) 1 1 = None.
Proof.
  unfold unfillFrom, floodAndShade.
  assert (E : floodFrom (fun fieldValue => Qltb (-1) fieldValue) 0
                        (unfillContourValue 1 1) fuel hangField 0 0
              = floodLoop (fun fieldValue => Qltb (-1) fieldValue) 0
                          (unfillContourValue 1 1) fuel hangField [(0, 0)] [])
    by reflexivity.
  rewrite E. now rewrite (proj1 (unfill_flood_spins fuel [])).
Qed.

(** ** FloodFill: an origin that cannot be flooded *)

Lemma floodAndShade_dry_origin canFlood fillingValue getContourValue fuel f originX originY :
  isInside f (round originX) (round originY) = false
  \/ canFlood (get f (round originX) (round originY)) = false ->
  floodAndShade canFlood fillingValue getContourValue fuel f originX originY = Some f.
Proof.
  intros H. unfold floodAndShade, floodFrom, shadeContour.
  destruct (isInside f (round originX) (round originY)) eqn:Hin; cbn [negb].
  - destruct H as [H|H]; [discriminate|]. rewrite H.
    destruct fuel; reflexivity.
  - destruct fuel; reflexivity.
Qed.

Lemma fillFrom_dry_origin fuel f originX originY valueMax thickness
      cappingRadiusRatio :
  isInside f (round originX) (round originY) = false
  \/ (valueMax <= get f (round originX) (round originY))%Q ->
  fillFrom fuel f originX originY valueMax thickness cappingRadiusRatio = Some f.
Proof.
  intros H. unfold fillFrom. apply floodAndShade_dry_origin.
  destruct H as [H|H]; [now left|right]. now apply Qltb_ge.
Qed.

(** X1.  When the rounded origin is not a cell of the grid, or is a cell
    that holds [valueMax] or more, [fillFrom] returns at once and leaves
    the grid as it is, whatever the grid and the other arguments. *)
Theorem fillFrom_dry_origin_unchanged (fuel : nat) (f : t)
        (originX originY valueMax thickness cappingRadiusRatio : Q) :
  isInside f (round originX) (round originY) = false
  \/ (valueMax <= get f (round originX) (round originY))%Q ->
  fillFrom fuel f originX originY valueMax thickness cappingRadiusRatio = Some f.
Proof.
  intros H. now apply fillFrom_dry_origin.
Qed.

Lemma fillFrom_dry_origin_unchanged_witness :
  fillFrom 0 squareField 2 1 1 2 2 = Some squareField.
Proof.
  apply (fillFrom_dry_origin_unchanged 0 squareField 2 1 1 2 2).
  right. vm_compute. discriminate.
Defined.

(** ** FloodFill: filling twice *)

Section FillTwice.

Variables valueMax thickness cappingRadiusRatio : Q.
Variable f : t.
Variable origin : Cell.

Let canFlood (fieldValue : Q) : bool := Qltb fieldValue valueMax.
Let fillingValue : Q := fillFillingValue valueMax thickness.
Let getContourValue : GetContourValue := fillContourValue thickness cappingRadiusRatio.

Hypothesis origin_inside : insideCell f origin = true.

(** The origin is on the flood stack until it is filled. *)
Let originDone (g : t) (floodStack : list Node) (stack : list ContourNode) : Prop :=
  floodState f g floodStack stack
  /\ (canFlood (getCell g origin) = false \/ In origin floodStack).

Lemma originDone_floodNode g c floodStack stack g' floodStack' stack' :
  originDone g (c :: floodStack) stack ->
  floodNode canFlood fillingValue getContourValue g c floodStack stack
  = (g', floodStack', stack') ->
  originDone g' floodStack' stack'.
Proof.
  intros (Hstate & Horigin) E.
  split; [eapply floodNode_floodState; eauto; apply fill_contour_keeps_dry|].
  destruct Hstate as (Hr & HX & HY & Hfs & _). destruct c as [x y].
  inversion Hfs as [|? ? Hc _]; subst. unfold insideCell in Hc. cbn [fst snd] in Hc.
  destruct (floodNode_spec canFlood fillingValue getContourValue
                           (fill_contour_keeps_dry valueMax thickness cappingRadiusRatio)
                           _ _ _ _ _ _ _ _ Hr E)
    as (Hs & pushed & new & -> & _ & _ & _ & _ & _).
  cbn zeta in Hs.
  assert (Hr1 : rect (set g x y fillingValue)) by (now apply set_rect).
  assert (Ho : isInside (set g x y fillingValue) (fst origin) (snd origin) = true).
  { rewrite set_isInside. rewrite (isInside_dims f g) by assumption.
    exact origin_inside. }
  assert (Hdry : canFlood (getCell (set g x y fillingValue) origin) = false ->
                 canFlood (getCell g' origin) = false).
  { intros H. unfold getCell in *.
    now rewrite (shaded_floodable canFlood getContourValue
                   (fill_contour_keeps_dry valueMax thickness cappingRadiusRatio)
                   _ _ _ _ Hr1 Hs Ho). }
  assert (Hfilled : canFlood (getCell (set g x y fillingValue) (x, y)) = false).
  { unfold getCell. cbn [fst snd]. rewrite get_set_same by assumption.
    apply fill_filling_is_dry. }
  destruct Horigin as [H|[<-|H]].
  - left. apply Hdry.
    destruct (Z.eq_dec x (fst origin)) as [Ex|Ex];
      [destruct (Z.eq_dec y (snd origin)) as [Ey|Ey]|].
    + destruct origin; cbn [fst snd] in *; subst. exact Hfilled.
    + unfold getCell. rewrite get_set_other; trivial; [|congruence].
      rewrite (isInside_dims f g) by assumption. exact origin_inside.
    + unfold getCell. rewrite get_set_other; trivial; [|congruence].
      rewrite (isInside_dims f g) by assumption. exact origin_inside.
  - left. apply Hdry. exact Hfilled.
  - right. apply in_or_app. now right.
Qed.

Lemma floodLoop_origin_done fuel f1 stack :
  rect f ->
  floodLoop canFlood fillingValue getContourValue fuel f [origin] [] = Some (f1, stack) ->
  canFlood (getCell f1 origin) = false.
Proof.
  intros Hr E.
  assert (H : originDone f1 [] stack).
  { apply (floodLoop_invariant canFlood fillingValue getContourValue originDone
                               originDone_floodNode _ _ _ _ _ _) with (2 := E).
    split; [|right; now left].
    repeat split; trivial; repeat constructor. exact origin_inside. }
  destruct H as (_ & [H|[]]). exact H.
Qed.

End FillTwice.

(** X2.  [fillFrom] twice is [fillFrom] once: the grid that a call
    returns is left as it is by the same call made again, which returns
    at once. *)
Theorem fillFrom_twice (fuel fuel' : nat) (f : t)
        (originX originY valueMax thickness cappingRadiusRatio : Q) :
  rect f -> (fuelFor f <= fuel)%nat ->
  exists f',
    fillFrom fuel f originX originY valueMax thickness cappingRadiusRatio = Some f'
    /\ fillFrom fuel' f' originX originY valueMax thickness cappingRadiusRatio = Some f'.
Proof.
  intros Hr Hfuel.
  destruct (floodAndShade_terminates
              (fun fieldValue : Q => Qltb fieldValue valueMax)
              (fillFillingValue valueMax thickness)
              (fillContourValue thickness cappingRadiusRatio)
              (fill_contour_keeps_dry valueMax thickness cappingRadiusRatio)
              (fill_filling_is_dry valueMax thickness)
              (fill_accepted_once thickness cappingRadiusRatio)
              (fill_accepted_before thickness cappingRadiusRatio)
              fuel f originX originY Hr Hfuel)
    as (f1 & stack & f' & E1 & E2 & Hstate & Hs).
  exists f'. split; [exact E2|].
  apply fillFrom_dry_origin.
  destruct Hstate as (Hr1 & HX & HY & _ & _).
  destruct (shaded_dims _ _ _ _ Hs) as (HX' & HY' & _).
  destruct (isInside f (round originX) (round originY)) eqn:Hin.
  2:{ left. rewrite <- Hin. apply isInside_dims; congruence. }
  right.
  assert (Hin1 : isInside f1 (round originX) (round originY) = true).
  { rewrite <- Hin. now apply isInside_dims. }
  apply Qle_trans with (get f1 (round originX) (round originY));
    [|apply (fill_shaded_le _ _ _ _ _ _ _ Hr1 Hs Hin1)].
  apply Qltb_ge. unfold floodFrom in E1. rewrite Hin in E1. cbn [negb] in E1.
  destruct (Qltb (get f (round originX) (round originY)) valueMax) eqn:Hfl.
  - apply (floodLoop_origin_done valueMax thickness cappingRadiusRatio f
                                 (round originX, round originY) Hin fuel f1 stack Hr E1).
  - destruct fuel; cbn [floodLoop] in E1; inversion E1; subst; exact Hfl.
Qed.

Lemma fillFrom_twice_witness :
  exists f',
    fillFrom (fuelFor squareField) squareField 4 4 1 2 2 = Some f'
    /\ fillFrom 0 f' 4 4 1 2 2 = Some f'.
Proof.
  apply (fillFrom_twice (fuelFor squareField) 0 squareField 4 4 1 2 2).
  - unfold rect. repeat constructor.
  - apply Nat.le_refl.
Defined.

(** ** FloodFill: [unfillFrom] lowers the field *)

Lemma unfill_shaded_ge thickness cappingRadiusRatio (P : Q -> Prop) f f' x y :
  rect f -> shaded (unfillContourValue thickness cappingRadiusRatio) P f f' ->
  isInside f x y = true -> (get f' x y <= get f x y)%Q.
Proof.
  intros Hr Hs.
  apply (shaded_preserves (unfillContourValue thickness cappingRadiusRatio) P
                          (fun v v' => (v' <= v)%Q)); trivial.
  - apply Qle_refl.
  - intros u v w H1 H2. eapply Qle_trans; eauto.
  - intros v d v' _ _ H. apply unfillContourValue_some in H. apply Qlt_le_weak, H.
Qed.

Lemma unfill_contour_nonneg thickness cappingRadiusRatio v d v' :
  (minDistanceSq <= d)%Q ->
  unfillContourValue thickness cappingRadiusRatio v d = Some v' -> (0 <= v')%Q.
Proof.
  intros Hd H. apply unfillContourValue_some in H. destruct H as (-> & _ & _).
  assert (Hpos := minDistanceSq_pos).
  unfold Qdiv. apply Qmult_le_0_compat; [lra|].
  apply Qinv_le_0_compat. nra.
Qed.

Lemma unfill_shaded_nonneg thickness cappingRadiusRatio (P : Q -> Prop) f f' x y :
  rect f -> shaded (unfillContourValue thickness cappingRadiusRatio) P f f' ->
  isInside f x y = true -> (0 <= get f x y)%Q -> (0 <= get f' x y)%Q.
Proof.
  intros Hr Hs.
  apply (shaded_preserves (unfillContourValue thickness cappingRadiusRatio) P
                          (fun v v' => (0 <= v)%Q -> (0 <= v')%Q)); auto.
  intros v d v' _ Hd H _. eapply unfill_contour_nonneg; eauto.
Qed.

(** X3.  With a [valueMin] that is not negative, [unfillFrom] returns and
    lowers the field pointwise: every cell holds after the call at most
    the value it held before, and the grid keeps its dimensions. *)
Theorem unfillFrom_lowers_every_cell (fuel : nat) (f : t)
        (originX originY valueMin thickness cappingRadiusRatio : Q) :
  (0 <= valueMin)%Q -> rect f -> (fuelFor f <= fuel)%nat ->
  exists f',
    unfillFrom fuel f originX originY valueMin thickness cappingRadiusRatio = Some f'
    /\ dimX f' = dimX f /\ dimY f' = dimY f
    /\ forall x y, isInside f x y = true -> (get f' x y <= get f x y)%Q.
Proof.
  intros Hmin Hr Hfuel.
  set (canFlood := fun fieldValue : Q => Qltb valueMin fieldValue).
  set (getContourValue := unfillContourValue thickness cappingRadiusRatio).
  assert (Hkeep : forall v d v', canFlood v = false -> getContourValue v d = Some v' ->
                                 canFlood v' = false)
    by (apply unfill_contour_keeps_dry).
  assert (Hdry : canFlood 0%Q = false) by (now apply Qltb_ge).
  destruct (floodAndShade_terminates
              canFlood 0%Q getContourValue Hkeep Hdry
              (unfill_accepted_once thickness cappingRadiusRatio)
              (unfill_accepted_before thickness cappingRadiusRatio)
              fuel f originX originY Hr Hfuel)
    as (f1 & stack & f' & E1 & E2 & Hstate & Hs).
  exists f'. split; [exact E2|].
  destruct Hstate as (Hr1 & HX1 & HY1 & _ & _).
  destruct (shaded_dims _ _ _ _ Hs) as (HX' & HY' & _).
  split; [congruence|]. split; [congruence|].
  set (Inv := fun (g : t) (floodStack : list Node) (stack : list ContourNode) =>
                floodState f g floodStack stack
                /\ (forall x y, isInside f x y = true -> (get g x y <= get f x y)%Q)
                /\ Forall (fun c => (0 <= getCell g c)%Q) floodStack).
  assert (HInv : Inv f1 [] stack).
  { apply (floodFrom_invariant canFlood 0%Q getContourValue Inv
                               fuel f originX originY f1 stack); trivial.
    - clear - Hmin Hkeep. intros g [x y] floodStack stack g' floodStack' stack'
                    (Hstate & Hle & Habove) E.
      split; [eapply floodNode_floodState; eauto|].
      destruct Hstate as (Hr & HX & HY & Hfs & _).
      inversion Hfs as [|? ? Hc _]; subst. unfold insideCell in Hc. cbn [fst snd] in Hc.
      inversion Habove as [|? ? Hca Hresta]; subst. unfold getCell in Hca.
      cbn [fst snd] in Hca.
      destruct (floodNode_spec canFlood 0%Q getContourValue Hkeep
                               _ _ _ _ _ _ _ _ Hr E)
        as (Hs & pushed & new & -> & _ & _ & Hpushed & _ & _).
      cbn zeta in Hs, Hpushed.
      assert (Hr1 : rect (set g x y 0%Q)) by (now apply set_rect).
      assert (Hin : forall a b, isInside (set g x y 0%Q) a b = isInside f a b).
      { intros. rewrite set_isInside. now apply isInside_dims. }
      assert (Hset : forall a b, isInside f a b = true ->
                                 (0 <= get g a b)%Q ->
                                 (0 <= get (set g x y 0%Q) a b)%Q).
      { intros a b Hab Hv.
        destruct (Z.eq_dec x a) as [->|Hx]; [destruct (Z.eq_dec y b) as [->|Hy]|].
        - rewrite get_set_same; trivial. apply Qle_refl.
        - rewrite get_set_other; trivial; [|congruence].
          now rewrite (isInside_dims f g) by assumption.
        - rewrite get_set_other; trivial; [|congruence].
          now rewrite (isInside_dims f g) by assumption. }
      split.
      + intros a b Hab. apply Qle_trans with (get (set g x y 0%Q) a b).
        * apply (unfill_shaded_ge _ _ _ _ _ _ _ Hr1 Hs). now rewrite Hin.
        * destruct (Z.eq_dec x a) as [->|Hx]; [destruct (Z.eq_dec y b) as [->|Hy]|].
          -- rewrite get_set_same; trivial.
             apply Qle_trans with (1 := Hca). now apply Hle.
          -- rewrite get_set_other; [now apply Hle| |congruence].
             now rewrite (isInside_dims f g) by assumption.
          -- rewrite get_set_other; [now apply Hle| |congruence].
             now rewrite (isInside_dims f g) by assumption.
      + apply Forall_app. split.
        * eapply Forall_impl; [|exact Hpushed]. intros [a b] (Hn1 & Hn2 & _).
          unfold insideCell, getCell in *. cbn [fst snd] in *.
          apply (unfill_shaded_nonneg _ _ _ _ _ _ _ Hr1 Hs Hn1).
          unfold canFlood in Hn2. apply Qltb_lt in Hn2. lra.
        * rewrite Forall_forall in Hresta, Hfs |- *. intros [a b] Hn.
          assert (Hab : isInside f a b = true).
          { rewrite <- (isInside_dims f g) by assumption.
            apply (Hfs (a, b)). now right. }
          unfold getCell. cbn [fst snd].
          apply (unfill_shaded_nonneg _ _ _ _ _ _ _ Hr1 Hs); [now rewrite Hin|].
          apply Hset; trivial. apply (Hresta (a, b) Hn).
    - split; [repeat split; trivial; constructor|].
      split; [intros; apply Qle_refl|constructor].
    - intros Hin Hc. split; [repeat split; trivial; repeat constructor; exact Hin|].
      split; [intros; apply Qle_refl|].
      repeat constructor. unfold getCell. cbn [fst snd].
      unfold canFlood in Hc. apply Qltb_lt in Hc. lra. }
  destruct HInv as (_ & Hle & _).
  intros x y Hxy. apply Qle_trans with (get f1 x y); [|now apply Hle].
  apply (unfill_shaded_ge _ _ _ _ _ _ _ Hr1 Hs).
  now rewrite (isInside_dims f f1).
Qed.

Lemma unfillFrom_lowers_every_cell_witness :
  exists f',
    unfillFrom (fuelFor squareFieldFilled) squareFieldFilled 4 4 (1 # 2) 2 2 = Some f'
    /\ dimX f' = dimX squareFieldFilled /\ dimY f' = dimY squareFieldFilled
    /\ forall x y, isInside squareFieldFilled x y = true ->
                   (get f' x y <= get squareFieldFilled x y)%Q.
Proof.
  apply (unfillFrom_lowers_every_cell (fuelFor squareFieldFilled) squareFieldFilled
                                      4 4 (1 # 2) 2 2).
  - discriminate.
  - unfold rect. repeat constructor.
  - apply Nat.le_refl.
Defined.

Lemma unfill_never_accepts cappingRadiusRatio v d :
  (minDistanceSq <= d)%Q -> unfillContourValue 0 cappingRadiusRatio v d = None.
Proof.
  intros Hd.
  destruct (unfillContourValue 0 cappingRadiusRatio v d) as [v'|] eqn:E; trivial.
  apply unfillContourValue_some in E. destruct E as (_ & _ & H).
  assert (Hpos := minDistanceSq_pos). exfalso. nra.
Qed.

(** X4.  With a thickness of [0] and a [valueMin] that is not negative,
    [unfillFrom] whose rounded origin is a cell of the grid that holds
    more than [valueMin] returns, with every cell that is 4-connected to
    the rounded origin through cells holding more than [valueMin] set
    to [0], and every other cell left with the value it had. *)
Theorem unfillFrom_floods_region (fuel : nat) (f : t)
        (originX originY valueMin cappingRadiusRatio : Q) :
  let origin := (round originX, round originY) in
  let canFlood := fun fieldValue : Q => Qltb valueMin fieldValue in
  (0 <= valueMin)%Q ->
  rect f -> isInside f (round originX) (round originY) = true ->
  (valueMin < get f (round originX) (round originY))%Q ->
  (fuelFor f <= fuel)%nat ->
  exists f',
    unfillFrom fuel f originX originY valueMin 0 cappingRadiusRatio = Some f'
    /\ dimX f' = dimX f /\ dimY f' = dimY f
    /\ forall x y,
        isInside f x y = true ->
        (reachable canFlood f origin (x, y) -> get f' x y = 0%Q)
        /\ (~ reachable canFlood f origin (x, y) -> get f' x y = get f x y).
Proof.
  intros origin canFlood Hmin Hr Hin Hlt Hfuel.
  assert (Hdry : canFlood 0%Q = false) by (now apply Qltb_ge).
  destruct (floodAndShade_terminates
              canFlood 0%Q (unfillContourValue 0 cappingRadiusRatio)
              (unfill_contour_keeps_dry valueMin 0 cappingRadiusRatio) Hdry
              (unfill_accepted_once 0 cappingRadiusRatio)
              (unfill_accepted_before 0 cappingRadiusRatio)
              fuel f originX originY Hr Hfuel)
    as (f1 & stack & f' & E1 & E2 & Hstate & Hs).
  apply shaded_none in Hs; [|intros; now apply unfill_never_accepts]. subst f'.
  exists f1. split; [exact E2|].
  destruct Hstate as (_ & HX & HY & _).
  split; [exact HX|]. split; [exact HY|].
  assert (Hfl : canFlood (getCell f origin) = true) by (now apply Qltb_lt).
  unfold floodFrom in E1. rewrite Hin in E1. cbn [negb] in E1.
  unfold getCell, origin in Hfl. cbn [fst snd] in Hfl. rewrite Hfl in E1.
  intros x y Hxy.
  apply (floodLoop_region canFlood 0%Q (unfillContourValue 0 cappingRadiusRatio)
                          (unfill_contour_keeps_dry valueMin 0 cappingRadiusRatio) Hdry
                          (fun v d Hd => unfill_never_accepts cappingRadiusRatio v d Hd)
                          f origin Hin fuel f1 stack Hr Hfl E1 (x, y) Hxy).
Qed.

Lemma unfillFrom_floods_region_witness :
  exists f',
    unfillFrom (fuelFor squareFieldFilled) squareFieldFilled 4 4 (1 # 2) 0 1 = Some f'
    /\ dimX f' = dimX squareFieldFilled /\ dimY f' = dimY squareFieldFilled
    /\ forall x y,
        isInside squareFieldFilled x y = true ->
        (reachable (fun fieldValue : Q => Qltb (1 # 2) fieldValue) squareFieldFilled
                   (round 4, round 4) (x, y) ->
         get f' x y = 0%Q)
        /\ (~ reachable (fun fieldValue : Q => Qltb (1 # 2) fieldValue) squareFieldFilled
                        (round 4, round 4) (x, y) ->
            get f' x y = get squareFieldFilled x y).
Proof.
  apply (unfillFrom_floods_region (fuelFor squareFieldFilled) squareFieldFilled
                                  4 4 (1 # 2) 1).
  - discriminate.
  - unfold rect. repeat constructor.
  - reflexivity.
  - reflexivity.
  - apply Nat.le_refl.
Defined.

(** ** FloodFill: an invariant rule for the writes of the contour *)

Section ContourRule.

Variable canFlood : Q -> bool.
Variable getContourValue : GetContourValue.

(** [K] is a property of the grid and [Seed] a property of a seed in a
    grid, such that a write of [checkAnAddContourNode] from a seed keeps
    [K] and keeps every seed. *)
Variable K : t -> Prop.
Variable Seed : t -> Z -> Z -> Prop.

Hypothesis write_keeps :
  forall g nodeX nodeY originX originY v,
    K g -> Seed g originX originY -> isInside g nodeX nodeY = true ->
    getContourValue (get g nodeX nodeY)
                    (contourDistanceSq nodeX nodeY originX originY) = Some v ->
    K (set g nodeX nodeY v)
    /\ forall a b, Seed g a b -> Seed (set g nodeX nodeY v) a b.

Let seeded (g : t) (stack : list ContourNode) : Prop :=
  Forall (fun node => Seed g (originX node) (originY node)) stack.

Let kept (g : t) (stack : list ContourNode) (g' : t) (stack' : list ContourNode) : Prop :=
  K g' /\ seeded g' stack' /\ forall a b, Seed g a b -> Seed g' a b.

Lemma checkAnAddContourNode_kept g stack nodeX nodeY originX originY g' stack' :
  K g -> seeded g stack -> Seed g originX originY ->
  checkAnAddContourNode getContourValue g stack nodeX nodeY originX originY
  = (g', stack') ->
  kept g stack g' stack'.
Proof.
  intros HK Hst Ho E.
  destruct (checkAnAddContourNode_cases getContourValue g stack
                                        nodeX nodeY originX originY)
    as [E'|(v & Hin & Hv & E')]; rewrite E' in E; inversion E; subst.
  - repeat split; trivial.
  - destruct (write_keeps _ _ _ _ _ _ HK Ho Hin Hv) as [HK' Hseeds].
    split; [exact HK'|]. split; [|exact Hseeds].
    constructor; [now apply Hseeds|].
    eapply Forall_impl; [|exact Hst]. intros node. apply Hseeds.
Qed.

Lemma shadeNeighbors_kept node ds :
  forall g stack g' stack',
    K g -> seeded g stack -> Seed g (originX node) (originY node) ->
    fold_left (shadeNeighbor getContourValue node) ds (g, stack) = (g', stack') ->
    kept g stack g' stack'.
Proof.
  induction ds as [|delta ds IH]; intros g stack g' stack' HK Hst Ho E.
  - cbn [fold_left] in E. inversion E; subst. repeat split; trivial.
  - cbn [fold_left] in E.
    destruct (shadeNeighbor getContourValue node (g, stack) delta)
      as [g1 stack1] eqn:E1.
    unfold shadeNeighbor in E1.
    apply checkAnAddContourNode_kept in E1; trivial.
    destruct E1 as (HK1 & Hst1 & Hgrow1).
    destruct (IH _ _ _ _ HK1 Hst1 (Hgrow1 _ _ Ho) E) as (HK' & Hst' & Hgrow').
    repeat split; auto.
Qed.

Lemma shadeNodes_kept nodes :
  forall g stack g' stack',
    K g -> seeded g stack -> seeded g nodes ->
    fold_left (shadeNode getContourValue) nodes (g, stack) = (g', stack') ->
    kept g stack g' stack'.
Proof.
  induction nodes as [|node nodes IH]; intros g stack g' stack' HK Hst Hnodes E.
  - cbn [fold_left] in E. inversion E; subst. repeat split; trivial.
  - cbn [fold_left] in E.
    destruct (shadeNode getContourValue (g, stack) node) as [g1 stack1] eqn:E1.
    inversion Hnodes as [|? ? Hnode Hrest]; subst.
    assert (H1 : kept g stack g1 stack1).
    { unfold shadeNode in E1.
      destruct (Qltb (value node) (get g (x node) (y node))).
      - inversion E1; subst. repeat split; trivial.
      - eapply shadeNeighbors_kept; eauto. }
    destruct H1 as (HK1 & Hst1 & Hgrow1).
    assert (Hrest1 : seeded g1 nodes).
    { eapply Forall_impl; [|exact Hrest]. intros n. apply Hgrow1. }
    destruct (IH _ _ _ _ HK1 Hst1 Hrest1 E) as (HK' & Hst' & Hgrow').
    repeat split; auto.
Qed.

Lemma shadeLoop_kept fuel :
  forall g contourStack g',
    K g -> seeded g contourStack ->
    shadeLoop getContourValue fuel g contourStack = Some g' -> K g'.
Proof.
  induction fuel as [|fuel IH]; intros g contourStack g' HK Hst E.
  - destruct contourStack; [|discriminate]. inversion E; subst. exact HK.
  - destruct contourStack as [|node contourStack]; [inversion E; subst; exact HK|].
    cbn [shadeLoop] in E.
    destruct (fold_left (shadeNode getContourValue) (node :: contourStack) (g, []))
      as [g1 next] eqn:E1.
    apply shadeNodes_kept in E1; trivial; [|constructor].
    destruct E1 as (HK1 & Hst1 & _). eapply IH; eauto.
Qed.

Lemma floodNeighbors_kept x0 y0 ds :
  forall g floodStack stack g' floodStack' stack',
    K g -> seeded g stack -> Seed g x0 y0 ->
    fold_left (floodNeighbor canFlood getContourValue x0 y0) ds (g, floodStack, stack)
    = (g', floodStack', stack') ->
    kept g stack g' stack'.
Proof.
  induction ds as [|delta ds IH];
    intros g floodStack stack g' floodStack' stack' HK Hst Ho E.
  - cbn [fold_left] in E. inversion E; subst. repeat split; trivial.
  - cbn [fold_left] in E.
    destruct (floodNeighbor canFlood getContourValue x0 y0 (g, floodStack, stack) delta)
      as [[g1 floodStack1] stack1] eqn:E1.
    assert (H1 : kept g stack g1 stack1).
    { unfold floodNeighbor in E1.
      destruct (negb (isInside g (x0 + fst delta) (y0 + snd delta)));
        [inversion E1; subst; repeat split; trivial|].
      destruct (canFlood (get g (x0 + fst delta) (y0 + snd delta)));
        [inversion E1; subst; repeat split; trivial|].
      destruct (checkAnAddContourNode getContourValue g stack
                  (x0 + fst delta) (y0 + snd delta) x0 y0) as [g2 stack2] eqn:E2.
      inversion E1; subst.
      eapply checkAnAddContourNode_kept; eauto. }
    destruct H1 as (HK1 & Hst1 & Hgrow1).
    destruct (IH _ _ _ _ _ _ HK1 Hst1 (Hgrow1 _ _ Ho) E) as (HK' & Hst' & Hgrow').
    repeat split; auto.
Qed.

End ContourRule.

(** ** FloodFill: what [fillFrom] writes, and where *)

Lemma get_set f x y v x' y' :
  rect f -> isInside f x' y' = true ->
  get (set f x y v) x' y' = if (x =? x') && (y =? y') then v else get f x' y'.
Proof.
  intros Hr Hin. destruct ((x =? x') && (y =? y')) eqn:E.
  - apply andb_true_iff in E. destruct E as [E1 E2].
    apply Z.eqb_eq in E1, E2. subst. now apply get_set_same.
  - apply get_set_other; trivial. intros E'. inversion E'; subst.
    now rewrite !Z.eqb_refl in E.
Qed.

Section FillNear.

Variables valueMax thickness cappingRadiusRatio : Q.
Variable f : t.

Let canFlood (fieldValue : Q) : bool := Qltb fieldValue valueMax.
Let fillingValue : Q := fillFillingValue valueMax thickness.
Let getContourValue : GetContourValue := fillContourValue thickness cappingRadiusRatio.
Let cappingRadiusSq : Q :=
  (cappingRadiusRatio * thickness * (cappingRadiusRatio * thickness))%Q.

(** A seed: a cell of the grid that could be flooded and is filled. *)
Let Seed (g : t) (originX originY : Z) : Prop :=
  isInside f originX originY = true
  /\ canFlood (get f originX originY) = true
  /\ get g originX originY = fillingValue.

(** A cell holds its first value, or was flooded, or holds the contour
    value of its distance to a seed that is nearer than the capping
    radius. *)
Let cellOK (g : t) (x y : Z) : Prop :=
  get g x y = get f x y
  \/ (canFlood (get f x y) = true /\ get g x y = fillingValue)
  \/ exists originX originY,
      Seed g originX originY
      /\ (contourDistanceSq x y originX originY < cappingRadiusSq)%Q
      /\ get g x y = (thickness * thickness / contourDistanceSq x y originX originY)%Q.

Let K (g : t) : Prop :=
  rect g /\ dimX g = dimX f /\ dimY g = dimY f
  /\ (forall x y, isInside f x y = true -> cellOK g x y)
  /\ (forall x y, isInside f x y = true -> canFlood (get f x y) = false ->
                  canFlood (get g x y) = false).

Lemma near_write_keeps g nodeX nodeY originX originY v :
  K g -> Seed g originX originY -> isInside g nodeX nodeY = true ->
  getContourValue (get g nodeX nodeY)
                  (contourDistanceSq nodeX nodeY originX originY) = Some v ->
  K (set g nodeX nodeY v)
  /\ forall a b, Seed g a b -> Seed (set g nodeX nodeY v) a b.
Proof.
  intros (Hr & HX & HY & Hcells & Hdry) Hseed Hin Hv.
  assert (Hbelow : (v <= fillingValue)%Q).
  { eapply fill_contour_below_filling; [apply contourDistanceSq_min|exact Hv]. }
  apply fillContourValue_some in Hv. destruct Hv as (Hval & Hlt & Hcap).
  assert (Hinf : forall a b, isInside g a b = isInside f a b)
    by (intros; now apply isInside_dims).
  assert (Hseeds : forall a b, Seed g a b -> Seed (set g nodeX nodeY v) a b).
  { intros a b (Ha & Hb & Hc). repeat split; trivial.
    rewrite get_set by (trivial; now rewrite Hinf).
    destruct ((nodeX =? a) && (nodeY =? b)) eqn:E; trivial.
    apply andb_true_iff in E. destruct E as [E1 E2].
    apply Z.eqb_eq in E1, E2. subst a b. rewrite Hc in Hlt.
    exfalso. apply (Qlt_irrefl fillingValue). eapply Qlt_le_trans; eauto. }
  split; [|exact Hseeds].
  split; [now apply set_rect|]. rewrite set_dimX, set_dimY.
  split; [exact HX|]. split; [exact HY|]. split.
  - intros a b Hab. unfold cellOK. rewrite get_set by (trivial; now rewrite Hinf).
    destruct ((nodeX =? a) && (nodeY =? b)) eqn:E.
    + apply andb_true_iff in E. destruct E as [E1 E2].
      apply Z.eqb_eq in E1, E2. subst a b.
      right. right. exists originX, originY.
      split; [now apply Hseeds|]. split; [exact Hcap|exact Hval].
    + destruct (Hcells a b Hab) as [H|[H|(ox & oy & Hs & Hd & H)]]; auto.
      right. right. exists ox, oy. auto.
  - intros a b Hab Hf. rewrite get_set by (trivial; now rewrite Hinf).
    destruct ((nodeX =? a) && (nodeY =? b)) eqn:E; [|now apply Hdry].
    apply andb_true_iff in E. destruct E as [E1 E2].
    apply Z.eqb_eq in E1, E2. subst a b.
    specialize (Hdry _ _ Hab Hf). unfold canFlood in *.
    apply Qltb_ge in Hdry. apply Qltb_ge. lra.
Qed.

Lemma near_set_filling g x y :
  K g -> isInside f x y = true -> canFlood (get f x y) = true ->
  K (set g x y fillingValue)
  /\ Seed (set g x y fillingValue) x y
  /\ forall a b, Seed g a b -> Seed (set g x y fillingValue) a b.
Proof.
  intros (Hr & HX & HY & Hcells & Hdry) Hin Hfl.
  assert (Hinf : forall a b, isInside g a b = isInside f a b)
    by (intros; now apply isInside_dims).
  assert (Hseeds : forall a b, Seed g a b -> Seed (set g x y fillingValue) a b).
  { intros a b (Ha & Hb & Hc). repeat split; trivial.
    rewrite get_set by (trivial; now rewrite Hinf).
    now destruct ((x =? a) && (y =? b)). }
  split; [|split; [|exact Hseeds]].
  - split; [now apply set_rect|]. rewrite set_dimX, set_dimY.
    split; [exact HX|]. split; [exact HY|]. split.
    + intros a b Hab. unfold cellOK. rewrite get_set by (trivial; now rewrite Hinf).
      destruct ((x =? a) && (y =? b)) eqn:E.
      * apply andb_true_iff in E. destruct E as [E1 E2].
        apply Z.eqb_eq in E1, E2. subst a b. right. left. auto.
      * destruct (Hcells a b Hab) as [H|[H|(ox & oy & Hs & Hd & H)]]; auto.
        right. right. exists ox, oy. auto.
    + intros a b Hab Hf. rewrite get_set by (trivial; now rewrite Hinf).
      destruct ((x =? a) && (y =? b)); [|now apply Hdry].
      apply fill_filling_is_dry.
  - repeat split; trivial. rewrite get_set by (trivial; now rewrite Hinf).
    now rewrite !Z.eqb_refl.
Qed.

(** The invariant of the flood loop. *)
Let near (g : t) (floodStack : list Node) (stack : list ContourNode) : Prop :=
  K g
  /\ Forall (fun c => isInside f (fst c) (snd c) = true
                      /\ canFlood (getCell f c) = true) floodStack
  /\ Forall (fun node => Seed g (originX node) (originY node)) stack.

Lemma near_floodNode g c floodStack stack g' floodStack' stack' :
  near g (c :: floodStack) stack ->
  floodNode canFlood fillingValue getContourValue g c floodStack stack
  = (g', floodStack', stack') ->
  near g' floodStack' stack'.
Proof.
  intros (HK & Hfs & Hst) E. destruct c as [x y].
  inversion Hfs as [|? ? (Hc & Hfl) Hrest]; subst. cbn [fst snd] in Hc.
  unfold getCell in Hfl. cbn [fst snd] in Hfl.
  destruct (near_set_filling g x y HK Hc Hfl) as (HK1 & Hseed1 & Hgrow1).
  assert (Hr : rect g) by (apply HK).
  destruct (floodNode_spec canFlood fillingValue getContourValue
                           (fill_contour_keeps_dry valueMax thickness cappingRadiusRatio)
                           _ _ _ _ _ _ _ _ Hr E)
    as (_ & pushed & new & Hpush & _ & _ & Hpushed & _ & _).
  cbn zeta in Hpushed. unfold floodNode in E.
  apply (floodNeighbors_kept canFlood getContourValue K Seed near_write_keeps) in E;
    trivial.
  2:{ eapply Forall_impl; [|exact Hst]. intros node. apply Hgrow1. }
  destruct E as (HK' & Hst' & _).
  split; [exact HK'|]. split; [|exact Hst'].
  subst floodStack'. apply Forall_app. split; [|exact Hrest].
  eapply Forall_impl; [|exact Hpushed]. intros [a b] (Hn1 & Hn2 & _).
  unfold insideCell, getCell in *. cbn [fst snd] in *.
  rewrite set_isInside in Hn1.
  destruct HK as (_ & HX & HY & _). destruct HK1 as (_ & _ & _ & _ & Hdry1).
  rewrite (isInside_dims f g) in Hn1 by assumption.
  split; [exact Hn1|].
  destruct (canFlood (get f a b)) eqn:Hf; trivial.
  rewrite (Hdry1 a b Hn1 Hf) in Hn2. discriminate.
Qed.

Lemma fillFrom_near fuel originX originY f' :
  rect f ->
  fillFrom fuel f originX originY valueMax thickness cappingRadiusRatio = Some f' ->
  K f'.
Proof.
  intros Hr E. unfold fillFrom, floodAndShade in E.
  fold canFlood fillingValue getContourValue in E.
  destruct (floodFrom canFlood fillingValue getContourValue fuel f originX originY)
    as [[f1 stack]|] eqn:E1; [|discriminate].
  assert (HK0 : K f).
  { split; [exact Hr|]. split; [reflexivity|]. split; [reflexivity|].
    split; [intros; now left|auto]. }
  assert (Hnear : near f1 [] stack).
  { apply (floodFrom_invariant canFlood fillingValue getContourValue near
                               fuel f originX originY f1 stack); trivial.
    - apply near_floodNode.
    - split; [exact HK0|]. split; constructor.
    - intros Hin Hfl. split; [exact HK0|]. split; repeat constructor; assumption. }
  destruct Hnear as (HK1 & _ & Hst).
  unfold shadeContour in E.
  apply (shadeLoop_kept getContourValue K Seed near_write_keeps fuel f1 stack f');
    assumption.
Qed.

End FillNear.

(** X5.  Over exact arithmetic, [fillFrom] returns, and a cell of the
    grid then holds the value it had, or it could be flooded and holds
    the filling value, or it holds the contour value [thickness^2 / d]
    of its squared distance [d] (at least [2^-20]) to a flooded cell,
    with [d] below the exact square of the capping radius
    [cappingRadiusRatio * thickness]: no cell at the capping radius or
    farther from every flooded cell is shaded. *)
Theorem fillFrom_shades_within_capping_radius (fuel : nat) (f : t)
        (originX originY valueMax thickness cappingRadiusRatio : Q) :
  rect f -> (fuelFor f <= fuel)%nat ->
  exists f',
    fillFrom fuel f originX originY valueMax thickness cappingRadiusRatio = Some f'
    /\ forall x y,
        isInside f x y = true ->
        get f' x y = get f x y
        \/ ((get f x y < valueMax)%Q /\ get f' x y = fillFillingValue valueMax thickness)
        \/ exists seedX seedY,
            isInside f seedX seedY = true
            /\ (get f seedX seedY < valueMax)%Q
            /\ get f' seedX seedY = fillFillingValue valueMax thickness
            /\ (contourDistanceSq x y seedX seedY
                < cappingRadiusRatio * thickness * (cappingRadiusRatio * thickness))%Q
            /\ get f' x y
               = (thickness * thickness / contourDistanceSq x y seedX seedY)%Q.
Proof.
  intros Hr Hfuel.
  destruct (fillFrom_terminates fuel f originX originY valueMax thickness
                                cappingRadiusRatio Hr Hfuel) as (f' & E).
  exists f'. split; [exact E|].
  destruct (fillFrom_near valueMax thickness cappingRadiusRatio f
                          fuel originX originY f' Hr E)
    as (_ & _ & _ & Hcells & _).
  intros x y Hxy.
  destruct (Hcells x y Hxy) as [H|[[H1 H2]|(ox & oy & (Ha & Hb & Hc) & Hd & H)]].
  - now left.
  - right. left. split; [now apply Qltb_lt|exact H2].
  - right. right. exists ox, oy. repeat split; trivial. now apply Qltb_lt.
Qed.

Lemma fillFrom_shades_within_capping_radius_witness :
  exists f',
    fillFrom (fuelFor squareField) squareField 4 4 1 2 2 = Some f'
    /\ forall x y,
        isInside squareField x y = true ->
        get f' x y = get squareField x y
        \/ ((get squareField x y < 1)%Q /\ get f' x y = fillFillingValue 1 2)
        \/ exists seedX seedY,
            isInside squareField seedX seedY = true
            /\ (get squareField seedX seedY < 1)%Q
            /\ get f' seedX seedY = fillFillingValue 1 2
            /\ (contourDistanceSq x y seedX seedY < 2 * 2 * (2 * 2))%Q
            /\ get f' x y = (2 * 2 / contourDistanceSq x y seedX seedY)%Q.
Proof.
  apply (fillFrom_shades_within_capping_radius (fuelFor squareField) squareField
                                               4 4 1 2 2).
  - unfold rect. repeat constructor.
  - apply Nat.le_refl.
Defined.

(** ** ScalarField: the cells of a merge *)

Lemma forEachCell_shape minX maxX minY maxY body f :
  let f' := forEachCell minX maxX minY maxY body f in
  dimX f' = dimX f /\ dimY f' = dimY f /\ (rect f -> rect f').
Proof.
  cbn zeta. rewrite forEachCell_window.
  generalize (window minX maxX minY maxY) as cs. intros cs. revert f.
  induction cs as [|c cs IH]; intros f; cbn [fold_left]; [auto|].
  destruct (IH (set f (fst c) (snd c) (body (fst c) (snd c) f))) as (H1 & H2 & H3).
  rewrite set_dimX in H1. rewrite set_dimY in H2.
  repeat split; trivial. intros Hr. apply H3. now apply set_rect.
Qed.

(** A merge whose window lies in the grid and whose body only reads the
    cell it writes: the cells of the window hold their new value, the
    others are as they were. *)
Lemma forEachCell_get (F : Z -> Z -> Q -> Q) minX maxX minY maxY f x y :
  rect f -> 0 <= minX -> maxX <= dimX f - 1 -> 0 <= minY -> maxY <= dimY f - 1 ->
  isInside f x y = true ->
  get (forEachCell minX maxX minY maxY (fun x y g => F x y (get g x y)) f) x y
  = if (minX <=? x) && (x <=? maxX) && (minY <=? y) && (y <=? maxY)
    then F x y (get f x y) else get f x y.
Proof.
  intros Hr HminX HmaxX HminY HmaxY Hxy. rewrite forEachCell_window.
  destruct (paint_cells F (window minX maxX minY maxY) f x y Hr
                        (NoDup_window minX maxX minY maxY)) as [Hin Hout];
    trivial.
  { intros [cx cy] Hc. apply in_window in Hc. apply isInside_iff.
    cbn [fst snd]. lia. }
  cbn zeta in Hin, Hout.
  destruct ((minX <=? x) && (x <=? maxX) && (minY <=? y) && (y <=? maxY)) eqn:E.
  - rewrite !andb_true_iff, !Z.leb_le in E. apply Hin. apply in_window. lia.
  - apply Hout. rewrite in_window. intros H.
    assert (E' : (minX <=? x) && (x <=? maxX) && (minY <=? y) && (y <=? maxY) = true).
    { rewrite !andb_true_iff, !Z.leb_le. lia. }
    congruence.
Qed.

Lemma scan_window_clipped f lo hi lo' hi' x y :
  isInside f x y = true ->
  (Z.max 0 lo <=? x) && (x <=? Z.min (dimX f - 1) hi)
  && (Z.max 0 lo' <=? y) && (y <=? Z.min (dimY f - 1) hi')
  = (lo <=? x) && (x <=? hi) && (lo' <=? y) && (y <=? hi').
Proof.
  intros H. apply isInside_iff in H.
  apply eq_true_iff_eq. rewrite !andb_true_iff, !Z.leb_le. lia.
Qed.

Lemma mergeDisk_cell f centerX centerY radius cappingRadiusRatio operation x y :
  rect f -> isInside f x y = true ->
  get (mergeDisk f centerX centerY radius cappingRadiusRatio operation) x y =
  if inScanRectangle centerX centerY (cappingRadiusRatio * radius) x y
  then operation (get f x y)
                 (radius * radius
                  / Qmax minDistanceSq
                         (getDistanceSq (inject_Z x) (inject_Z y) centerX centerY))%Q
  else get f x y.
Proof.
  intros Hr Hxy. unfold mergeDisk.
  rewrite (forEachCell_get
             (fun x y v =>
                operation v (radius * radius
                             / Qmax minDistanceSq
                                    (getDistanceSq (inject_Z x) (inject_Z y)
                                                   centerX centerY))%Q));
    trivial; try lia.
  now rewrite scan_window_clipped.
Qed.

(** X6.  Over exact arithmetic, [mergeSegment] combines
    [operation current (thickness^2 / max (distance^2) (2^-20))], with the
    distance to the segment, into exactly the cells of the grid that lie
    in the scan rectangle, from the floor of the least end less the
    capping radius to the ceiling of the greatest end plus the capping
    radius on both axes; every other cell keeps its value. *)
Theorem mergeSegment_scan_rectangle (f : t) (startX startY endX endY : Q)
        (thickness cappingRadiusRatio : Q) (operation : Q -> Q -> Q) (x y : Z) :
  rect f -> isInside f x y = true ->
  let cappingRadius := (cappingRadiusRatio * thickness)%Q in
  get (mergeSegment f startX startY endX endY thickness cappingRadiusRatio operation)
      x y =
  if (Qfloor (Qmin startX endX - cappingRadius) <=? x)
     && (x <=? Qceiling (Qmax startX endX + cappingRadius))
     && (Qfloor (Qmin startY endY - cappingRadius) <=? y)
     && (y <=? Qceiling (Qmax startY endY + cappingRadius))
  then operation (get f x y)
                 (thickness * thickness
                  / Qmax minDistanceSq
                         (getDistanceSqToSegment (inject_Z x) (inject_Z y)
                                                 startX startY endX endY))%Q
  else get f x y.
Proof.
  intros Hr Hxy cappingRadius. unfold mergeSegment. fold cappingRadius.
  rewrite (forEachCell_get
             (fun x y v =>
                operation v (thickness * thickness
                             / Qmax minDistanceSq
                                    (getDistanceSqToSegment (inject_Z x) (inject_Z y)
                                                            startX startY endX endY))%Q));
    trivial; try lia.
  now rewrite scan_window_clipped.
Qed.

Lemma mergeSegment_scan_rectangle_witness :
  get (mergeSegment (create 4 3) 1 1 2 1 1 1 Qplus) 3 2 =
  if (Qfloor (Qmin 1 2 - 1 * 1) <=? 3) && (3 <=? Qceiling (Qmax 1 2 + 1 * 1))
     && (Qfloor (Qmin 1 1 - 1 * 1) <=? 2) && (2 <=? Qceiling (Qmax 1 1 + 1 * 1))
  then Qplus (get (create 4 3) 3 2)
             (1 * 1 / Qmax minDistanceSq
                           (getDistanceSqToSegment (inject_Z 3) (inject_Z 2) 1 1 2 1))%Q
  else get (create 4 3) 3 2.
Proof.
  apply (mergeSegment_scan_rectangle (create 4 3) 1 1 2 1 1 1 Qplus 3 2).
  - apply create_rect.
  - reflexivity.
Defined.

(** X7.  Over exact arithmetic, for a radius that is not [0] and a
    positive height, [mergeHill] combines
    [operation current (opacity * height * exp (- d * log height / radius^2))],
    with [d] the squared distance to the centre and at least [2^-20],
    into exactly the cells of the grid that lie in the scan rectangle of
    its capping radius; every other cell keeps its value. *)
Theorem mergeHill_scan_rectangle (exp log : Q -> Q) (f : t)
        (centerX centerY height radius opacity cappingRadiusRatio : Q)
        (operation : Q -> Q -> Q) (x y : Z) :
  ~ (radius == 0)%Q -> (0 < height)%Q ->
  rect f -> isInside f x y = true ->
  get (mergeHill exp log f centerX centerY height radius opacity
                 cappingRadiusRatio operation) x y =
  if inScanRectangle centerX centerY (cappingRadiusRatio * radius) x y
  then operation (get f x y)
                 (opacity * height
                  * exp (- Qmax minDistanceSq
                                (getDistanceSq (inject_Z x) (inject_Z y) centerX centerY)
                         * (log height / (radius * radius))))%Q
  else get f x y.
Proof.
  intros _ _ Hr Hxy. unfold mergeHill.
  rewrite (forEachCell_get
             (fun x y v =>
                operation v
                  (opacity * height
                   * exp (- Qmax minDistanceSq
                                 (getDistanceSq (inject_Z x) (inject_Z y)
                                                centerX centerY)
                          * (log height / (radius * radius))))%Q));
    trivial; try lia.
  now rewrite scan_window_clipped.
Qed.

Lemma mergeHill_scan_rectangle_witness :
  get (mergeHill (fun a => a) (fun a => a) (create 3 3) 1 1 2 1 1 1 Qplus) 0 0 =
  if inScanRectangle 1 1 (1 * 1) 0 0
  then Qplus (get (create 3 3) 0 0)
             (1 * 2
              * (fun a : Q => a)
                  (- Qmax minDistanceSq (getDistanceSq (inject_Z 0) (inject_Z 0) 1 1)
                   * ((fun a : Q => a) 2 / (1 * 1))))%Q
  else get (create 3 3) 0 0.
Proof.
  apply (mergeHill_scan_rectangle (fun a => a) (fun a => a) (create 3 3)
                                  1 1 2 1 1 1 Qplus 0 0).
  - intros H. vm_compute in H. discriminate H.
  - reflexivity.
  - apply create_rect.
  - reflexivity.
Defined.

(** ** ScalarField.mergeDisk: the falloff *)

Lemma inScanRectangle_near centerX centerY cappingRadius x y :
  (centerX - cappingRadius <= inject_Z x)%Q ->
  (inject_Z x <= centerX + cappingRadius)%Q ->
  (centerY - cappingRadius <= inject_Z y)%Q ->
  (inject_Z y <= centerY + cappingRadius)%Q ->
  inScanRectangle centerX centerY cappingRadius x y = true.
Proof.
  intros H1 H2 H3 H4. unfold inScanRectangle.
  rewrite !andb_true_iff, !Z.leb_le. repeat split.
  - rewrite Zle_Qle. eapply Qle_trans; [apply Qfloor_le|exact H1].
  - rewrite Zle_Qle. eapply Qle_trans; [exact H2|apply Qle_ceiling].
  - rewrite Zle_Qle. eapply Qle_trans; [apply Qfloor_le|exact H3].
  - rewrite Zle_Qle. eapply Qle_trans; [exact H4|apply Qle_ceiling].
Qed.

Lemma square_bound (a b r : Q) :
  (0 <= r)%Q -> (a * a + b * b == r * r)%Q -> (- r <= a)%Q /\ (a <= r)%Q.
Proof.
  intros Hr H. split.
  - destruct (Qlt_le_dec a (- r)) as [Hlt|Hle]; [|exact Hle].
    exfalso. nra.
  - destruct (Qlt_le_dec r a) as [Hlt|Hle]; [|exact Hle].
    exfalso. nra.
Qed.

(** X8.  Over exact arithmetic, a cell of the grid at the distance
    [radius] of the centre, with a capping ratio of [1] or more and a
    radius that is not negative and whose square is at least [2^-20],
    is merged by [mergeDisk] with the value [1]. *)
Theorem mergeDisk_one_at_radius (f : t) (centerX centerY radius cappingRadiusRatio : Q)
        (operation : Q -> Q -> Q) (x y : Z) :
  rect f -> isInside f x y = true ->
  (0 <= radius)%Q -> (1 <= cappingRadiusRatio)%Q ->
  (minDistanceSq <= radius * radius)%Q ->
  (getDistanceSq (inject_Z x) (inject_Z y) centerX centerY == radius * radius)%Q ->
  exists v,
    (v == 1)%Q
    /\ get (mergeDisk f centerX centerY radius cappingRadiusRatio operation) x y
       = operation (get f x y) v.
Proof.
  intros Hr Hxy Hrad Hratio Hmin Hd.
  exists (radius * radius
          / Qmax minDistanceSq
                 (getDistanceSq (inject_Z x) (inject_Z y) centerX centerY))%Q.
  assert (Hpos := minDistanceSq_pos).
  split.
  - rewrite Q.max_r by (rewrite Hd; exact Hmin). rewrite Hd. field. nra.
  - rewrite mergeDisk_cell by assumption.
    unfold getDistanceSq in Hd.
    destruct (square_bound _ _ _ Hrad Hd) as [Hx1 Hx2].
    assert (Hd' : ((centerY - inject_Z y) * (centerY - inject_Z y)
                   + (centerX - inject_Z x) * (centerX - inject_Z x)
                   == radius * radius)%Q) by (rewrite <- Hd; ring).
    destruct (square_bound _ _ _ Hrad Hd') as [Hy1 Hy2].
    assert (Hcap : (radius <= cappingRadiusRatio * radius)%Q) by nra.
    rewrite inScanRectangle_near; trivial; lra.
Qed.

Lemma mergeDisk_one_at_radius_witness :
  exists v,
    (v == 1)%Q
    /\ get (mergeDisk (create 5 5) 2 2 1 1 (fun _ b => b)) 3 2
       = (fun _ b : Q => b) (get (create 5 5) 3 2) v.
Proof.
  apply (mergeDisk_one_at_radius (create 5 5) 2 2 1 1 (fun _ b => b) 3 2).
  - apply create_rect.
  - reflexivity.
  - discriminate.
  - discriminate.
  - vm_compute. discriminate.
  - reflexivity.
Defined.

(** X9.  Over exact arithmetic and with a capping radius
    [cappingRadiusRatio * radius] that is not negative, a cell of the
    grid that is the centre of the disk is merged by [mergeDisk] with
    [radius^2 * 2^20]: the squared distance is floored at [2^-20], so
    that the division is not by [0]. *)
Theorem mergeDisk_at_centre (f : t) (centerX centerY radius cappingRadiusRatio : Q)
        (operation : Q -> Q -> Q) (x y : Z) :
  rect f -> isInside f x y = true ->
  (0 <= cappingRadiusRatio * radius)%Q ->
  (inject_Z x == centerX)%Q -> (inject_Z y == centerY)%Q ->
  exists v,
    (v == radius * radius * 1024 * 1024)%Q
    /\ get (mergeDisk f centerX centerY radius cappingRadiusRatio operation) x y
       = operation (get f x y) v.
Proof.
  intros Hr Hxy Hcap Hx Hy.
  exists (radius * radius
          / Qmax minDistanceSq
                 (getDistanceSq (inject_Z x) (inject_Z y) centerX centerY))%Q.
  assert (Hd : (getDistanceSq (inject_Z x) (inject_Z y) centerX centerY == 0)%Q).
  { unfold getDistanceSq. rewrite Hx, Hy. ring. }
  split.
  - rewrite Q.max_l by (rewrite Hd; discriminate).
    unfold minDistanceSq. field.
  - rewrite mergeDisk_cell by assumption.
    rewrite inScanRectangle_near; trivial; lra.
Qed.

Lemma mergeDisk_at_centre_witness :
  exists v,
    (v == 3 * 3 * 1024 * 1024)%Q
    /\ get (mergeDisk (create 5 5) 2 2 3 1 Qmax) 2 2
       = Qmax (get (create 5 5) 2 2) v.
Proof.
  apply (mergeDisk_at_centre (create 5 5) 2 2 3 1 Qmax 2 2).
  - apply create_rect.
  - reflexivity.
  - discriminate.
  - reflexivity.
  - reflexivity.
Defined.

(** X10.  With an operation that never gives less than its first
    argument, as the maximum, [mergeDisk] raises the field pointwise and
    keeps the dimensions of the grid. *)
Theorem mergeDisk_raises (f : t) (centerX centerY radius cappingRadiusRatio : Q)
        (operation : Q -> Q -> Q) :
  (forall a b, (a <= operation a b)%Q) -> rect f ->
  let f' := mergeDisk f centerX centerY radius cappingRadiusRatio operation in
  dimX f' = dimX f /\ dimY f' = dimY f /\ rect f'
  /\ forall x y, isInside f x y = true -> (get f x y <= get f' x y)%Q.
Proof.
  intros Hop Hr f'. unfold f', mergeDisk at 1 2 3.
  match goal with
  | |- context [forEachCell ?a ?b ?c ?d ?body f] =>
      destruct (forEachCell_shape a b c d body f) as (H1 & H2 & H3)
  end.
  split; [exact H1|]. split; [exact H2|]. split; [now apply H3|].
  intros x y Hxy. rewrite mergeDisk_cell by assumption.
  destruct (inScanRectangle centerX centerY (cappingRadiusRatio * radius) x y);
    [apply Hop|apply Qle_refl].
Qed.

Lemma mergeDisk_raises_witness :
  dimX (mergeDisk (create 3 3) 1 1 1 2 Qmax) = dimX (create 3 3)
  /\ dimY (mergeDisk (create 3 3) 1 1 1 2 Qmax) = dimY (create 3 3)
  /\ rect (mergeDisk (create 3 3) 1 1 1 2 Qmax)
  /\ forall x y, isInside (create 3 3) x y = true ->
                 (get (create 3 3) x y <= get (mergeDisk (create 3 3) 1 1 1 2 Qmax) x y)%Q.
Proof.
  apply (mergeDisk_raises (create 3 3) 1 1 1 2 Qmax).
  - intros a b. apply Q.le_max_l.
  - apply create_rect.
Defined.

(** ** ScalarField: the distance to a segment *)

Lemma clamp01_spec (q : Q) :
  (0 <= Qmax 0 (Qmin 1 q))%Q /\ (Qmax 0 (Qmin 1 q) <= 1)%Q
  /\ ((Qmax 0 (Qmin 1 q) == 0)%Q \/ (Qmax 0 (Qmin 1 q) <= q)%Q)
  /\ ((Qmax 0 (Qmin 1 q) == 1)%Q \/ (q <= Qmax 0 (Qmin 1 q))%Q).
Proof.
  destruct (Q.max_spec 0 (Qmin 1 q)) as [[H1 H2]|[H1 H2]];
    destruct (Q.min_spec 1 q) as [[H3 H4]|[H3 H4]];
    rewrite H2; rewrite ?H4 in *; repeat split; try lra.
Qed.

Lemma segment_point_le_ends (x y x1 y1 x2 y2 t : Q) :
  let L := ((x2 - x1) * (x2 - x1) + (y2 - y1) * (y2 - y1))%Q in
  let B := ((x - x1) * (x2 - x1) + (y - y1) * (y2 - y1))%Q in
  (0 < L)%Q -> (0 <= t)%Q -> (t <= 1)%Q ->
  ((t == 0)%Q \/ (t * L <= B)%Q) -> ((t == 1)%Q \/ (B <= t * L)%Q) ->
  let d := ((x1 + t * (x2 - x1) - x) * (x1 + t * (x2 - x1) - x)
            + (y1 + t * (y2 - y1) - y) * (y1 + t * (y2 - y1) - y))%Q in
  (d <= (x1 - x) * (x1 - x) + (y1 - y) * (y1 - y))%Q
  /\ (d <= (x2 - x) * (x2 - x) + (y2 - y) * (y2 - y))%Q.
Proof.
  intros L B HL Ht0 Ht1 Ha Hb d.
  assert (E0 : (d == (x1 - x) * (x1 - x) + (y1 - y) * (y1 - y)
                     + (t * (t * L) - 2 * (t * B)))%Q).
  { unfold d, L, B. ring. }
  assert (E1 : (d == (x2 - x) * (x2 - x) + (y2 - y) * (y2 - y)
                     + (t - 1) * ((t + 1) * L - 2 * B))%Q).
  { unfold d, L, B. ring. }
  split.
  - rewrite E0. destruct Ha as [Ha|Ha].
    + rewrite Ha. lra.
    + assert (0 <= t * (B - t * L))%Q by (apply Qmult_le_0_compat; lra).
      assert (0 <= t * (t * L))%Q
        by (apply Qmult_le_0_compat; [lra|apply Qmult_le_0_compat; lra]).
      nra.
  - rewrite E1. destruct Hb as [Hb|Hb].
    + rewrite Hb. lra.
    + assert (0 <= (1 - t) * (t * L - B))%Q by (apply Qmult_le_0_compat; lra).
      assert (0 <= (1 - t) * ((1 - t) * L))%Q
        by (apply Qmult_le_0_compat; [lra|apply Qmult_le_0_compat; lra]).
      nra.
Qed.

Lemma squares_nonneg (a b : Q) : (0 <= a * a + b * b)%Q.
Proof. nra. Qed.

(** X11.  Over exact arithmetic, the squared distance of a point to a
    segment, as [getDistanceSqToSegment] computes it, is not negative
    and is at most
    the squared distance of the point to each end of the segment, also
    when the two ends are the same point. *)
Theorem getDistanceSqToSegment_le_ends (x y x1 y1 x2 y2 : Q) :
  (0 <= getDistanceSqToSegment x y x1 y1 x2 y2)%Q
  /\ (getDistanceSqToSegment x y x1 y1 x2 y2 <= getDistanceSq x y x1 y1)%Q
  /\ (getDistanceSqToSegment x y x1 y1 x2 y2 <= getDistanceSq x y x2 y2)%Q.
Proof.
  unfold getDistanceSqToSegment.
  destruct (Qeq_bool (getDistanceSq x1 y1 x2 y2) 0) eqn:E.
  - apply Qeq_bool_iff in E. unfold getDistanceSq in *. cbv zeta in *.
    assert (E0 : ((x2 - x1) * (x2 - x1) + (y2 - y1) * (y2 - y1) == 0 * 0)%Q)
      by (rewrite E; reflexivity).
    destruct (square_bound _ _ 0 (Qle_refl 0) E0) as [Hx1 Hx2].
    assert (E' : ((y2 - y1) * (y2 - y1) + (x2 - x1) * (x2 - x1) == 0 * 0)%Q)
      by (rewrite <- E0; ring).
    destruct (square_bound _ _ 0 (Qle_refl 0) E') as [Hy1 Hy2].
    assert (Ex : (x2 == x1)%Q) by lra. assert (Ey : (y2 == y1)%Q) by lra.
    split; [apply squares_nonneg|]. split; [apply Qle_refl|].
    rewrite Ex, Ey. apply Qle_refl.
  - assert (HL : (0 < getDistanceSq x1 y1 x2 y2)%Q).
    { assert (Hne : ~ (getDistanceSq x1 y1 x2 y2 == 0)%Q).
      { intros H. apply Qeq_bool_iff in H. congruence. }
      unfold getDistanceSq in *. cbv zeta in *.
      destruct (Qlt_le_dec 0 ((x2 - x1) * (x2 - x1) + (y2 - y1) * (y2 - y1)))
        as [H|H]; trivial.
      exfalso. apply Hne. apply Qle_antisym; [exact H|apply squares_nonneg]. }
    set (L := getDistanceSq x1 y1 x2 y2) in *.
    set (B := ((x - x1) * (x2 - x1) + (y - y1) * (y2 - y1))%Q).
    destruct (clamp01_spec (B / L)) as (Ht0 & Ht1 & Ha & Hb).
    set (t := Qmax 0 (Qmin 1 (B / L))) in *.
    assert (Hq : (B / L * L == B)%Q) by (field; lra).
    assert (Ha' : (t == 0)%Q \/ (t * L <= B)%Q).
    { destruct Ha as [Ha|Ha]; [now left|right].
      rewrite <- Hq. apply Qmult_le_compat_r; lra. }
    assert (Hb' : (t == 1)%Q \/ (B <= t * L)%Q).
    { destruct Hb as [Hb|Hb]; [now left|right].
      rewrite <- Hq. apply Qmult_le_compat_r; lra. }
    destruct (segment_point_le_ends x y x1 y1 x2 y2 t HL Ht0 Ht1 Ha' Hb')
      as [H1 H2].
    unfold getDistanceSq. cbv zeta. split; [apply squares_nonneg|].
    split; assumption.
Qed.

(** ** ScalarField: the operations on every value *)

Lemma map_dimX (g : Q -> Q) f : dimX (map (map g) f) = dimX f.
Proof. destruct f as [|row f]; [reflexivity|]. cbn. now rewrite length_map. Qed.

Lemma map_dimY (g : Q -> Q) f : dimY (map (map g) f) = dimY f.
Proof. unfold dimY. now rewrite length_map. Qed.

Lemma map_rect (g : Q -> Q) f : rect f -> rect (map (map g) f).
Proof.
  unfold rect. rewrite map_dimX. intros H. apply Forall_map.
  eapply Forall_impl; [|exact H]. intros row Hrow. now rewrite length_map.
Qed.

Lemma get_map (g : Q -> Q) f x y :
  rect f -> isInside f x y = true -> get (map (map g) f) x y = g (get f x y).
Proof.
  intros Hr Hin. apply isInside_iff in Hin. destruct Hin as [Hx Hy].
  unfold get. change (@nil Q) with (map g []) at 1. rewrite map_nth.
  assert (Hl := rect_row_length f y Hr Hy).
  rewrite (nth_indep _ 0%Q (g 0%Q)) by (rewrite length_map; lia).
  apply map_nth.
Qed.

(** X12.  [clamp] keeps the dimensions of the grid and leaves every cell
    at most [max]; when [min <= max] every cell is at least [min] as
    well, and a cell that was between the two keeps its value. *)
Theorem clamp_bounds (f : t) (min max : Q) (x y : Z) :
  rect f -> isInside f x y = true ->
  dimX (clamp f min max) = dimX f /\ dimY (clamp f min max) = dimY f
  /\ (get (clamp f min max) x y <= max)%Q
  /\ ((min <= max)%Q -> (min <= get (clamp f min max) x y)%Q)
  /\ ((min <= get f x y)%Q -> (get f x y <= max)%Q ->
      (get (clamp f min max) x y == get f x y)%Q).
Proof.
  intros Hr Hin. unfold clamp. rewrite map_dimX, map_dimY, get_map by assumption.
  split; [reflexivity|]. split; [reflexivity|].
  split; [apply Q.le_min_r|]. split.
  - intros H. apply Q.min_glb; [apply Q.le_max_l|exact H].
  - intros H1 H2. rewrite Q.max_r by assumption. now apply Q.min_l.
Qed.

Lemma clamp_bounds_witness :
  dimX (clamp squareField (1 # 4) (1 # 2)) = dimX squareField
  /\ dimY (clamp squareField (1 # 4) (1 # 2)) = dimY squareField
  /\ (get (clamp squareField (1 # 4) (1 # 2)) 2 1 <= 1 # 2)%Q
  /\ ((1 # 4 <= 1 # 2)%Q -> (1 # 4 <= get (clamp squareField (1 # 4) (1 # 2)) 2 1)%Q)
  /\ ((1 # 4 <= get squareField 2 1)%Q -> (get squareField 2 1 <= 1 # 2)%Q ->
      (get (clamp squareField (1 # 4) (1 # 2)) 2 1 == get squareField 2 1)%Q).
Proof.
  apply (clamp_bounds squareField (1 # 4) (1 # 2) 2 1).
  - unfold rect. repeat constructor.
  - reflexivity.
Defined.

(** X13.  Over exact arithmetic, two calls of [transform] are one:
    [transform a b] and then
    [transform c d] leave in every cell the value that
    [transform (c * a) (c * b + d)] leaves. *)
Theorem transform_transform (f : t) (a b c d : Q) (x y : Z) :
  rect f -> isInside f x y = true ->
  (get (transform (transform f a b) c d) x y
   == get (transform f (c * a) (c * b + d)) x y)%Q.
Proof.
  intros Hr Hin. unfold transform.
  rewrite get_map; [|now apply map_rect|].
  - rewrite !get_map by assumption. ring.
  - unfold isInside. now rewrite map_dimX, map_dimY.
Qed.

Lemma transform_transform_witness :
  (get (transform (transform squareField 2 1) 3 5) 2 1
   == get (transform squareField (3 * 2) (3 * 1 + 5)) 2 1)%Q.
Proof.
  apply (transform_transform squareField 2 1 3 5 2 1).
  - unfold rect. repeat constructor.
  - reflexivity.
Defined.

(** X14.  [mergeField] combines [operation this other] in exactly the
    cells that both grids have, and leaves the other cells of the grid
    as they were; the grid keeps its dimensions. *)
Theorem mergeField_overlap (f other : t) (operation : Q -> Q -> Q) (x y : Z) :
  rect f -> rect other -> isInside f x y = true ->
  dimX (mergeField f other operation) = dimX f
  /\ dimY (mergeField f other operation) = dimY f
  /\ get (mergeField f other operation) x y
     = if isInside other x y then operation (get f x y) (get other x y)
       else get f x y.
Proof.
  intros Hr _ Hin. unfold mergeField.
  match goal with
  | |- context [forEachCell ?a ?b ?c ?d ?body f] =>
      destruct (forEachCell_shape a b c d body f) as (H1 & H2 & _)
  end.
  split; [exact H1|]. split; [exact H2|].
  rewrite (forEachCell_get (fun x y v => operation v (get other x y)));
    trivial; try lia.
  assert (E : (0 <=? x) && (x <=? Z.min (dimX f) (dimX other) - 1)
              && (0 <=? y) && (y <=? Z.min (dimY f) (dimY other) - 1)
              = isInside other x y).
  { apply isInside_iff in Hin. unfold isInside.
    apply eq_true_iff_eq. rewrite !andb_true_iff, !Z.leb_le. lia. }
  now rewrite E.
Qed.

Lemma mergeField_overlap_witness :
  dimX (mergeField squareField fullField Qplus) = dimX squareField
  /\ dimY (mergeField squareField fullField Qplus) = dimY squareField
  /\ get (mergeField squareField fullField Qplus) 1 1
     = if isInside fullField 1 1
       then Qplus (get squareField 1 1) (get fullField 1 1)
       else get squareField 1 1.
Proof.
  apply (mergeField_overlap squareField fullField Qplus 1 1).
  - unfold rect. repeat constructor.
  - unfold rect. repeat constructor.
  - reflexivity.
Defined.

(** ** FloodFill: a grid with no wall *)

Lemma reachable_walk canFlood f origin delta :
  (forall c, insideCell f c = true -> canFlood (getCell f c) = true) ->
  In delta deltas ->
  forall (n : nat) c,
    reachable canFlood f origin c ->
    (forall k, 1 <= k <= Z.of_nat n ->
               insideCell f (fst c + k * fst delta, snd c + k * snd delta) = true) ->
    reachable canFlood f origin
              (fst c + Z.of_nat n * fst delta, snd c + Z.of_nat n * snd delta).
Proof.
  intros Hall Hd n. induction n as [|n IH]; intros c Hc Hin.
  - destruct c as [x y]. cbn [fst snd Z.of_nat].
    now rewrite !Z.mul_0_l, !Z.add_0_r.
  - assert (Hn : reachable canFlood f origin
                           (fst c + Z.of_nat n * fst delta,
                            snd c + Z.of_nat n * snd delta))
      by (apply IH; [exact Hc|intros k Hk; apply Hin; lia]).
    assert (E : (fst c + Z.of_nat (S n) * fst delta,
                 snd c + Z.of_nat (S n) * snd delta)
                = neighbor (fst c + Z.of_nat n * fst delta,
                            snd c + Z.of_nat n * snd delta) delta)
      by (unfold neighbor; cbn [fst snd]; f_equal; lia).
    assert (Hi : insideCell f (fst c + Z.of_nat (S n) * fst delta,
                               snd c + Z.of_nat (S n) * snd delta) = true)
      by (apply Hin; lia).
    rewrite E in Hi |- *.
    apply reachable_step; trivial. now apply Hall.
Qed.

Lemma reachable_row canFlood f origin x y x' :
  (forall c, insideCell f c = true -> canFlood (getCell f c) = true) ->
  reachable canFlood f origin (x, y) -> isInside f x' y = true ->
  reachable canFlood f origin (x', y).
Proof.
  intros Hall Hc Hin.
  assert (Hc' := proj1 (reachable_floodable _ _ _ _ Hc)).
  unfold insideCell in Hc'. cbn [fst snd] in Hc'.
  apply isInside_iff in Hc', Hin.
  destruct (Z_le_gt_dec x x') as [Hle|Hgt].
  - assert (H := reachable_walk canFlood f origin (1, 0) Hall
                   ltac:(cbn; tauto) (Z.to_nat (x' - x)) (x, y) Hc).
    cbn [fst snd] in H.
    replace (x + Z.of_nat (Z.to_nat (x' - x)) * 1) with x' in H by lia.
    replace (y + Z.of_nat (Z.to_nat (x' - x)) * 0) with y in H by lia.
    apply H. intros k Hk. unfold insideCell. cbn [fst snd].
    apply isInside_iff. lia.
  - assert (H := reachable_walk canFlood f origin (-1, 0) Hall
                   ltac:(cbn; tauto) (Z.to_nat (x - x')) (x, y) Hc).
    cbn [fst snd] in H.
    replace (x + Z.of_nat (Z.to_nat (x - x')) * -1) with x' in H by lia.
    replace (y + Z.of_nat (Z.to_nat (x - x')) * 0) with y in H by lia.
    apply H. intros k Hk. unfold insideCell. cbn [fst snd].
    apply isInside_iff. lia.
Qed.

Lemma reachable_column canFlood f origin x y y' :
  (forall c, insideCell f c = true -> canFlood (getCell f c) = true) ->
  reachable canFlood f origin (x, y) -> isInside f x y' = true ->
  reachable canFlood f origin (x, y').
Proof.
  intros Hall Hc Hin.
  assert (Hc' := proj1 (reachable_floodable _ _ _ _ Hc)).
  unfold insideCell in Hc'. cbn [fst snd] in Hc'.
  apply isInside_iff in Hc', Hin.
  destruct (Z_le_gt_dec y y') as [Hle|Hgt].
  - assert (H := reachable_walk canFlood f origin (0, 1) Hall
                   ltac:(cbn; tauto) (Z.to_nat (y' - y)) (x, y) Hc).
    cbn [fst snd] in H.
    replace (y + Z.of_nat (Z.to_nat (y' - y)) * 1) with y' in H by lia.
    replace (x + Z.of_nat (Z.to_nat (y' - y)) * 0) with x in H by lia.
    apply H. intros k Hk. unfold insideCell. cbn [fst snd].
    apply isInside_iff. lia.
  - assert (H := reachable_walk canFlood f origin (0, -1) Hall
                   ltac:(cbn; tauto) (Z.to_nat (y - y')) (x, y) Hc).
    cbn [fst snd] in H.
    replace (y + Z.of_nat (Z.to_nat (y - y')) * -1) with y' in H by lia.
    replace (x + Z.of_nat (Z.to_nat (y - y')) * 0) with x in H by lia.
    apply H. intros k Hk. unfold insideCell. cbn [fst snd].
    apply isInside_iff. lia.
Qed.

(** On a grid all of whose cells can be flooded, every cell is
    4-connected to every other. *)
Lemma reachable_everywhere canFlood f origin c :
  (forall c, insideCell f c = true -> canFlood (getCell f c) = true) ->
  insideCell f origin = true -> insideCell f c = true ->
  reachable canFlood f origin c.
Proof.
  intros Hall Ho Hc. destruct origin as [ox oy], c as [x y].
  unfold insideCell in Ho, Hc. cbn [fst snd] in Ho, Hc.
  apply reachable_column with (y := oy); trivial.
  apply reachable_row with (x := ox); trivial.
  - apply reachable_origin; [exact Ho|now apply Hall].
  - apply isInside_iff in Ho, Hc. apply isInside_iff. lia.
Qed.

Lemma clear_cells f value : cells (clear f value) = cells f.
Proof. unfold cells, clear. now rewrite map_dimX, map_dimY. Qed.

(** X15.  On a grid cleared to a value below [valueMax], [fillFrom] with
    a thickness of [0] from any cell of the grid returns with the whole
    grid at the filling value: with no cell at [valueMax] or above, the
    flood reaches every cell. *)
Theorem fillFrom_floods_cleared_grid (fuel : nat) (f : t)
        (originX originY value valueMax cappingRadiusRatio : Q) :
  rect f -> isInside f (round originX) (round originY) = true ->
  (value < valueMax)%Q -> (fuelFor f <= fuel)%nat ->
  exists f',
    fillFrom fuel (clear f value) originX originY valueMax 0 cappingRadiusRatio
    = Some f'
    /\ dimX f' = dimX f /\ dimY f' = dimY f
    /\ forall x y, isInside f x y = true ->
                   get f' x y = fillFillingValue valueMax 0.
Proof.
  intros Hr Hin Hlt Hfuel.
  set (g := clear f value).
  set (canFlood := fun fieldValue : Q => Qltb fieldValue valueMax).
  assert (Hrg : rect g) by (now apply map_rect).
  assert (HX : dimX g = dimX f) by apply map_dimX.
  assert (HY : dimY g = dimY f) by apply map_dimY.
  assert (Hinside : forall x y, isInside g x y = isInside f x y)
    by (intros; unfold isInside; now rewrite HX, HY).
  assert (Hfuelg : (fuelFor g <= fuel)%nat)
    by (unfold fuelFor, g in *; now rewrite clear_cells).
  assert (Hall : forall c, insideCell g c = true -> canFlood (getCell g c) = true).
  { intros [x y] Hc. unfold insideCell, getCell in *. cbn [fst snd] in *.
    unfold g, clear. rewrite get_map; [|exact Hr|now rewrite <- Hinside].
    now apply Qltb_lt. }
  destruct (floodAndShade_terminates
              canFlood (fillFillingValue valueMax 0)
              (fillContourValue 0 cappingRadiusRatio)
              (fill_contour_keeps_dry valueMax 0 cappingRadiusRatio)
              (fill_filling_is_dry valueMax 0)
              (fill_accepted_once 0 cappingRadiusRatio)
              (fill_accepted_before 0 cappingRadiusRatio)
              fuel g originX originY Hrg Hfuelg)
    as (f1 & stack & f' & E1 & E2 & Hstate & Hs).
  apply shaded_none in Hs; [|intros; now apply fill_never_accepts]. subst f'.
  exists f1. split; [exact E2|].
  destruct Hstate as (_ & HX1 & HY1 & _).
  split; [congruence|]. split; [congruence|].
  assert (Hing : insideCell g (round originX, round originY) = true)
    by (unfold insideCell; cbn [fst snd]; now rewrite Hinside).
  assert (Hfl := Hall _ Hing).
  unfold floodFrom in E1. unfold insideCell in Hing. cbn [fst snd] in Hing.
  rewrite Hing in E1. cbn [negb] in E1.
  unfold getCell in Hfl. cbn [fst snd] in Hfl. rewrite Hfl in E1.
  intros x y Hxy.
  apply (floodLoop_region canFlood (fillFillingValue valueMax 0)
                          (fillContourValue 0 cappingRadiusRatio)
                          (fill_contour_keeps_dry valueMax 0 cappingRadiusRatio)
                          (fill_filling_is_dry valueMax 0)
                          (fun v d Hd => fill_never_accepts cappingRadiusRatio v d Hd)
                          g (round originX, round originY) Hing fuel f1 stack
                          Hrg Hfl E1 (x, y)).
  - unfold insideCell. cbn [fst snd]. now rewrite Hinside.
  - apply reachable_everywhere; trivial.
    unfold insideCell. cbn [fst snd]. now rewrite Hinside.
Qed.

Lemma fillFrom_floods_cleared_grid_witness :
  exists f',
    fillFrom (fuelFor squareField) (clear squareField (1 # 2)) 4 4 3 0 1 = Some f'
    /\ dimX f' = dimX squareField /\ dimY f' = dimY squareField
    /\ forall x y, isInside squareField x y = true ->
                   get f' x y = fillFillingValue 3 0.
Proof.
  apply (fillFrom_floods_cleared_grid (fuelFor squareField) squareField
                                      4 4 (1 # 2) 3 1).
  - unfold rect. repeat constructor.
  - reflexivity.
  - reflexivity.
  - apply Nat.le_refl.
Defined.

(** ** CoordConverter *)

Lemma inject_Z_nonzero (n : Z) : n <> 0 -> ~ (inject_Z n == 0)%Q.
Proof.
  intros Hn H. apply Hn. unfold Qeq in H. cbn in H. lia.
Qed.

(** X16.  With cells whose width and height are not [0], converting to
    the grid basis and back, or from the grid basis and back, gives the
    coordinate one started from, on both axes. *)
Theorem convert_round_trip (c : CoordConverter.t) (x y : Q) :
  CoordConverter.cellWidth c <> 0 -> CoordConverter.cellHeight c <> 0 ->
  (CoordConverter.convertToGridBasisX c (CoordConverter.convertFromGridBasisX c x)
   == x)%Q
  /\ (CoordConverter.convertFromGridBasisX c (CoordConverter.convertToGridBasisX c x)
      == x)%Q
  /\ (CoordConverter.convertToGridBasisY c (CoordConverter.convertFromGridBasisY c y)
      == y)%Q
  /\ (CoordConverter.convertFromGridBasisY c (CoordConverter.convertToGridBasisY c y)
      == y)%Q.
Proof.
  intros Hw Hh. apply inject_Z_nonzero in Hw, Hh.
  unfold CoordConverter.convertToGridBasisX, CoordConverter.convertFromGridBasisX,
    CoordConverter.convertToGridBasisY, CoordConverter.convertFromGridBasisY.
  repeat split; field; assumption.
Qed.

Lemma convert_round_trip_witness :
  (CoordConverter.convertToGridBasisX
     (CoordConverter.mk 32 16 10 20 266 148)
     (CoordConverter.convertFromGridBasisX
        (CoordConverter.mk 32 16 10 20 266 148) (5 # 2))
   == 5 # 2)%Q
  /\ (CoordConverter.convertFromGridBasisX
        (CoordConverter.mk 32 16 10 20 266 148)
        (CoordConverter.convertToGridBasisX
           (CoordConverter.mk 32 16 10 20 266 148) (5 # 2))
      == 5 # 2)%Q
  /\ (CoordConverter.convertToGridBasisY
        (CoordConverter.mk 32 16 10 20 266 148)
        (CoordConverter.convertFromGridBasisY
           (CoordConverter.mk 32 16 10 20 266 148) (7 # 3))
      == 7 # 3)%Q
  /\ (CoordConverter.convertFromGridBasisY
        (CoordConverter.mk 32 16 10 20 266 148)
        (CoordConverter.convertToGridBasisY
           (CoordConverter.mk 32 16 10 20 266 148) (7 # 3))
      == 7 # 3)%Q.
Proof.
  apply (convert_round_trip (CoordConverter.mk 32 16 10 20 266 148) (5 # 2) (7 # 3)).
  - cbn. lia.
  - cbn. lia.
Defined.

(** X17.  Over exact arithmetic and with a cell width that is not [0],
    [convertToGridBasisDistance] divides by the width of a cell only: it
    is the difference of two converted abscissas, and the difference of
    two converted ordinates when the cells are as high as they are
    wide. *)
Theorem convert_distance (c : CoordConverter.t) (a b : Q) :
  CoordConverter.cellWidth c <> 0 ->
  (CoordConverter.convertToGridBasisX c a - CoordConverter.convertToGridBasisX c b
   == CoordConverter.convertToGridBasisDistance c (a - b))%Q
  /\ (CoordConverter.cellHeight c = CoordConverter.cellWidth c ->
      (CoordConverter.convertToGridBasisY c a - CoordConverter.convertToGridBasisY c b
       == CoordConverter.convertToGridBasisDistance c (a - b))%Q).
Proof.
  intros Hw. apply inject_Z_nonzero in Hw.
  unfold CoordConverter.convertToGridBasisX, CoordConverter.convertToGridBasisY,
    CoordConverter.convertToGridBasisDistance.
  split; [|intros ->]; field; assumption.
Qed.

Lemma convert_distance_witness :
  (CoordConverter.convertToGridBasisX (CoordConverter.mk 32 32 10 20 266 276) 100
   - CoordConverter.convertToGridBasisX (CoordConverter.mk 32 32 10 20 266 276) 36
   == CoordConverter.convertToGridBasisDistance
        (CoordConverter.mk 32 32 10 20 266 276) (100 - 36))%Q
  /\ (CoordConverter.cellHeight (CoordConverter.mk 32 32 10 20 266 276)
      = CoordConverter.cellWidth (CoordConverter.mk 32 32 10 20 266 276) ->
      (CoordConverter.convertToGridBasisY (CoordConverter.mk 32 32 10 20 266 276) 100
       - CoordConverter.convertToGridBasisY (CoordConverter.mk 32 32 10 20 266 276) 36
       == CoordConverter.convertToGridBasisDistance
            (CoordConverter.mk 32 32 10 20 266 276) (100 - 36))%Q).
Proof.
  apply (convert_distance (CoordConverter.mk 32 32 10 20 266 276) 100 36).
  cbn. lia.
Defined.

(** ** ScalarField: extrapolate *)

Lemma zrange_two a : zrange a (a + 1) = [a; a + 1].
Proof.
  rewrite zrange_cons by lia. now rewrite zrange_one.
Qed.

Lemma extrapolate_square hypot f x y :
  0 <= Qfloor x <= dimX f - 2 -> 0 <= Qfloor y <= dimY f - 2 ->
  extrapolate hypot f x y
  = match
      fold_left (extrapolateVertex hypot f x y)
                [(Qfloor x, Qfloor y); (Qfloor x, Qfloor y + 1);
                 (Qfloor x + 1, Qfloor y); (Qfloor x + 1, Qfloor y + 1)]
                (inr (0%Q, 0%Q))
    with
    | inl value => value
    | inr (weighedValueSum, weightSum) => (weighedValueSum / weightSum)%Q
    end.
Proof.
  intros Hx Hy. unfold extrapolate. cbv zeta.
  destruct (Z.ltb_spec (Qfloor x) 0); [lia|].
  destruct (Z.ltb_spec (Qfloor y) 0); [lia|].
  rewrite !Z.geb_leb.
  destruct (Z.leb_spec (dimX f - 1) (Qfloor x)); [lia|].
  destruct (Z.leb_spec (dimY f - 1) (Qfloor y)); [lia|].
  cbn [orb]. rewrite !zrange_two. reflexivity.
Qed.

Lemma extrapolate_vertex hypot f x y vertexX vertexY :
  (x == inject_Z vertexX)%Q -> (y == inject_Z vertexY)%Q ->
  0 <= vertexX <= dimX f - 2 -> 0 <= vertexY <= dimY f - 2 ->
  extrapolate hypot f x y = get f vertexX vertexY.
Proof.
  intros Hx Hy HX HY.
  assert (Ex : Qfloor x = vertexX) by (rewrite Hx; apply Qfloor_Z).
  assert (Ey : Qfloor y = vertexY) by (rewrite Hy; apply Qfloor_Z).
  rewrite extrapolate_square by lia. rewrite Ex, Ey.
  cbn [fold_left]. unfold extrapolateVertex at 4.
  assert (E1 : Qeq_bool (inject_Z vertexX - x) 0 = true)
    by (apply Qeq_bool_iff; rewrite Hx; ring).
  assert (E2 : Qeq_bool (inject_Z vertexY - y) 0 = true)
    by (apply Qeq_bool_iff; rewrite Hy; ring).
  cbv zeta. rewrite E1, E2. reflexivity.
Qed.

(** X18.  At a vertex of the grid that has a next column and a next
    row, [extrapolate] returns the value of the vertex, whatever
    [Math.hypot] gives. *)
Theorem extrapolate_at_vertex (hypot : Q -> Q -> Q) (f : t) (x y : Q)
        (vertexX vertexY : Z) :
  (x == inject_Z vertexX)%Q -> (y == inject_Z vertexY)%Q ->
  0 <= vertexX <= dimX f - 2 -> 0 <= vertexY <= dimY f - 2 ->
  extrapolate hypot f x y = get f vertexX vertexY.
Proof.
  intros Hx Hy HX HY. now apply extrapolate_vertex.
Qed.

Lemma extrapolate_at_vertex_witness :
  extrapolate (fun dx dy => Qabs dx + Qabs dy)%Q squareField 2 1
  = get squareField 2 1.
Proof.
  apply (extrapolate_at_vertex (fun dx dy => Qabs dx + Qabs dy)%Q squareField
                               2 1 2 1).
  - reflexivity.
  - reflexivity.
  - cbn. lia.
  - cbn. lia.
Defined.

Section ExtrapolateMean.

Variable hypot : Q -> Q -> Q.

(** What [Math.hypot] is taken to satisfy: the norm of a vector that is
    not null is positive. *)
Hypothesis hypot_pos :
  forall dx dy, ~ ((dx == 0)%Q /\ (dy == 0)%Q) -> (0 < hypot dx dy)%Q.

Variable f : t.
Variables x y m M : Q.

Lemma extrapolateVertex_between acc vertexX vertexY :
  (m <= get f vertexX vertexY)%Q -> (get f vertexX vertexY <= M)%Q ->
  match acc with
  | inl value => (m <= value)%Q /\ (value <= M)%Q
  | inr (weighedValueSum, weightSum) =>
      (0 <= weightSum)%Q /\ (m * weightSum <= weighedValueSum)%Q
      /\ (weighedValueSum <= M * weightSum)%Q
  end ->
  match extrapolateVertex hypot f x y acc (vertexX, vertexY) with
  | inl value => (m <= value)%Q /\ (value <= M)%Q
  | inr (weighedValueSum, weightSum) =>
      (0 < weightSum)%Q /\ (m * weightSum <= weighedValueSum)%Q
      /\ (weighedValueSum <= M * weightSum)%Q
  end.
Proof.
  intros Hm HM Hacc. destruct acc as [value|[S W]]; [exact Hacc|].
  destruct Hacc as (HW & H1 & H2). unfold extrapolateVertex. cbv zeta.
  destruct (Qeq_bool (inject_Z vertexX - x) 0 && Qeq_bool (inject_Z vertexY - y) 0)
    eqn:E; [now split|].
  assert (Hd : (0 < hypot (inject_Z vertexX - x) (inject_Z vertexY - y))%Q).
  { apply hypot_pos. intros [E1 E2]. apply Qeq_bool_iff in E1, E2.
    rewrite E1, E2 in E. discriminate. }
  apply Qinv_lt_0_compat in Hd. unfold Qdiv.
  set (w := (/ hypot (inject_Z vertexX - x) (inject_Z vertexY - y))%Q) in *.
  assert (Hmw : (m * w <= get f vertexX vertexY * w)%Q)
    by (apply Qmult_le_compat_r; [exact Hm|now apply Qlt_le_weak]).
  assert (HMw : (get f vertexX vertexY * w <= M * w)%Q)
    by (apply Qmult_le_compat_r; [exact HM|now apply Qlt_le_weak]).
  repeat split; lra.
Qed.

Lemma extrapolateVertex_weaken (acc : Q + Q * Q) :
  match acc with
  | inl value => (m <= value)%Q /\ (value <= M)%Q
  | inr (weighedValueSum, weightSum) =>
      (0 < weightSum)%Q /\ (m * weightSum <= weighedValueSum)%Q
      /\ (weighedValueSum <= M * weightSum)%Q
  end ->
  match acc with
  | inl value => (m <= value)%Q /\ (value <= M)%Q
  | inr (weighedValueSum, weightSum) =>
      (0 <= weightSum)%Q /\ (m * weightSum <= weighedValueSum)%Q
      /\ (weighedValueSum <= M * weightSum)%Q
  end.
Proof.
  destruct acc as [value|[S W]]; [trivial|].
  intros (H & H1 & H2). repeat split; trivial. now apply Qlt_le_weak.
Qed.

Lemma extrapolate_mean :
  0 <= Qfloor x <= dimX f - 2 -> 0 <= Qfloor y <= dimY f - 2 ->
  (forall vertexX vertexY,
      Qfloor x <= vertexX <= Qfloor x + 1 -> Qfloor y <= vertexY <= Qfloor y + 1 ->
      (m <= get f vertexX vertexY)%Q /\ (get f vertexX vertexY <= M)%Q) ->
  (m <= extrapolate hypot f x y)%Q /\ (extrapolate hypot f x y <= M)%Q.
Proof.
  intros Hx Hy Hv. rewrite extrapolate_square by assumption.
  cbn [fold_left].
  match goal with
  | |- context [extrapolateVertex hypot f x y ?acc (Qfloor x + 1, Qfloor y + 1)] =>
      assert (H := extrapolateVertex_between acc (Qfloor x + 1) (Qfloor y + 1))
  end.
  match type of H with
  | _ -> _ -> ?pre -> _ => assert (Hpre : pre)
  end.
  { apply extrapolateVertex_weaken. apply extrapolateVertex_between;
      try (apply Hv; lia).
    apply extrapolateVertex_weaken. apply extrapolateVertex_between;
      try (apply Hv; lia).
    apply extrapolateVertex_weaken. apply extrapolateVertex_between;
      try (apply Hv; lia).
    repeat split; lra. }
  specialize (H ltac:(apply Hv; lia) ltac:(apply Hv; lia) Hpre). clear Hpre.
  destruct (extrapolateVertex hypot f x y _ (Qfloor x + 1, Qfloor y + 1))
    as [value|[S W]]; [exact H|].
  destruct H as (HW & H1 & H2). split.
  - apply Qle_shift_div_l; assumption.
  - apply Qle_shift_div_r; assumption.
Qed.

End ExtrapolateMean.

(** X19.  Over exact arithmetic, with a [Math.hypot] that is positive
    on every vector but the null one, [extrapolate] in a cell of the
    grid gives a value between
    the least and the greatest of the values at the four vertices of the
    cell. *)
Theorem extrapolate_between_vertices (hypot : Q -> Q -> Q) (f : t) (x y m M : Q) :
  (forall dx dy, ~ ((dx == 0)%Q /\ (dy == 0)%Q) -> (0 < hypot dx dy)%Q) ->
  0 <= Qfloor x <= dimX f - 2 -> 0 <= Qfloor y <= dimY f - 2 ->
  (forall vertexX vertexY,
      Qfloor x <= vertexX <= Qfloor x + 1 -> Qfloor y <= vertexY <= Qfloor y + 1 ->
      (m <= get f vertexX vertexY)%Q /\ (get f vertexX vertexY <= M)%Q) ->
  (m <= extrapolate hypot f x y)%Q /\ (extrapolate hypot f x y <= M)%Q.
Proof.
  intros Hpos Hx Hy Hv. now apply extrapolate_mean.
Qed.

Lemma extrapolate_between_vertices_witness :
  (0 <= extrapolate (fun _ _ => 1%Q) squareField (3 # 2) (1 # 2))%Q
  /\ (extrapolate (fun _ _ => 1%Q) squareField (3 # 2) (1 # 2) <= 1)%Q.
Proof.
  apply (extrapolate_between_vertices (fun _ _ => 1%Q) squareField
                                      (3 # 2) (1 # 2) 0 1).
  - intros dx dy _. reflexivity.
  - vm_compute. split; discriminate.
  - vm_compute. split; discriminate.
  - intros vertexX vertexY HX HY.
    change (Qfloor (3 # 2)) with 1 in HX. change (Qfloor (1 # 2)) with 0 in HY.
    assert (EX : vertexX = 1 \/ vertexX = 2) by lia.
    assert (EY : vertexY = 0 \/ vertexY = 1) by lia.
    destruct EX as [-> | ->], EY as [-> | ->]; vm_compute; split; discriminate.
Defined.

(** ** HeightMap *)

(** X20.  Over exact arithmetic, [getHeight] at the scene position of a
    vertex of the grid that has a next column and a next row is the
    value of the field at the vertex, with cells whose sizes are not
    [0]. *)
Theorem getHeight_at_vertex (hypot : Q -> Q -> Q) (h : HeightMap.t)
        (vertexX vertexY : Z) :
  let c := HeightMap.coordConverter h in
  CoordConverter.cellWidth c <> 0 -> CoordConverter.cellHeight c <> 0 ->
  0 <= vertexX <= dimX (HeightMap.scalarField h) - 2 ->
  0 <= vertexY <= dimY (HeightMap.scalarField h) - 2 ->
  HeightMap.getHeight hypot h
    (CoordConverter.convertFromGridBasisX c (inject_Z vertexX))
    (CoordConverter.convertFromGridBasisY c (inject_Z vertexY))
  = get (HeightMap.scalarField h) vertexX vertexY.
Proof.
  intros c Hw Hh HX HY. unfold HeightMap.getHeight. fold c.
  apply inject_Z_nonzero in Hw, Hh.
  apply extrapolate_vertex; trivial.
  - unfold CoordConverter.convertToGridBasisX, CoordConverter.convertFromGridBasisX.
    field. exact Hw.
  - unfold CoordConverter.convertToGridBasisY, CoordConverter.convertFromGridBasisY.
    field. exact Hh.
Qed.

Lemma getHeight_at_vertex_witness :
  HeightMap.getHeight
    (fun dx dy => Qabs dx + Qabs dy)%Q
    (HeightMap.mk squareField (CoordConverter.mk 32 16 10 20 266 148))
    (CoordConverter.convertFromGridBasisX
       (CoordConverter.mk 32 16 10 20 266 148) (inject_Z 2))
    (CoordConverter.convertFromGridBasisY
       (CoordConverter.mk 32 16 10 20 266 148) (inject_Z 1))
  = get squareField 2 1.
Proof.
  apply (getHeight_at_vertex
           (fun dx dy => Qabs dx + Qabs dy)%Q
           (HeightMap.mk squareField (CoordConverter.mk 32 16 10 20 266 148)) 2 1).
  - cbn. lia.
  - cbn. lia.
  - cbn. lia.
  - cbn. lia.
Defined.

Lemma Qfloor_neg (x : Q) : (x < 0)%Q -> Qfloor x < 0.
Proof.
  intros H. assert (H1 := Qfloor_le x).
  assert (H2 : (inject_Z (Qfloor x) < inject_Z 0)%Q)
    by (eapply Qle_lt_trans; [exact H1|exact H]).
  now rewrite <- Zlt_Qlt in H2.
Qed.

Lemma Qfloor_ge (x : Q) (n : Z) : (inject_Z n <= x)%Q -> n <= Qfloor x.
Proof.
  intros H. rewrite <- (Qfloor_Z n). now apply Qfloor_resp_le.
Qed.

(** X21.  Over exact arithmetic, with cells of positive sizes,
    [getHeight] is [0] for every
    point to the left of or above the origin of the grid, and for every
    point at or beyond the last column or the last row of vertices. *)
Theorem getHeight_outside (hypot : Q -> Q -> Q) (h : HeightMap.t) (pointX pointY : Q) :
  let c := HeightMap.coordConverter h in
  let f := HeightMap.scalarField h in
  0 < CoordConverter.cellWidth c -> 0 < CoordConverter.cellHeight c ->
  (pointX < CoordConverter.left c)%Q \/ (pointY < CoordConverter.top c)%Q
  \/ (CoordConverter.convertFromGridBasisX c (inject_Z (dimX f - 1)) <= pointX)%Q
  \/ (CoordConverter.convertFromGridBasisY c (inject_Z (dimY f - 1)) <= pointY)%Q ->
  HeightMap.getHeight hypot h pointX pointY = 0%Q.
Proof.
  intros c f Hw Hh H. unfold HeightMap.getHeight. fold c. fold f.
  assert (Hw' : (0 < inject_Z (CoordConverter.cellWidth c))%Q)
    by (now rewrite <- (Zlt_Qlt 0)).
  assert (Hh' : (0 < inject_Z (CoordConverter.cellHeight c))%Q)
    by (now rewrite <- (Zlt_Qlt 0)).
  unfold extrapolate. cbv zeta.
  match goal with
  | |- (if ?b then _ else _) = _ => assert (E : b = true); [|now rewrite E]
  end.
  rewrite !orb_true_iff, !Z.ltb_lt, !Z.geb_leb, !Z.leb_le.
  unfold CoordConverter.convertToGridBasisX, CoordConverter.convertToGridBasisY.
  unfold CoordConverter.convertFromGridBasisX, CoordConverter.convertFromGridBasisY in H.
  destruct H as [H|[H|[H|H]]].
  - left. left. left. apply Qfloor_neg. apply Qlt_shift_div_r; [exact Hw'|]. lra.
  - left. left. right. apply Qfloor_neg. apply Qlt_shift_div_r; [exact Hh'|]. lra.
  - left. right. apply Qfloor_ge. apply Qle_shift_div_l; [exact Hw'|]. lra.
  - right. apply Qfloor_ge. apply Qle_shift_div_l; [exact Hh'|]. lra.
Qed.

Lemma getHeight_outside_witness :
  HeightMap.getHeight
    (fun dx dy => Qabs dx + Qabs dy)%Q
    (HeightMap.mk squareField (CoordConverter.mk 32 16 10 20 266 148)) 5 60
  = 0%Q.
Proof.
  apply (getHeight_outside
           (fun dx dy => Qabs dx + Qabs dy)%Q
           (HeightMap.mk squareField (CoordConverter.mk 32 16 10 20 266 148)) 5 60).
  - reflexivity.
  - reflexivity.
  - left. reflexivity.
Defined.

(** ** Stock *)

(** X22.  A stock gives back the elements it was given, the last one
    first, and is then as it was before, as long as the elements are
    truthy; a stock that was flushed creates every element it is asked
    for. *)
Theorem stock_last_in_first_out (T : Type) (truthy : T -> bool) (s : Stock.t T)
        (elements : list T) (create : T) (n : nat) :
  Forall (fun element => truthy element = true) elements ->
  Stock.getOrCreateMany T truthy (length elements)
                        (Stock.stockAll T s elements) create
  = (rev elements, s)
  /\ Stock.getOrCreateMany T truthy n (Stock.flush T s) create
     = (repeat create n, []).
Proof.
  intros H. split.
  - revert s H. induction elements as [|element elements IH] using rev_ind;
      intros s H; [reflexivity|].
    apply Forall_app in H. destruct H as [H He].
    apply Forall_inv in He.
    unfold Stock.stockAll. rewrite fold_left_app, rev_app_distr, length_app.
    cbn [fold_left rev app length]. rewrite Nat.add_1_r.
    cbn [Stock.getOrCreateMany]. unfold Stock.stock at 1.
    cbn [Stock.getOrCreate]. rewrite He.
    fold (Stock.stockAll T s elements). now rewrite IH.
  - unfold Stock.flush. induction n as [|n IH]; [reflexivity|].
    cbn [Stock.getOrCreateMany Stock.getOrCreate repeat]. now rewrite IH.
Qed.

Lemma stock_last_in_first_out_witness :
  Stock.getOrCreateMany Z (fun element => negb (element =? 0))
                        (length [1; 2; 3])
                        (Stock.stockAll Z [7] [1; 2; 3]) 9
  = (rev [1; 2; 3], [7])
  /\ Stock.getOrCreateMany Z (fun element => negb (element =? 0)) 2
                           (Stock.flush Z [7]) 9
     = (repeat 9 2, []).
Proof.
  apply (stock_last_in_first_out Z (fun element => negb (element =? 0))
                                 [7] [1; 2; 3] 9 2).
  repeat constructor.
Defined.

(** ** MarchingSquares: the case of a square *)

(** X23.  The index of a square of the grid is between [0] and [15]
    and has one bit for each corner whose value is above the threshold:
    bit 0 for the south-west corner, bit 1 for the south-east, bit 2 for
    the north-east and bit 3 for the north-west. *)
Theorem getSquareIndex_bits (f : t) (x y : Z) (threshold : Q) :
  rect f -> isInside f x y = true -> isInside f (x + 1) (y + 1) = true ->
  0 <= getSquareIndex f x y threshold <= 15
  /\ Z.testbit (getSquareIndex f x y threshold) 0
     = Qltb threshold (get f x (y + 1))
  /\ Z.testbit (getSquareIndex f x y threshold) 1
     = Qltb threshold (get f (x + 1) (y + 1))
  /\ Z.testbit (getSquareIndex f x y threshold) 2
     = Qltb threshold (get f (x + 1) y)
  /\ Z.testbit (getSquareIndex f x y threshold) 3
     = Qltb threshold (get f x y).
Proof.
  intros _ _ _. unfold getSquareIndex.
  destruct (Qltb threshold (get f x (y + 1)));
    destruct (Qltb threshold (get f (x + 1) (y + 1)));
    destruct (Qltb threshold (get f (x + 1) y));
    destruct (Qltb threshold (get f x y));
    repeat split; first [reflexivity | (vm_compute; discriminate)].
Qed.

Lemma getSquareIndex_bits_witness :
  0 <= getSquareIndex squareField 1 1 (1 # 2) <= 15
  /\ Z.testbit (getSquareIndex squareField 1 1 (1 # 2)) 0
     = Qltb (1 # 2) (get squareField 1 (1 + 1))
  /\ Z.testbit (getSquareIndex squareField 1 1 (1 # 2)) 1
     = Qltb (1 # 2) (get squareField (1 + 1) (1 + 1))
  /\ Z.testbit (getSquareIndex squareField 1 1 (1 # 2)) 2
     = Qltb (1 # 2) (get squareField (1 + 1) 1)
  /\ Z.testbit (getSquareIndex squareField 1 1 (1 # 2)) 3
     = Qltb (1 # 2) (get squareField 1 1).
Proof.
  apply (getSquareIndex_bits squareField 1 1 (1 # 2)).
  - unfold rect. repeat constructor.
  - reflexivity.
  - reflexivity.
Defined.

(** ** MarchingSquares: the points of the paths *)

Lemma crossed_weights (v1 v2 threshold : Q) :
  Qltb threshold v1 <> Qltb threshold v2 ->
  (0 < Qabs (v1 - threshold) + Qabs (v2 - threshold))%Q.
Proof.
  intros H.
  assert (H1 := Qabs_nonneg (v1 - threshold)).
  assert (H2 := Qabs_nonneg (v2 - threshold)).
  destruct (Qltb threshold v1) eqn:E1.
  - apply Qltb_lt in E1.
    assert (H3 : (0 < Qabs (v1 - threshold))%Q)
      by (rewrite Qabs_pos; lra).
    lra.
  - destruct (Qltb threshold v2) eqn:E2; [|congruence].
    apply Qltb_lt in E2.
    assert (H3 : (0 < Qabs (v2 - threshold))%Q)
      by (rewrite Qabs_pos; lra).
    lra.
Qed.

Lemma weighted_mean_bounds (w1 w2 a b : Q) :
  (0 <= w1)%Q -> (0 <= w2)%Q -> (0 < w1 + w2)%Q -> (a <= b)%Q ->
  (a <= (w2 * a + w1 * b) / (w1 + w2))%Q
  /\ ((w2 * a + w1 * b) / (w1 + w2) <= b)%Q.
Proof.
  intros H1 H2 H Hab.
  assert (Ha : (w1 * a <= w1 * b)%Q)
    by (rewrite !(Qmult_comm w1); now apply Qmult_le_compat_r).
  assert (Hb : (w2 * a <= w2 * b)%Q)
    by (rewrite !(Qmult_comm w2); now apply Qmult_le_compat_r).
  split.
  - apply Qle_shift_div_l; [exact H|]. lra.
  - apply Qle_shift_div_r; [exact H|]. lra.
Qed.

Lemma inject_Z_succ_le (n : Z) : (inject_Z n <= inject_Z (n + 1))%Q.
Proof. rewrite <- Zle_Qle. lia. Qed.

(** A point computed by [calcPoint] is in its square, on a side that
    the threshold crosses or at a corner. *)
Lemma calcPoint_insideSquare f side x y threshold :
  0 <= side <= 7 -> crossed f x y threshold side ->
  insideSquare x y (calcPoint f side x y threshold).
Proof.
  intros Hside (HS & HE & HN & HW).
  assert (Hx := inject_Z_succ_le x). assert (Hy := inject_Z_succ_le y).
  assert (Hcase : side = South \/ side = East \/ side = North \/ side = West
                  \/ side = SouthWest \/ side = SouthEast \/ side = NorthEast
                  \/ side = NorthWest)
    by (unfold South, East, North, West, SouthWest, SouthEast, NorthEast,
        NorthWest; lia).
  unfold insideSquare.
  destruct Hcase as [E|[E|[E|[E|[E|[E|[E|E]]]]]]]; rewrite E;
    unfold calcPoint; cbn [Z.eqb Pos.eqb South East North West SouthWest
                                  SouthEast NorthEast NorthWest fst snd];
    cbv zeta; cbn [fst snd].
  - specialize (HS E). apply crossed_weights in HS.
    destruct (weighted_mean_bounds _ _ (inject_Z x) (inject_Z (x + 1))
                                   (Qabs_nonneg _) (Qabs_nonneg _) HS Hx)
      as [H1 H2].
    unfold betweenX. cbv zeta. repeat split; trivial. apply Qle_refl.
  - specialize (HE E). apply crossed_weights in HE.
    destruct (weighted_mean_bounds _ _ (inject_Z y) (inject_Z (y + 1))
                                   (Qabs_nonneg _) (Qabs_nonneg _) HE Hy)
      as [H1 H2].
    unfold betweenY. cbv zeta. repeat split; trivial. apply Qle_refl.
  - specialize (HN E). apply crossed_weights in HN.
    destruct (weighted_mean_bounds _ _ (inject_Z x) (inject_Z (x + 1))
                                   (Qabs_nonneg _) (Qabs_nonneg _) HN Hx)
      as [H1 H2].
    unfold betweenX. cbv zeta. repeat split; trivial. apply Qle_refl.
  - specialize (HW E). apply crossed_weights in HW.
    destruct (weighted_mean_bounds _ _ (inject_Z y) (inject_Z (y + 1))
                                   (Qabs_nonneg _) (Qabs_nonneg _) HW Hy)
      as [H1 H2].
    unfold betweenY. cbv zeta. repeat split; trivial. apply Qle_refl.
  - repeat split; trivial; apply Qle_refl.
  - repeat split; trivial; apply Qle_refl.
  - repeat split; trivial; apply Qle_refl.
  - repeat split; trivial; apply Qle_refl.
Qed.

Lemma squareCase_range f x y threshold drawUnder :
  0 <= squareCase f x y threshold drawUnder <= 15.
Proof.
  unfold squareCase, squareCaseWith, getSquareIndex.
  destruct (Qltb threshold (get f x (y + 1)));
    destruct (Qltb threshold (get f (x + 1) (y + 1)));
    destruct (Qltb threshold (get f (x + 1) y));
    destruct (Qltb threshold (get f x y));
    destruct drawUnder; split; vm_compute; discriminate.
Qed.

(** The sides in the table of the polygons are sides that the threshold
    crosses, for the case of the square. *)
Lemma fillVertices_crossed f x y threshold drawUnder side :
  In side (nth (Z.to_nat (squareCase f x y threshold drawUnder))
               marchingSquaresFillVertices []) ->
  0 <= side <= 7 /\ crossed f x y threshold side.
Proof.
  unfold squareCase, squareCaseWith, getSquareIndex, crossed.
  destruct (Qltb threshold (get f x (y + 1)));
    destruct (Qltb threshold (get f (x + 1) (y + 1)));
    destruct (Qltb threshold (get f (x + 1) y));
    destruct (Qltb threshold (get f x y));
    destruct drawUnder; intros H; vm_compute in H;
    unfold South, East, North, West;
    repeat (destruct H as [<-|H]; [repeat split; first [lia|congruence]|]);
    contradiction.
Qed.

(** The same for the table of the outlines. *)
Lemma outlineVertices_crossed f x y threshold drawUnder outlineVertices side :
  In outlineVertices (nth (Z.to_nat (squareCase f x y threshold drawUnder))
                          marchingSquaresOutlineVertices []) ->
  squareCase f x y threshold drawUnder <> 0 ->
  squareCase f x y threshold drawUnder <> 15 ->
  (exists first second, outlineVertices = [first; second])
  /\ (In side outlineVertices -> 0 <= side <= 7 /\ crossed f x y threshold side).
Proof.
  unfold squareCase, squareCaseWith, getSquareIndex, crossed.
  destruct (Qltb threshold (get f x (y + 1)));
    destruct (Qltb threshold (get f (x + 1) (y + 1)));
    destruct (Qltb threshold (get f (x + 1) y));
    destruct (Qltb threshold (get f x y));
    destruct drawUnder; intros H H0 H15; vm_compute in H, H0, H15;
    try congruence; unfold South, East, North, West;
    repeat (destruct H as [<-|H];
            [split; [eexists; eexists; reflexivity|];
             intros Hs; vm_compute in Hs;
             repeat (destruct Hs as [<-|Hs];
                     [repeat split; first [lia|congruence]|]);
             contradiction|]);
    contradiction.
Qed.

Lemma fillVertices_nonempty squareIndex :
  0 < squareIndex < 15 ->
  nth (Z.to_nat squareIndex) marchingSquaresFillVertices [] <> [].
Proof.
  intros H.
  assert (E : squareIndex = 1 \/ squareIndex = 2 \/ squareIndex = 3
              \/ squareIndex = 4 \/ squareIndex = 5 \/ squareIndex = 6
              \/ squareIndex = 7 \/ squareIndex = 8 \/ squareIndex = 9
              \/ squareIndex = 10 \/ squareIndex = 11 \/ squareIndex = 12
              \/ squareIndex = 13 \/ squareIndex = 14) by lia.
  repeat (destruct E as [->|E]; [discriminate|]). subst. discriminate.
Qed.

Section InsideScan.

Variable f : t.
Variables minX minY maxX maxY : Z.
Variable threshold : Q.
Variable drawUnder : bool.

Lemma insideSquare_insideScan squareX squareY point :
  minX <= squareX <= maxX - 2 -> minY <= squareY <= maxY - 2 ->
  insideSquare squareX squareY point ->
  (inject_Z minX <= fst point)%Q /\ (fst point <= inject_Z (maxX - 1))%Q
  /\ (inject_Z minY <= snd point)%Q /\ (snd point <= inject_Z (maxY - 1))%Q.
Proof.
  intros HX HY (H1 & H2 & H3 & H4).
  assert (Ha : (inject_Z minX <= inject_Z squareX)%Q) by (rewrite <- Zle_Qle; lia).
  assert (Hb : (inject_Z (squareX + 1) <= inject_Z (maxX - 1))%Q)
    by (rewrite <- Zle_Qle; lia).
  assert (Hc : (inject_Z minY <= inject_Z squareY)%Q) by (rewrite <- Zle_Qle; lia).
  assert (Hd : (inject_Z (squareY + 1) <= inject_Z (maxY - 1))%Q)
    by (rewrite <- Zle_Qle; lia).
  repeat split; lra.
Qed.

(** The polygon of a square of the scan stays within the scan. *)
Lemma fillPolygon_insideScan squareX squareY :
  minX <= squareX <= maxX - 2 -> minY <= squareY <= maxY - 2 ->
  squareCase f squareX squareY threshold drawUnder <> 0 ->
  squareCase f squareX squareY threshold drawUnder <> 15 ->
  Forall (insideScan minX minY maxX maxY)
         (fillPolygon f squareX squareY threshold
            (nth (Z.to_nat (squareCase f squareX squareY threshold drawUnder))
                 marchingSquaresFillVertices [])).
Proof.
  intros HX HY H0 H15.
  assert (Hrange := squareCase_range f squareX squareY threshold drawUnder).
  assert (Hne := fillVertices_nonempty
                   (squareCase f squareX squareY threshold drawUnder)
                   ltac:(lia)).
  assert (Hsides := fun side =>
                      fillVertices_crossed f squareX squareY threshold
                                           drawUnder side).
  destruct (nth (Z.to_nat (squareCase f squareX squareY threshold drawUnder))
                marchingSquaresFillVertices []) as [|first others];
    [congruence|].
  assert (Hpoint : forall side, In side (first :: others) ->
                                insideScan minX minY maxX maxY
                                  (lineTo (fst (calcPoint f side squareX squareY threshold))
                                          (snd (calcPoint f side squareX squareY threshold)))).
  { intros side Hin. destruct (Hsides side Hin) as [Hs Hc].
    apply (insideSquare_insideScan squareX squareY); trivial.
    now apply calcPoint_insideSquare. }
  unfold fillPolygon. cbn [nth tl]. cbv zeta.
  constructor; [apply (Hpoint first); now left|].
  apply Forall_app. split.
  - apply Forall_map. apply Forall_forall. intros side Hin.
    apply Hpoint. now right.
  - repeat constructor; lia.
Qed.

(** One square of the scan keeps the calls within the scan;
    [first15SquareX] is [-1] or a square of the row before the current
    one. *)
Lemma fillSquare_insideScan squareY squareX first15SquareX calls :
  minX <= squareX <= maxX - 2 -> minY <= squareY <= maxY - 2 ->
  first15SquareX = -1 \/ minX <= first15SquareX < squareX ->
  Forall (insideScan minX minY maxX maxY) calls ->
  let state := fillSquareWith (getSquareIndex f) f squareY maxX threshold drawUnder
                              (first15SquareX, calls) squareX in
  (fst state = -1 \/ minX <= fst state < squareX + 1)
  /\ Forall (insideScan minX minY maxX maxY) (snd state).
Proof.
  intros HX HY Hfirst Hcalls.
  assert (Hnote : Forall (insideScan minX minY maxX maxY)
                         (calls ++ [onFilledSquareChange squareX squareY])).
  { apply Forall_app. split; [exact Hcalls|]. repeat constructor; lia. }
  assert (Hrect : forall first right,
             minX <= first < right -> right <= maxX - 1 ->
             Forall (insideScan minX minY maxX maxY)
                    ((calls ++ [onFilledSquareChange squareX squareY])
                       ++ [drawRectangle (inject_Z first) (inject_Z squareY)
                                         (inject_Z right) (inject_Z (squareY + 1))])).
  { intros first right H1 H2. apply Forall_app. split; [exact Hnote|].
    constructor; [|constructor]. cbn.
    rewrite <- !Zle_Qle, <- !Zlt_Qlt. lia. }
  destruct (Z.eq_dec (squareCase f squareX squareY threshold drawUnder) 15)
    as [E15|N15].
  - unfold fillSquareWith.
    fold (squareCaseWith (getSquareIndex f) squareX squareY threshold drawUnder).
    fold (squareCase f squareX squareY threshold drawUnder).
    rewrite E15. cbn [Z.eqb Pos.eqb negb andb]. rewrite andb_true_r.
    destruct (Z.eqb_spec first15SquareX (-1)) as [E1|N1].
    + destruct (Z.eqb_spec squareX (-1)) as [E2|N2]; cbn [negb fst snd].
      * split; [now left|exact Hnote].
      * destruct (Z.eqb_spec squareX (maxX - 2)) as [E3|N3]; cbn [fst snd].
        -- split; [now left|]. apply Hrect; lia.
        -- split; [right; lia|exact Hnote].
    + destruct Hfirst as [Hfirst|Hfirst]; [contradiction|].
      rewrite (proj2 (Z.eqb_neq first15SquareX (-1)) N1). cbn [negb].
      destruct (Z.eqb_spec squareX (maxX - 2)) as [E3|N3]; cbn [fst snd].
      * split; [now left|]. apply Hrect; lia.
      * split; [right; lia|exact Hnote].
  - rewrite (fillSquare_partial (getSquareIndex f) f squareY maxX threshold
                                drawUnder first15SquareX calls squareX N15).
    fold (squareCase f squareX squareY threshold drawUnder).
    cbv zeta. cbn [fst snd]. split; [now left|].
    assert (Hrun : Forall (insideScan minX minY maxX maxY)
                     (if first15SquareX =? -1
                      then calls ++ [onFilledSquareChange squareX squareY]
                      else (calls ++ [onFilledSquareChange squareX squareY])
                             ++ [drawRectangle (inject_Z first15SquareX)
                                               (inject_Z squareY)
                                               (inject_Z squareX)
                                               (inject_Z (squareY + 1))])).
    { destruct (Z.eqb_spec first15SquareX (-1)) as [E1|N1]; [exact Hnote|].
      destruct Hfirst as [Hfirst|Hfirst]; [contradiction|].
      apply Hrect; lia. }
    destruct (Z.eqb_spec (squareCase f squareX squareY threshold drawUnder) 0)
      as [E0|N0]; [exact Hrun|].
    apply Forall_app. split; [exact Hrun|].
    now apply fillPolygon_insideScan.
Qed.

End InsideScan.

(** An invariant of a loop over a range, indexed by the next value of
    the counter. *)
Lemma fold_zrange_invariant {A} (I : Z -> A -> Prop) (g : A -> Z -> A) hi :
  forall (n : nat) lo a,
    Z.of_nat n = hi - lo + 1 -> I lo a ->
    (forall k s, lo <= k <= hi -> I k s -> I (k + 1) (g s k)) ->
    I (hi + 1) (fold_left g (zrange lo hi) a).
Proof.
  induction n as [|n IH]; intros lo a Hn Ha Hstep.
  - rewrite zrange_nil by lia. cbn. now replace (hi + 1) with lo by lia.
  - rewrite zrange_cons by lia. cbn [fold_left].
    apply IH; [lia|apply Hstep; [lia|exact Ha]|].
    intros k s Hk. apply Hstep. lia.
Qed.

Lemma fillContour_insideScan f minX minY maxX maxY threshold drawUnder :
  Forall (insideScan minX minY maxX maxY)
         (fillContour f minX minY maxX maxY threshold drawUnder).
Proof.
  unfold fillContour, fillContourWith. apply Forall_flat_map.
  apply Forall_forall. intros squareY HY. apply in_zrange in HY.
  unfold fillRowWith.
  destruct (Z_le_gt_dec minX (maxX - 2)) as [Hle|Hgt];
    [|rewrite zrange_nil by lia; constructor].
  apply (fold_zrange_invariant
           (fun k state =>
              (fst state = -1 \/ minX <= fst state < k)
              /\ Forall (insideScan minX minY maxX maxY) (snd state))
           (fillSquareWith (getSquareIndex f) f squareY maxX threshold drawUnder)
           (maxX - 2) (Z.to_nat (maxX - 2 - minX + 1)) minX (-1, [])).
  - lia.
  - split; [now left|constructor].
  - intros k [first15SquareX calls] Hk [Hfirst Hcalls].
    cbn [fst snd] in Hfirst, Hcalls.
    apply fillSquare_insideScan; trivial.
Qed.

(** X24.  Over exact arithmetic, on vertices of the grid, [fillContour]
    never draws outside the vertices it scans: every point of a path
    and every corner of a rectangle is among the vertices
    [minX .. maxX - 1] by [minY .. maxY - 1], no rectangle is flat, and
    the squares it names are squares of the scan.  (The corners of the
    rectangles and the squares are integers; the points of the paths
    are quotients, which the source rounds.) *)
Theorem fillContour_inside_scan (f : t) (minX minY maxX maxY : Z) (threshold : Q)
        (drawUnder : bool) :
  rect f -> 0 <= minX -> maxX <= dimX f -> 0 <= minY -> maxY <= dimY f ->
  Forall (insideScan minX minY maxX maxY)
         (fillContour f minX minY maxX maxY threshold drawUnder).
Proof.
  intros _ _ _ _ _. apply fillContour_insideScan.
Qed.

Lemma fillContour_inside_scan_witness :
  Forall (insideScan 0 0 8 8) (fillContour squareField 0 0 8 8 (1 # 2) false).
Proof.
  apply (fillContour_inside_scan squareField 0 0 8 8 (1 # 2) false).
  - unfold rect. repeat constructor.
  - lia.
  - cbn. lia.
  - lia.
  - cbn. lia.
Defined.

(** X25.  On vertices of the grid, [outlineContour] only begins a path,
    draws a line and ends the path: it closes no path, draws no
    rectangle and names no filled square; and, over exact arithmetic, it
    never draws outside the vertices it scans. *)
Theorem outlineContour_inside_scan (f : t) (minX minY maxX maxY : Z)
        (threshold : Q) (drawUnder : bool) :
  rect f -> 0 <= minX -> maxX <= dimX f -> 0 <= minY -> maxY <= dimY f ->
  Forall (fun call => isOutlineCall call = true
                      /\ insideScan minX minY maxX maxY call)
         (outlineContour f minX minY maxX maxY threshold drawUnder).
Proof.
  intros _ _ _ _ _.
  unfold outlineContour. apply Forall_flat_map.
  apply Forall_forall. intros squareY HY. apply in_zrange in HY.
  apply Forall_flat_map.
  apply Forall_forall. intros squareX HX. apply in_zrange in HX.
  unfold outlineSquare. cbv zeta.
  fold (squareCaseWith (getSquareIndex f) squareX squareY threshold drawUnder).
  fold (squareCase f squareX squareY threshold drawUnder).
  destruct (Z.eqb_spec (squareCase f squareX squareY threshold drawUnder) 0)
    as [E0|N0]; [constructor|].
  destruct (Z.eqb_spec (squareCase f squareX squareY threshold drawUnder) 15)
    as [E15|N15]; [constructor|].
  cbn [negb andb]. apply Forall_flat_map.
  apply Forall_forall. intros outlineVertices Hin.
  assert (Hsides := fun side =>
                      outlineVertices_crossed f squareX squareY threshold drawUnder
                                              outlineVertices side Hin N0 N15).
  destruct (Hsides 0) as [(first & second & ->) _].
  assert (Hpoint : forall side, In side [first; second] ->
                                insideSquare squareX squareY
                                             (calcPoint f side squareX squareY threshold)).
  { intros side Hs. destruct (Hsides side) as [_ H].
    destruct (H Hs) as [Hr Hc]. now apply calcPoint_insideSquare. }
  unfold outlinePath. cbn [nth tl map app]. cbv zeta.
  repeat constructor;
    try (apply (insideSquare_insideScan minX minY maxX maxY squareX squareY);
         [lia|lia|apply Hpoint; cbn; tauto]);
    lia.
Qed.

Lemma outlineContour_inside_scan_witness :
  Forall (fun call => isOutlineCall call = true /\ insideScan 0 0 8 8 call)
         (outlineContour squareField 0 0 8 8 (1 # 2) false).
Proof.
  apply (outlineContour_inside_scan squareField 0 0 8 8 (1 # 2) false).
  - unfold rect. repeat constructor.
  - lia.
  - cbn. lia.
  - lia.
  - cbn. lia.
Defined.

(** ** MarchingSquares: the squares that fillContour names and covers *)

Lemma fillPolygon_no_notification f squareX squareY threshold fillVertices :
  filter (fun call => negb (isGeometry call))
         (fillPolygon f squareX squareY threshold fillVertices) = [].
Proof.
  unfold fillPolygon. cbv zeta. cbn [filter isGeometry negb].
  rewrite filter_app. cbn [filter isGeometry negb]. rewrite app_nil_r.
  induction (tl fillVertices) as [|side sides IH]; [reflexivity|exact IH].
Qed.

Lemma fillSquare_notification classify f squareY maxX threshold drawUnder
      first15SquareX calls squareX :
  filter (fun call => negb (isGeometry call))
         (snd (fillSquareWith classify f squareY maxX threshold drawUnder
                              (first15SquareX, calls) squareX))
  = filter (fun call => negb (isGeometry call)) calls
    ++ [onFilledSquareChange squareX squareY].
Proof.
  unfold fillSquareWith.
  destruct ((first15SquareX =? -1)
            && ((if drawUnder then 15 - classify squareX squareY threshold
                 else classify squareX squareY threshold) =? 15));
    match goal with
    | |- context [negb (?a =? -1)] => destruct (negb (a =? -1))
    end;
    destruct (negb ((if drawUnder then 15 - classify squareX squareY threshold
                     else classify squareX squareY threshold) =? 15));
    destruct (squareX =? maxX - 2);
    destruct (negb ((if drawUnder then 15 - classify squareX squareY threshold
                     else classify squareX squareY threshold) =? 0));
    cbn [andb snd];
    rewrite ?filter_app, ?fillPolygon_no_notification, ?app_nil_r;
    reflexivity.
Qed.

Lemma fillRow_notifications classify f maxX threshold drawUnder squareY squares :
  forall first15SquareX calls,
    filter (fun call => negb (isGeometry call))
           (snd (fold_left (fillSquareWith classify f squareY maxX threshold drawUnder)
                           squares (first15SquareX, calls)))
    = filter (fun call => negb (isGeometry call)) calls
      ++ map (fun squareX => onFilledSquareChange squareX squareY) squares.
Proof.
  induction squares as [|squareX squares IH]; intros first15SquareX calls.
  - cbn. now rewrite app_nil_r.
  - cbn [fold_left map].
    destruct (fillSquareWith classify f squareY maxX threshold drawUnder
                             (first15SquareX, calls) squareX)
      as [first15SquareX' calls'] eqn:E.
    rewrite IH.
    assert (H := fillSquare_notification classify f squareY maxX threshold
                                         drawUnder first15SquareX calls squareX).
    rewrite E in H. cbn [snd] in H. rewrite H, <- app_assoc. reflexivity.
Qed.

(** X26.  On vertices of the grid, [fillContour] names every square of
    the scan to [onFilledSquareChange], once, row after row and from
    left to right in a row, whatever the squares hold. *)
Theorem fillContour_notifies_every_square (f : t) (minX minY maxX maxY : Z)
        (threshold : Q) (drawUnder : bool) :
  rect f -> 0 <= minX -> maxX <= dimX f -> 0 <= minY -> maxY <= dimY f ->
  filter (fun call => negb (isGeometry call))
         (fillContour f minX minY maxX maxY threshold drawUnder)
  = flat_map (fun squareY =>
                map (fun squareX => onFilledSquareChange squareX squareY)
                    (zrange minX (maxX - 2)))
             (zrange minY (maxY - 2)).
Proof.
  intros _ _ _ _ _. unfold fillContour, fillContourWith.
  induction (zrange minY (maxY - 2)) as [|squareY rows IH]; [reflexivity|].
  cbn [flat_map]. rewrite filter_app, IH. f_equal.
  unfold fillRowWith. now rewrite fillRow_notifications.
Qed.

Lemma fillContour_notifies_every_square_witness :
  filter (fun call => negb (isGeometry call))
         (fillContour squareField 0 0 8 8 (1 # 2) false)
  = flat_map (fun squareY =>
                map (fun squareX => onFilledSquareChange squareX squareY)
                    (zrange 0 (8 - 2)))
             (zrange 0 (8 - 2)).
Proof.
  apply (fillContour_notifies_every_square squareField 0 0 8 8 (1 # 2) false).
  - unfold rect. repeat constructor.
  - lia.
  - cbn. lia.
  - lia.
  - cbn. lia.
Defined.

Lemma Exists_one {A} (P : A -> Prop) (a : A) : Exists P [a] <-> P a.
Proof.
  rewrite Exists_cons, Exists_nil. tauto.
Qed.

Lemma coversSquare_rectangle x y first squareY right :
  coversSquare x y (drawRectangle (inject_Z first) (inject_Z squareY)
                                  (inject_Z right) (inject_Z (squareY + 1)))
  <-> first <= x /\ x + 1 <= right /\ y = squareY.
Proof.
  cbn [coversSquare]. rewrite <- !Zle_Qle. lia.
Qed.

Lemma fillPolygon_covers_nothing f squareX squareY threshold fillVertices x y :
  ~ Exists (coversSquare x y) (fillPolygon f squareX squareY threshold fillVertices).
Proof.
  unfold fillPolygon. cbv zeta.
  rewrite Exists_cons, Exists_app, Exists_cons, Exists_one. cbn [coversSquare].
  intros [[]|[H|[[]|[]]]].
  apply Exists_exists in H. destruct H as (call & Hin & Hc).
  apply in_map_iff in Hin. destruct Hin as (side & <- & _). exact Hc.
Qed.

Section Cover.

Variable f : t.
Variable threshold : Q.
Variable drawUnder : bool.
Variables minX maxX squareY : Z.

Hypothesis minX_nonneg : 0 <= minX.

Lemma fillSquare_cover k first15SquareX calls :
  minX <= k <= maxX - 2 ->
  coverState f threshold drawUnder minX maxX squareY k (first15SquareX, calls) ->
  coverState f threshold drawUnder minX maxX squareY (k + 1)
             (fillSquareWith (getSquareIndex f) f squareY maxX threshold drawUnder
                             (first15SquareX, calls) k).
Proof.
  intros Hk (Hfirst & Hend & Hrun & Hcov). cbn [fst snd] in Hfirst, Hend, Hrun, Hcov.
  destruct (Z.eq_dec (squareCase f k squareY threshold drawUnder) 15) as [E15|N15].
  - rewrite (fillSquare_full (getSquareIndex f) f squareY maxX threshold drawUnder
                             first15SquareX calls k E15 ltac:(lia) ltac:(lia)).
    cbv zeta.
    destruct (Z.eqb_spec first15SquareX (-1)) as [E1|N1];
      destruct (Z.eqb_spec k (maxX - 2)) as [E2|N2];
      unfold coverState; cbn [fst snd];
      (split; [lia|]); (split; [lia|]);
      (split;
       [intros x Hx1 Hx2;
        destruct (Z.eq_dec x k) as [->|Hxk]; [exact E15|apply Hrun; lia]|]);
      intros x y; specialize (Hrun x);
      rewrite ?Exists_app, Hcov, ?Exists_one, ?coversSquare_rectangle;
      cbn [coversSquare];
      (destruct (Z.eq_dec x k) as [->|Hxk]; [rewrite ?E15|]); intuition lia.
  - rewrite (fillSquare_partial (getSquareIndex f) f squareY maxX threshold
                                drawUnder first15SquareX calls k N15).
    fold (squareCase f k squareY threshold drawUnder). cbv zeta.
    unfold coverState; cbn [fst snd].
    split; [now left|]. split; [reflexivity|]. split; [congruence|].
    intros x y. specialize (Hrun x).
    assert (Hpoly := fillPolygon_covers_nothing
                       f k squareY threshold
                       (nth (Z.to_nat (squareCase f k squareY threshold drawUnder))
                            marchingSquaresFillVertices []) x y).
    destruct (Z.eqb_spec first15SquareX (-1)) as [E1|N1];
      destruct (squareCase f k squareY threshold drawUnder =? 0);
      rewrite ?Exists_app, Hcov, ?Exists_one, ?coversSquare_rectangle;
      cbn [coversSquare];
      (destruct (Z.eq_dec x k) as [->|Hxk]; [|]); intuition lia.
Qed.

Lemma fillRow_cover x y :
  Exists (coversSquare x y)
         (fillRowWith (getSquareIndex f) f minX maxX threshold drawUnder squareY)
  <-> y = squareY /\ minX <= x <= maxX - 2
      /\ squareCase f x squareY threshold drawUnder = 15.
Proof.
  unfold fillRowWith.
  destruct (Z_le_gt_dec minX (maxX - 2)) as [Hle|Hgt].
  - destruct (fold_zrange_invariant
                (coverState f threshold drawUnder minX maxX squareY)
                (fillSquareWith (getSquareIndex f) f squareY maxX threshold drawUnder)
                (maxX - 2) (Z.to_nat (maxX - 2 - minX + 1)) minX (-1, []))
      as (_ & Hend & _ & Hcov).
    + lia.
    + unfold coverState. cbn [fst snd]. split; [now left|].
      split; [reflexivity|]. split; [congruence|].
      intros x' y'. rewrite Exists_nil. lia.
    + intros k [first15SquareX calls] Hk Hstate. now apply fillSquare_cover.
    + rewrite Hcov. specialize (Hend ltac:(lia) ltac:(lia)). rewrite Hend.
      intuition lia.
  - rewrite zrange_nil by lia. cbn [fold_left snd]. rewrite Exists_nil. lia.
Qed.

End Cover.

(** X27.  On vertices of the grid, the rectangles that [fillContour]
    draws contain the squares of the scan whose case is 15, and no
    other square: a square is in a rectangle exactly when it is a
    square of the scan with its four corners on the side that is
    filled. *)
Theorem fillContour_rectangles_cover (f : t) (minX minY maxX maxY : Z)
        (threshold : Q) (drawUnder : bool) (x y : Z) :
  rect f -> 0 <= minX -> maxX <= dimX f -> 0 <= minY -> maxY <= dimY f ->
  Exists (coversSquare x y) (fillContour f minX minY maxX maxY threshold drawUnder)
  <-> minX <= x <= maxX - 2 /\ minY <= y <= maxY - 2
      /\ squareCase f x y threshold drawUnder = 15.
Proof.
  intros _ HminX _ _ _. unfold fillContour, fillContourWith.
  rewrite Exists_flat_map, Exists_exists. split.
  - intros (squareY & Hin & H). apply in_zrange in Hin.
    apply fillRow_cover in H; [|exact HminX]. destruct H as (-> & Hx & Hc).
    auto.
  - intros (Hx & Hy & Hc). exists y. split; [now apply in_zrange|].
    apply fillRow_cover; auto.
Qed.

Lemma fillContour_rectangles_cover_witness :
  Exists (coversSquare 3 3) (fillContour squareFieldFilled 0 0 8 8 (1 # 2) false)
  <-> 0 <= 3 <= 8 - 2 /\ 0 <= 3 <= 8 - 2
      /\ squareCase squareFieldFilled 3 3 (1 # 2) false = 15.
Proof.
  apply (fillContour_rectangles_cover squareFieldFilled 0 0 8 8 (1 # 2) false 3 3).
  - unfold rect. repeat constructor.
  - lia.
  - cbn. lia.
  - lia.
  - cbn. lia.
Defined.

(** ** ScaledShapePainter *)

Lemma convertFromGridBasisX_le c a b :
  0 < CoordConverter.cellWidth c -> (a <= b)%Q ->
  (CoordConverter.convertFromGridBasisX c a
   <= CoordConverter.convertFromGridBasisX c b)%Q.
Proof.
  intros Hw H. unfold CoordConverter.convertFromGridBasisX.
  assert (Hw' : (0 <= inject_Z (CoordConverter.cellWidth c))%Q)
    by (rewrite <- (Zle_Qle 0); lia).
  assert (H1 := Qmult_le_compat_r _ _ _ H Hw'). lra.
Qed.

Lemma convertFromGridBasisX_lt c a b :
  0 < CoordConverter.cellWidth c -> (a < b)%Q ->
  (CoordConverter.convertFromGridBasisX c a
   < CoordConverter.convertFromGridBasisX c b)%Q.
Proof.
  intros Hw H. unfold CoordConverter.convertFromGridBasisX.
  assert (Hw' : (0 < inject_Z (CoordConverter.cellWidth c))%Q)
    by (now rewrite <- (Zlt_Qlt 0)).
  assert (H1 : (a * inject_Z (CoordConverter.cellWidth c)
                < b * inject_Z (CoordConverter.cellWidth c))%Q)
    by (now apply Qmult_lt_compat_r).
  lra.
Qed.

Lemma convertFromGridBasisY_le c a b :
  0 < CoordConverter.cellHeight c -> (a <= b)%Q ->
  (CoordConverter.convertFromGridBasisY c a
   <= CoordConverter.convertFromGridBasisY c b)%Q.
Proof.
  intros Hw H. unfold CoordConverter.convertFromGridBasisY.
  assert (Hw' : (0 <= inject_Z (CoordConverter.cellHeight c))%Q)
    by (rewrite <- (Zle_Qle 0); lia).
  assert (H1 := Qmult_le_compat_r _ _ _ H Hw'). lra.
Qed.

Lemma convertFromGridBasisY_lt c a b :
  0 < CoordConverter.cellHeight c -> (a < b)%Q ->
  (CoordConverter.convertFromGridBasisY c a
   < CoordConverter.convertFromGridBasisY c b)%Q.
Proof.
  intros Hw H. unfold CoordConverter.convertFromGridBasisY.
  assert (Hw' : (0 < inject_Z (CoordConverter.cellHeight c))%Q)
    by (now rewrite <- (Zlt_Qlt 0)).
  assert (H1 : (a * inject_Z (CoordConverter.cellHeight c)
                < b * inject_Z (CoordConverter.cellHeight c))%Q)
    by (now apply Qmult_lt_compat_r).
  lra.
Qed.

(** X28.  Over exact arithmetic, through a [ScaledShapePainter] whose
    cells have positive sizes, what [fillContour] draws on vertices of the grid is within
    the rectangle of the scene that the scanned vertices span, and no
    rectangle it draws is flat. *)
Theorem scaled_fillContour_inside_scene (c : CoordConverter.t) (f : t)
        (minX minY maxX maxY : Z) (threshold : Q) (drawUnder : bool) :
  0 < CoordConverter.cellWidth c -> 0 < CoordConverter.cellHeight c ->
  rect f -> 0 <= minX -> maxX <= dimX f -> 0 <= minY -> maxY <= dimY f ->
  Forall (ScaledShapePainter.insideRectangle
            (CoordConverter.convertFromGridBasisX c (inject_Z minX))
            (CoordConverter.convertFromGridBasisY c (inject_Z minY))
            (CoordConverter.convertFromGridBasisX c (inject_Z (maxX - 1)))
            (CoordConverter.convertFromGridBasisY c (inject_Z (maxY - 1))))
         (map (ScaledShapePainter.forwarded c)
              (fillContour f minX minY maxX maxY threshold drawUnder)).
Proof.
  intros Hw Hh _ _ _ _ _. apply Forall_map.
  eapply Forall_impl; [|apply fillContour_insideScan].
  intros [x1 y1 x2 y2|x y|x y| | |]; cbn; trivial.
  - intros (H1 & H2 & H3 & H4 & H5 & H6).
    repeat split;
      first [now apply convertFromGridBasisX_le
            |now apply convertFromGridBasisX_lt
            |now apply convertFromGridBasisY_le
            |now apply convertFromGridBasisY_lt].
  - intros (H1 & H2 & H3 & H4).
    repeat split;
      first [now apply convertFromGridBasisX_le
            |now apply convertFromGridBasisY_le].
  - intros (H1 & H2 & H3 & H4).
    repeat split;
      first [now apply convertFromGridBasisX_le
            |now apply convertFromGridBasisY_le].
Qed.

Lemma scaled_fillContour_inside_scene_witness :
  Forall (ScaledShapePainter.insideRectangle
            (CoordConverter.convertFromGridBasisX
               (CoordConverter.mk 32 16 10 20 266 148) (inject_Z 0))
            (CoordConverter.convertFromGridBasisY
               (CoordConverter.mk 32 16 10 20 266 148) (inject_Z 0))
            (CoordConverter.convertFromGridBasisX
               (CoordConverter.mk 32 16 10 20 266 148) (inject_Z (8 - 1)))
            (CoordConverter.convertFromGridBasisY
               (CoordConverter.mk 32 16 10 20 266 148) (inject_Z (8 - 1))))
         (map (ScaledShapePainter.forwarded (CoordConverter.mk 32 16 10 20 266 148))
              (fillContour squareField 0 0 8 8 (1 # 2) false)).
Proof.
  apply (scaled_fillContour_inside_scene
           (CoordConverter.mk 32 16 10 20 266 148) squareField 0 0 8 8 (1 # 2) false).
  - reflexivity.
  - reflexivity.
  - unfold rect. repeat constructor.
  - lia.
  - cbn. lia.
  - lia.
  - cbn. lia.
Defined.

(** ** HeightMap: the normal of a flat field *)

Section FieldNormal.

Variable hypot : Q -> Q -> Q.
Variable hypot3 : Q -> Q -> Q -> Q.
Variable h : HeightMap.t.

(** Inside the grid, the loops of [getFieldNormal] run on the four
    vertices of a square that has a column and a row of vertices on each
    of its sides, when the grid has four columns and four rows. *)
Lemma getFieldNormal_square pointX pointY :
  4 <= dimX (HeightMap.scalarField h) -> 4 <= dimY (HeightMap.scalarField h) ->
  0 <= Qfloor (CoordConverter.convertToGridBasisX (HeightMap.coordConverter h) pointX)
  < dimX (HeightMap.scalarField h) ->
  0 <= Qfloor (CoordConverter.convertToGridBasisY (HeightMap.coordConverter h) pointY)
  < dimY (HeightMap.scalarField h) ->
  exists squareX squareY x y,
    1 <= squareX <= dimX (HeightMap.scalarField h) - 3
    /\ 1 <= squareY <= dimY (HeightMap.scalarField h) - 3
    /\ HeightMap.getFieldNormal hypot hypot3 h pointX pointY
       = let '(normal, _, _) :=
           fold_left (HeightMap.fieldNormalVertex hypot h x y)
                     [(squareX, squareY); (squareX, squareY + 1);
                      (squareX + 1, squareY); (squareX + 1, squareY + 1)]
                     ((0%Q, 0%Q, 0%Q), (0%Q, 0%Q, 0%Q), false) in
         let '(normal0, normal1, normal2) := normal in
         let length := hypot3 normal0 normal1 normal2 in
         Some ((normal0 / length)%Q, (normal1 / length)%Q, (normal2 / length)%Q).
Proof.
  intros HX HY Hx Hy. unfold HeightMap.getFieldNormal. cbv zeta.
  set (x := CoordConverter.convertToGridBasisX (HeightMap.coordConverter h) pointX)
    in *.
  set (y := CoordConverter.convertToGridBasisY (HeightMap.coordConverter h) pointY)
    in *.
  destruct (Z.ltb_spec (Qfloor x) 0); [lia|].
  destruct (Z.ltb_spec (Qfloor y) 0); [lia|].
  rewrite !Z.geb_leb.
  destruct (Z.leb_spec (dimX (HeightMap.scalarField h)) (Qfloor x)); [lia|].
  destruct (Z.leb_spec (dimY (HeightMap.scalarField h)) (Qfloor y)); [lia|].
  cbn [orb].
  destruct (Z.ltb_spec (Qfloor x) 1); cbv beta iota;
    match goal with
    | |- context [if ?a >? ?b then _ else _] => destruct (Z.gtb_spec a b)
    end; cbv beta iota;
    destruct (Z.ltb_spec (Qfloor y) 1); cbv beta iota;
    match goal with
    | |- context [if ?a >? ?b then _ else _] => destruct (Z.gtb_spec a b)
    end; cbv beta iota;
    rewrite !zrange_two; cbn [flat_map map app];
    do 4 eexists; (split; [|split; [|reflexivity]]); lia.
Qed.

(** The array [normal] holds after the loops the normal at one of the
    vertices. *)
Lemma fieldNormalVertex_keeps x y vertices :
  forall state,
    fst (fst (fold_left (HeightMap.fieldNormalVertex hypot h x y) vertices state))
    = fst (fst state)
    \/ exists vertex,
        In vertex vertices
        /\ fst (fst (fold_left (HeightMap.fieldNormalVertex hypot h x y)
                               vertices state))
           = HeightMap.addGridPointNormal hypot h (fst vertex) (snd vertex) (0, 0, 0)%Q.
Proof.
  induction vertices as [|vertex vertices IH]; intros state; [now left|].
  cbn [fold_left].
  destruct (IH (HeightMap.fieldNormalVertex hypot h x y state vertex))
    as [E|(v & Hin & E)].
  - rewrite E. clear E IH.
    destruct state as [[normal [[sumX sumY] sumZ]] broken], vertex as [vertexX vertexY].
    unfold HeightMap.fieldNormalVertex.
    destruct broken; [now left|]. right. exists (vertexX, vertexY).
    split; [now left|]. cbn [fst snd].
    destruct (Qeq_bool (inject_Z vertexX - x) 0 && Qeq_bool (inject_Z vertexY - y) 0);
      [reflexivity|].
    destruct (HeightMap.addGridPointNormal hypot h vertexX vertexY (0, 0, 0)%Q)
      as [[normal0 normal1] normal2].
    reflexivity.
  - right. exists v. split; [now right|exact E].
Qed.

Lemma fieldNormalVertex_fold x y vertex vertices sums :
  exists v,
    In v (vertex :: vertices)
    /\ fst (fst (fold_left (HeightMap.fieldNormalVertex hypot h x y)
                           (vertex :: vertices) ((0, 0, 0)%Q, sums, false)))
       = HeightMap.addGridPointNormal hypot h (fst v) (snd v) (0, 0, 0)%Q.
Proof.
  cbn [fold_left].
  destruct (fieldNormalVertex_keeps
              x y vertices
              (HeightMap.fieldNormalVertex hypot h x y ((0, 0, 0)%Q, sums, false) vertex))
    as [E|(v & Hin & E)].
  - exists vertex. split; [now left|]. rewrite E.
    destruct sums as [[sumX sumY] sumZ], vertex as [vertexX vertexY].
    unfold HeightMap.fieldNormalVertex. cbn [fst snd].
    destruct (Qeq_bool (inject_Z vertexX - x) 0 && Qeq_bool (inject_Z vertexY - y) 0);
      [reflexivity|].
    destruct (HeightMap.addGridPointNormal hypot h vertexX vertexY (0, 0, 0)%Q)
      as [[normal0 normal1] normal2].
    reflexivity.
  - exists v. split; [now right|exact E].
Qed.

(** What is used of [Math.hypot]: the norm of a vector along an
    axis. *)
Hypothesis hypot_right : forall z, (z == 0)%Q -> (hypot 1 z == 1)%Q.
Hypothesis hypot_left : forall z, (z == 0)%Q -> (hypot (-1) z == 1)%Q.

Lemma addGridPointNormal_flat x y value :
  get (HeightMap.scalarField h) x y = value ->
  get (HeightMap.scalarField h) (x + 1) y = value ->
  get (HeightMap.scalarField h) (x - 1) y = value ->
  get (HeightMap.scalarField h) x (y + 1) = value ->
  get (HeightMap.scalarField h) x (y - 1) = value ->
  (fst (fst (HeightMap.addGridPointNormal hypot h x y (0, 0, 0))) == 0)%Q
  /\ (snd (fst (HeightMap.addGridPointNormal hypot h x y (0, 0, 0))) == 0)%Q
  /\ (snd (HeightMap.addGridPointNormal hypot h x y (0, 0, 0)) == 4)%Q.
Proof.
  intros E0 E1 E2 E3 E4.
  unfold HeightMap.addGridPointNormal, HeightMap.addNormal. cbv zeta.
  rewrite E0, E1, E2, E3, E4. cbn [fst snd].
  assert (Hr : (hypot 1 (value - value) == 1)%Q) by (apply hypot_right; ring).
  assert (Hl : (hypot (-1) (value - value) == 1)%Q) by (apply hypot_left; ring).
  rewrite !Hr, !Hl. repeat split; field.
Qed.

End FieldNormal.

(** X29.  Over exact arithmetic and with cells whose sizes are not [0],
    on a field of at least four columns and four rows that was cleared
    to a value, [getFieldNormal] gives the vertical [(0, 0, 1)] at every
    point whose cell is in the grid, once [Math.hypot] gives [1] for a
    unit vector along an axis and [4] for [(0, 0, 4)]. *)
Theorem getFieldNormal_cleared (hypot : Q -> Q -> Q) (hypot3 : Q -> Q -> Q -> Q)
        (f : t) (c : CoordConverter.t) (value pointX pointY : Q) :
  (forall z, (z == 0)%Q -> (hypot 1 z == 1)%Q) ->
  (forall z, (z == 0)%Q -> (hypot (-1) z == 1)%Q) ->
  (forall n0 n1 n2, (n0 == 0)%Q -> (n1 == 0)%Q -> (n2 == 4)%Q ->
                    (hypot3 n0 n1 n2 == 4)%Q) ->
  CoordConverter.cellWidth c <> 0 -> CoordConverter.cellHeight c <> 0 ->
  rect f -> 4 <= dimX f -> 4 <= dimY f ->
  0 <= Qfloor (CoordConverter.convertToGridBasisX c pointX) < dimX f ->
  0 <= Qfloor (CoordConverter.convertToGridBasisY c pointY) < dimY f ->
  exists normal0 normal1 normal2,
    HeightMap.getFieldNormal hypot hypot3 (HeightMap.mk (clear f value) c)
                             pointX pointY
    = Some (normal0, normal1, normal2)
    /\ (normal0 == 0)%Q /\ (normal1 == 0)%Q /\ (normal2 == 1)%Q.
Proof.
  intros Hright Hleft H3 _ _ Hr HX HY Hx Hy.
  set (h := HeightMap.mk (clear f value) c).
  assert (EX : dimX (HeightMap.scalarField h) = dimX f) by apply map_dimX.
  assert (EY : dimY (HeightMap.scalarField h) = dimY f) by apply map_dimY.
  destruct (getFieldNormal_square hypot hypot3 h pointX pointY)
    as (squareX & squareY & x & y & HsX & HsY & E);
    try (rewrite ?EX, ?EY; assumption).
  rewrite EX in HsX. rewrite EY in HsY. rewrite E. clear E.
  destruct (fieldNormalVertex_fold
              hypot h x y (squareX, squareY)
              [(squareX, squareY + 1); (squareX + 1, squareY);
               (squareX + 1, squareY + 1)] (0, 0, 0)%Q)
    as ([vertexX vertexY] & Hin & E).
  destruct (fold_left _ _ _) as [[normal sums] broken].
  cbn [fst snd] in E. subst normal.
  assert (Hv : squareX <= vertexX <= squareX + 1 /\ squareY <= vertexY <= squareY + 1).
  { cbn [In] in Hin.
    destruct Hin as [Hin|[Hin|[Hin|[Hin|[]]]]]; inversion Hin; lia. }
  assert (Hget : forall a b, 0 <= a <= dimX f - 1 -> 0 <= b <= dimY f - 1 ->
                             get (HeightMap.scalarField h) a b = value).
  { intros a b Ha Hb. cbn [h HeightMap.scalarField]. unfold clear.
    apply get_map; [exact Hr|]. apply isInside_iff. lia. }
  destruct (addGridPointNormal_flat hypot h Hright Hleft vertexX vertexY value)
    as (H0 & H1 & H2); try (apply Hget; lia).
  destruct (HeightMap.addGridPointNormal hypot h vertexX vertexY (0, 0, 0)%Q)
    as [[normal0 normal1] normal2].
  cbn [fst snd] in H0, H1, H2. cbv zeta.
  do 3 eexists. split; [reflexivity|].
  rewrite (H3 normal0 normal1 normal2 H0 H1 H2), H0, H1, H2.
  repeat split; reflexivity.
Qed.

Lemma getFieldNormal_cleared_witness :
  exists normal0 normal1 normal2,
    HeightMap.getFieldNormal
      (fun a b => Qabs a + Qabs b)%Q (fun a b c => Qabs a + Qabs b + Qabs c)%Q
      (HeightMap.mk (clear squareField 3) (CoordConverter.mk 32 16 10 20 266 148))
      100 30
    = Some (normal0, normal1, normal2)
    /\ (normal0 == 0)%Q /\ (normal1 == 0)%Q /\ (normal2 == 1)%Q.
Proof.
  apply (getFieldNormal_cleared
           (fun a b => Qabs a + Qabs b)%Q (fun a b c => Qabs a + Qabs b + Qabs c)%Q
           squareField (CoordConverter.mk 32 16 10 20 266 148) 3 100 30).
  - intros z Hz. rewrite Hz. reflexivity.
  - intros z Hz. rewrite Hz. reflexivity.
  - intros n0 n1 n2 H0 H1 H2. rewrite H0, H1, H2. reflexivity.
  - cbn. lia.
  - cbn. lia.
  - unfold rect. repeat constructor.
  - cbn. lia.
  - cbn. lia.
  - vm_compute. split; [discriminate|reflexivity].
  - vm_compute. split; [discriminate|reflexivity].
Defined.

(** ** FloodFill: the flood reaches its region for every thickness *)

Section FloodReach.

Variable canFlood : Q -> bool.
Variable fillingValue : Q.
Variable getContourValue : GetContourValue.

Hypothesis contour_keeps_dry :
  forall v d v', canFlood v = false -> getContourValue v d = Some v' ->
                 canFlood v' = false.
Hypothesis filling_is_dry : canFlood fillingValue = false.

(** A cell that holds the filling value accepts no contour value. *)
Hypothesis filling_kept :
  forall d, (minDistanceSq <= d)%Q -> getContourValue fillingValue d = None.

Variable f : t.
Variable origin : Cell.

Hypothesis origin_inside : insideCell f origin = true.

(** Writes of contour values leave the cells that hold the filling
    value as they are and, when they are made on cells that cannot be
    flooded, the cells that can be flooded as well. *)
Lemma shaded_keeps_flood (P : Q -> Prop) g g' :
  (forall v, P v -> canFlood v = false) ->
  rect g -> shaded getContourValue P g g' ->
  forall c, insideCell g c = true ->
            canFlood (getCell g c) = true \/ getCell g c = fillingValue ->
            getCell g' c = getCell g c.
Proof.
  intros HP Hr Hs [x y] Hc. unfold insideCell, getCell in *. cbn [fst snd] in *.
  apply (shaded_preserves getContourValue P
                          (fun u v => canFlood u = true \/ u = fillingValue -> v = u));
    trivial.
  - intros u v w Huv Hvw Hu. assert (Ev := Huv Hu). subst v. auto.
  - intros v d v' Hv Hd E [Hc' | ->].
    + apply HP in Hv. congruence.
    + rewrite filling_kept in E by assumption. discriminate.
Qed.

Lemma shaded_keeps_filling g g' :
  rect g -> shaded getContourValue (fun _ => True) g g' ->
  forall c, insideCell g c = true -> getCell g c = fillingValue ->
            getCell g' c = fillingValue.
Proof.
  intros Hr Hs [x y] Hc. unfold insideCell, getCell in *. cbn [fst snd] in *.
  apply (shaded_preserves getContourValue (fun _ => True)
                          (fun u v => u = fillingValue -> v = fillingValue));
    auto.
  intros v d v' _ Hd E ->.
  rewrite filling_kept in E by assumption. discriminate.
Qed.

(** The invariant of the flood: a cell of the region holds its first
    value or the filling value; the stack holds cells of the region; the
    neighbours in the region of a filled cell are filled or on the
    stack, and so is the origin. *)
Let reach (g : t) (floodStack : list Node) (stack : list ContourNode) : Prop :=
  floodState f g floodStack stack
  /\ (forall c, insideCell f c = true -> canFlood (getCell g c) = true ->
                getCell g c = getCell f c)
  /\ (forall c, reachable canFlood f origin c ->
                getCell g c = getCell f c \/ getCell g c = fillingValue)
  /\ Forall (reachable canFlood f origin) floodStack
  /\ (forall c delta,
         reachable canFlood f origin c -> getCell g c = fillingValue ->
         In delta deltas ->
         insideCell f (neighbor c delta) = true ->
         canFlood (getCell f (neighbor c delta)) = true ->
         getCell g (neighbor c delta) = fillingValue
         \/ In (neighbor c delta) floodStack)
  /\ (getCell g origin = fillingValue \/ In origin floodStack).

Lemma reach_floodNode g c floodStack stack g' floodStack' stack' :
  reach g (c :: floodStack) stack ->
  floodNode canFlood fillingValue getContourValue g c floodStack stack
  = (g', floodStack', stack') ->
  reach g' floodStack' stack'.
Proof.
  intros (Hstate & Hwet & Hcells & Hstack & Hclosed & Horigin) E.
  split; [eapply floodNode_floodState; eauto|].
  destruct Hstate as (Hr & HX & HY & Hfs & _).
  destruct c as [x y].
  inversion Hfs as [|? ? Hc _]; subst. unfold insideCell in Hc. cbn [fst snd] in Hc.
  inversion Hstack as [|? ? Hreach Hrest]; subst.
  destruct (floodNode_spec canFlood fillingValue getContourValue contour_keeps_dry
                           _ _ _ _ _ _ _ _ Hr E)
    as (Hs & pushed & new & -> & _ & _ & Hpushed & Hall & _).
  cbn zeta in Hs, Hpushed, Hall.
  set (g1 := set g x y fillingValue) in *.
  assert (Hr1 : rect g1) by (now apply set_rect).
  assert (Hin : forall n, insideCell g1 n = insideCell f n).
  { intros n. unfold insideCell, g1. rewrite set_isInside. now apply isInside_dims. }
  assert (Hing : forall n, insideCell g n = insideCell f n).
  { intros n. unfold insideCell. now apply isInside_dims. }
  assert (Hkept : forall n, insideCell f n = true ->
                            canFlood (getCell g1 n) = true
                            \/ getCell g1 n = fillingValue ->
                            getCell g' n = getCell g1 n).
  { intros n Hn. apply (shaded_keeps_flood (fun v => canFlood v = false)); trivial.
    now rewrite Hin. }
  assert (Hsame1 : getCell g1 (x, y) = fillingValue).
  { unfold getCell, g1. cbn [fst snd]. now apply get_set_same. }
  assert (Hsame : getCell g' (x, y) = fillingValue).
  { rewrite Hkept; trivial; [|now right].
    unfold insideCell. cbn [fst snd]. now rewrite <- (isInside_dims f g). }
  assert (Hother1 : forall n, insideCell f n = true -> n <> (x, y) ->
                              getCell g1 n = getCell g n).
  { intros [a b] Hn Hne. unfold getCell, g1. cbn [fst snd].
    apply get_set_other; [|congruence].
    rewrite <- Hing in Hn. exact Hn. }
  assert (Hnode : forall n, n = (x, y) \/ n <> (x, y)).
  { intros [a b]. destruct (Z.eq_dec a x) as [->|Ha];
      [destruct (Z.eq_dec b y) as [->|Hb]|]; [now left| |];
      right; congruence. }
  assert (Hkeep : forall n, insideCell f n = true -> getCell g n = fillingValue ->
                            getCell g' n = fillingValue).
  { intros n Hn Hv. destruct (Hnode n) as [->|Hne]; [exact Hsame|].
    rewrite Hkept; trivial; rewrite Hother1; trivial. now right. }
  assert (Hfirst : forall n, reachable canFlood f origin n -> n <> (x, y) ->
                             getCell g n = getCell f n ->
                             getCell g' n = getCell f n
                             /\ canFlood (getCell g1 n) = true).
  { intros n Hn Hne Hv.
    destruct (reachable_floodable _ _ _ _ Hn) as [Hn1 Hn2].
    assert (Hc1 : canFlood (getCell g1 n) = true)
      by (rewrite Hother1, Hv; trivial).
    split; [|exact Hc1].
    rewrite Hkept; trivial; [|now left]. rewrite Hother1; trivial. }
  split; [|split; [|split; [|split]]].
  - intros n Hn Hfl.
    assert (Hfl1 : canFlood (getCell g1 n) = true).
    { assert (Hn1 : insideCell g1 n = true) by (now rewrite Hin).
      destruct n as [a b]. unfold getCell, insideCell in Hn1, Hfl |- *.
      cbn [fst snd] in Hn1, Hfl |- *.
      rewrite <- Hfl. symmetry.
      apply (shaded_floodable canFlood getContourValue contour_keeps_dry);
        trivial. }
    destruct (Hnode n) as [->|Hne]; [congruence|].
    rewrite Hkept; trivial; [|now left].
    rewrite Hother1 in Hfl1 |- *; trivial. now apply Hwet.
  - intros n Hn. destruct (reachable_floodable _ _ _ _ Hn) as [Hn1 _].
    destruct (Hnode n) as [->|Hne]; [now right|].
    destruct (Hcells n Hn) as [Hv|Hv].
    + left. now apply Hfirst.
    + right. now apply Hkeep.
  - apply Forall_app. split; trivial.
    eapply Forall_impl; [|exact Hpushed]. intros n (Hn1 & Hn2 & delta & Hd & ->).
    rewrite Hin in Hn1.
    apply reachable_step; trivial.
    assert (Hne := neighbor_other (x, y) delta Hd).
    rewrite Hother1 in Hn2 by assumption.
    now rewrite <- (Hwet _ Hn1 Hn2).
  - intros c delta Hc' Hv Hd Hn Hfl.
    assert (Hreach' : reachable canFlood f origin (neighbor c delta))
      by (now apply reachable_step).
    destruct (Hnode (neighbor c delta)) as [E'|Hne']; [left; now rewrite E'|].
    destruct (Hcells _ Hreach') as [Hv'|Hv']; [|left; now apply Hkeep].
    destruct (Hnode c) as [->|Hne].
    + right. apply in_or_app. left. apply Hall; trivial; [now rewrite Hin|].
      now apply Hfirst.
    + destruct (reachable_floodable _ _ _ _ Hc') as [Hc1 Hc2].
      destruct (Hcells c Hc') as [Hvc|Hvc].
      * destruct (Hfirst c Hc' Hne Hvc) as [Hg' _].
        rewrite Hg' in Hv. rewrite Hv in Hc2. congruence.
      * destruct (Hclosed c delta Hc' Hvc Hd Hn Hfl) as [Hfilled|[E'|Hin']].
        -- left. now apply Hkeep.
        -- congruence.
        -- right. apply in_or_app. now right.
  - destruct Horigin as [Hv|[<-|Hin']].
    + left. now apply Hkeep.
    + left. exact Hsame.
    + right. apply in_or_app. now right.
Qed.

Lemma floodLoop_reach fuel f1 stack :
  rect f -> canFlood (getCell f origin) = true ->
  floodLoop canFlood fillingValue getContourValue fuel f [origin] []
  = Some (f1, stack) ->
  forall c, reachable canFlood f origin c -> getCell f1 c = fillingValue.
Proof.
  intros Hr Hfl E.
  assert (Hreach : reachable canFlood f origin origin)
    by (now apply reachable_origin).
  assert (H : reach f1 [] stack).
  { apply (floodLoop_invariant canFlood fillingValue getContourValue reach
                               reach_floodNode _ _ _ _ _ _) with (2 := E).
    split; [repeat split; trivial; repeat constructor; exact origin_inside|].
    split; [reflexivity|].
    split; [intros; now left|].
    split; [constructor; [exact Hreach|constructor]|].
    split; [|right; now left].
    intros c delta Hc' Hv _ _ _. exfalso.
    destruct (reachable_floodable _ _ _ _ Hc') as [_ Hfl'].
    rewrite Hv in Hfl'. congruence. }
  destruct H as (_ & _ & _ & _ & Hclosed & Horigin).
  intros c Hc. induction Hc as [Hin Hfl'|c delta Hc IH Hd Hin Hfl'].
  - destruct Horigin as [Hv|[]]. exact Hv.
  - destruct (Hclosed c delta Hc IH Hd Hin Hfl') as [Hv|[]]. exact Hv.
Qed.

End FloodReach.

Lemma fill_filling_kept valueMax thickness cappingRadiusRatio d :
  (minDistanceSq <= d)%Q ->
  fillContourValue thickness cappingRadiusRatio
                   (fillFillingValue valueMax thickness) d = None.
Proof.
  intros Hd.
  destruct (fillContourValue thickness cappingRadiusRatio
                             (fillFillingValue valueMax thickness) d)
    as [v'|] eqn:E; trivial.
  assert (Hle := fill_contour_below_filling valueMax thickness cappingRadiusRatio
                                            _ _ _ Hd E).
  apply fillContourValue_some in E. destruct E as (_ & Hlt & _).
  exfalso. apply (Qlt_irrefl v'). eapply Qle_lt_trans; eauto.
Qed.

(** X30.  For every [valueMax], thickness and capping ratio, [fillFrom]
    from a cell of the grid that holds less than [valueMax] returns with
    every cell that is 4-connected to that cell through cells holding
    less than [valueMax] at the filling value: the shading of the
    contour takes nothing back from the flood. *)
Theorem fillFrom_floods_reachable (fuel : nat) (f : t)
        (originX originY valueMax thickness cappingRadiusRatio : Q) :
  rect f -> isInside f (round originX) (round originY) = true ->
  (get f (round originX) (round originY) < valueMax)%Q ->
  (fuelFor f <= fuel)%nat ->
  exists f',
    fillFrom fuel f originX originY valueMax thickness cappingRadiusRatio = Some f'
    /\ forall x y,
        reachable (fun fieldValue : Q => Qltb fieldValue valueMax) f
                  (round originX, round originY) (x, y) ->
        get f' x y = fillFillingValue valueMax thickness.
Proof.
  intros Hr Hin Hlt Hfuel.
  set (canFlood := fun fieldValue : Q => Qltb fieldValue valueMax).
  set (origin := (round originX, round originY)).
  destruct (floodAndShade_terminates
              canFlood (fillFillingValue valueMax thickness)
              (fillContourValue thickness cappingRadiusRatio)
              (fill_contour_keeps_dry valueMax thickness cappingRadiusRatio)
              (fill_filling_is_dry valueMax thickness)
              (fill_accepted_once thickness cappingRadiusRatio)
              (fill_accepted_before thickness cappingRadiusRatio)
              fuel f originX originY Hr Hfuel)
    as (f1 & stack & f' & E1 & E2 & Hstate & Hs).
  exists f'. split; [exact E2|].
  destruct Hstate as (Hr1 & HX & HY & _).
  assert (Hfl : canFlood (getCell f origin) = true) by (now apply Qltb_lt).
  unfold floodFrom in E1. rewrite Hin in E1. cbn [negb] in E1.
  unfold getCell, origin in Hfl. cbn [fst snd] in Hfl. rewrite Hfl in E1.
  intros x y Hxy.
  assert (H1 := floodLoop_reach
                  canFlood (fillFillingValue valueMax thickness)
                  (fillContourValue thickness cappingRadiusRatio)
                  (fill_contour_keeps_dry valueMax thickness cappingRadiusRatio)
                  (fill_filling_is_dry valueMax thickness)
                  (fill_filling_kept valueMax thickness cappingRadiusRatio)
                  f origin Hin fuel f1 stack Hr Hfl E1 (x, y) Hxy).
  apply (shaded_keeps_filling
           (fillFillingValue valueMax thickness)
           (fillContourValue thickness cappingRadiusRatio)
           (fill_filling_kept valueMax thickness cappingRadiusRatio)
           f1 f' Hr1 Hs (x, y)); [|exact H1].
  destruct (reachable_floodable _ _ _ _ Hxy) as [Hc _].
  unfold insideCell in *. cbn [fst snd] in *.
  now rewrite (isInside_dims f f1).
Qed.

Lemma fillFrom_floods_reachable_witness :
  exists f',
    fillFrom (fuelFor squareField) squareField 4 4 1 2 2 = Some f'
    /\ forall x y,
        reachable (fun fieldValue : Q => Qltb fieldValue 1) squareField
                  (round 4, round 4) (x, y) ->
        get f' x y = fillFillingValue 1 2.
Proof.
  apply (fillFrom_floods_reachable (fuelFor squareField) squareField 4 4 1 2 2).
  - unfold rect. repeat constructor.
  - reflexivity.
  - reflexivity.
  - apply Nat.le_refl.
Defined.
